(** * Resilient data access of the movie application

    A shallow embedding of [app/services/appwrite.ts] (the backoff
    executor [retryWithBackoff], the search aggregator
    [updateSearchCount], the trend reader [getTrendingMovies], the
    duplicate reconciler [cleanupDuplicateMovies], the catalog reader
    [fetchMovies] and the connectivity tests), of the [useFetch] hook
    and of the callers on the home screen ([runCleanup],
    [runInitialSetup]) and on the search screen ([trackSearch]),
    followed by the properties of the specification that hold of them,
    the places where the code departs from it, and further properties
    of the code.

    Conventions of the embedding:
    - an [async] function is a state-passing function that returns how
      its promise settled together with the state it leaves behind;
    - a JavaScript number that the code uses as a counter or an
      identifier is an integer ([nat] or [Z]);
    - a timestamp is the number of milliseconds that
      [new Date(s).getTime()] computes from the store's ISO string;
    - [console.log] and [console.error] calls have no effect on the
      values studied here and are left out. *)

From Stdlib Require Import List ZArith Ascii String Bool Arith Lia Permutation.
From Stdlib Require Import DecimalString.
Import ListNotations.
Open Scope string_scope.
Open Scope list_scope.
Open Scope nat_scope.

Set Implicit Arguments.
Set Warnings "-register-all".

(* ================================================================= *)
(** * Part I: the embedding *)
(* ================================================================= *)

(* ----------------------------------------------------------------- *)
(** ** Thrown values and settled promises *)

(** A JavaScript [Error] object: its [name], its [message] and the
    optional [cause] it wraps. *)
Inductive JsError : Type :=
| mkError (name message : string) (cause : option JsError).

Definition error_message (e : JsError) : string :=
  match e with mkError _ m _ => m end.

Definition error_cause (e : JsError) : option JsError :=
  match e with mkError _ _ c => c end.

(** [new Error(msg)] *)
Definition new_Error (msg : string) : JsError := mkError "Error" msg None.

(** Anything can be thrown in JavaScript: an [Error] object or another
    value (here a string). *)
Inductive Thrown : Type :=
| ThrownError (e : JsError)
| ThrownValue (v : string).

(** [error.message], [undefined] on a value that is not an object. *)
Definition thrown_message (t : Thrown) : option string :=
  match t with
  | ThrownError e => Some (error_message e)
  | ThrownValue _ => None
  end.

(** How a promise settles. *)
Inductive Settled (A : Type) : Type :=
| Fulfilled (a : A)
| Rejected (t : Thrown).
Arguments Fulfilled {A} a.
Arguments Rejected {A} t.

(** An [async] computation over a state [St]. *)
Definition Async (St A : Type) : Type := St -> Settled A * St.

Definition ret {St A} (a : A) : Async St A := fun s => (Fulfilled a, s).

Definition throw {St A} (t : Thrown) : Async St A := fun s => (Rejected t, s).

Definition bind {St A B} (m : Async St A) (k : A -> Async St B) : Async St B :=
  fun s =>
    match m s with
    | (Fulfilled a, s') => k a s'
    | (Rejected t, s') => (Rejected t, s')
    end.

(** [try { m } catch (error) { h error }] *)
Definition try_catch {St A} (m : Async St A) (h : Thrown -> Async St A)
  : Async St A :=
  fun s =>
    match m s with
    | (Fulfilled a, s') => (Fulfilled a, s')
    | (Rejected t, s') => h t s'
    end.

Declare Scope async_scope.
Delimit Scope async_scope with async.
Notation "x <- m ;; k" := (bind m (fun x => k))
  (at level 61, m at next level, right associativity) : async_scope.
Notation "m ;;; k" := (bind m (fun _ => k))
  (at level 61, right associativity) : async_scope.

Definition nat_to_string (n : nat) : string :=
  NilEmpty.string_of_uint (Nat.to_uint n).

(* ----------------------------------------------------------------- *)
(** ** The backoff executor: [retryWithBackoff] *)

Section Backoff.
Variables St T : Type.

(** [await new Promise(resolve => setTimeout(resolve, waitTime))] *)
Variable sleep : Z -> St -> St.

Variable operation : Async St T.
Variable retries : nat.
Variable operationName : string.

(** The statement after the [for] loop. *)
Definition after_loop : Async St T :=
  throw (ThrownError (new_Error
    (operationName ++ " failed after " ++ nat_to_string retries ++ " attempts")%string)).

(** [for (let i = 0; i < retries; i++) { try ... catch ... }], from
    index [i] on.  The loop runs at most [retries - i] more times,
    which is the [fuel] it is started with. *)
Fixpoint for_loop (fuel i : nat) (s : St) : Settled T * St :=
  if i <? retries then
    match fuel with
    | O => after_loop s
    | S fuel' =>
        match operation s with
        | (Fulfilled v, s') => (Fulfilled v, s')
        | (Rejected error, s') =>
            let isLastAttempt := i =? retries - 1 in
            if isLastAttempt then (Rejected error, s')
            else
              let waitTime := (1000 * 2 ^ Z.of_nat i)%Z in
              for_loop fuel' (S i) (sleep waitTime s')
        end
    end
  else after_loop s.

Definition retryWithBackoff : Async St T := for_loop retries 0.

(** The state in which the operation runs for the [j]-th time from
    index [i] on, when each earlier run was rejected and followed by
    its wait. *)
Fixpoint state_before (i j : nat) (s : St) : St :=
  match j with
  | O => s
  | S j' => state_before (S i) j' (sleep (1000 * 2 ^ Z.of_nat i)%Z (snd (operation s)))
  end.

(** Attempt number [j] (from 0) of a call that starts in [s] is
    rejected. *)
Definition attempt_rejected (s : St) (j : nat) : Prop :=
  exists e, fst (operation (state_before 0 j s)) = Rejected e.
End Backoff.

(** Counting the runs of an operation: the state is paired with a
    counter that each run of the operation increments and that the
    waits leave alone. *)
Section Counting.
Variables St T : Type.
Variable sleep : Z -> St -> St.

Definition counted (operation : Async St T) : Async (St * nat) T :=
  fun sn =>
    let (r, s') := operation (fst sn) in (r, (s', S (snd sn))).

Definition counted_sleep (ms : Z) (sn : St * nat) : St * nat :=
  (sleep ms (fst sn), snd sn).

(** How a call settles and how many times it ran the operation. *)
Definition retry_outcome (operation : Async St T) (retries : nat)
           (operationName : string) (s : St) : Settled T :=
  fst (retryWithBackoff sleep operation retries operationName s).

Definition retry_attempts (operation : Async St T) (retries : nat)
           (operationName : string) (s : St) : nat :=
  snd (snd (retryWithBackoff counted_sleep (counted operation)
              retries operationName (s, 0))).
End Counting.

(** A scripted operation: the state is the list of the results its
    next runs will give; it is rejected once the script is used up. *)
Definition scripted {T} (fallback : Thrown) : Async (list (Settled T)) T :=
  fun script =>
    match script with
    | [] => (Rejected fallback, [])
    | r :: rest => (r, rest)
    end.

Definition no_sleep {St} (ms : Z) (s : St) : St := s.

Definition network_failure : Thrown :=
  ThrownError (new_Error "Network request failed").

(** An operation that is rejected whenever it runs. *)
Definition always_rejected : Async (list (Settled unit)) unit :=
  scripted network_failure.

(** The script of an operation that is rejected once and then
    fulfilled with 7. *)
Definition second_time_lucky : list (Settled nat) :=
  [Rejected network_failure; Fulfilled 7].

(** Modelled from the spec: the [RetryExhausted] error of the error
    taxonomy, which the source does not define; it wraps the last
    underlying error as its cause. *)
Definition RetryExhausted (last : JsError) : JsError :=
  mkError "RetryExhausted" "retries exhausted" (Some last).

(** [outer] is an error object that wraps the thrown value [inner]. *)
Definition wraps (outer inner : Thrown) : Prop :=
  exists n m e, outer = ThrownError (mkError n m (Some e)) /\ inner = ThrownError e.

(** The number of causes an error is wrapped around. *)
Fixpoint cause_depth (e : JsError) : nat :=
  match e with
  | mkError _ _ None => 0
  | mkError _ _ (Some c) => S (cause_depth c)
  end.

(* ----------------------------------------------------------------- *)
(** ** Documents, movies and the remote document store *)

(** A document of the collection, as [listDocuments] returns it.  The
    store assigns [$id], [$createdAt] and [$updatedAt]; an absent or
    empty [$updatedAt] is [None].  [searchTerm] is the field of the old
    data structure that the code still reads.  [count] is an integer,
    on which [count || 0] is [count]. *)
Record Document : Type := mkDocument {
  dollar_id : string;
  dollar_createdAt : Z;
  dollar_updatedAt : option Z;
  searchTerms : option (list string);
  searchTerm : option string;
  lastSearchTerm : string;
  count : Z;
  movie_id : Z;
  poster_url : string;
  title : string;
  release_date : option string;
  vote_average : option Z;
  lastSearched : Z
}.

Module Movie.
Record t : Type := mk {
  id : Z;
  title : string;
  poster_path : option string;
  release_date : option string;
  vote_average : option Z
}.
End Movie.

(** What the remote side holds: the collection in the store's own
    order, the clock, and for each coming remote call whether it fails
    ([true]) before reaching the store.  Past the end of [faults] every
    call goes through. *)
Record World : Type := mkWorld {
  documents : list Document;
  now : Z;
  faults : list bool
}.

Definition set_documents (docs : list Document) (w : World) : World :=
  {| documents := docs; now := now w; faults := faults w |}.

Definition set_faults (fs : list bool) (w : World) : World :=
  {| documents := documents w; now := now w; faults := fs |}.

(** Waiting lets the clock advance. *)
Definition sleep_world (ms : Z) (w : World) : World :=
  {| documents := documents w; now := (now w + ms)%Z; faults := faults w |}.

Definition network_error : Thrown :=
  ThrownError (mkError "AppwriteException" "Network request failed" None).

Definition not_found_error : Thrown :=
  ThrownError (mkError "AppwriteException"
    "Document with the requested ID could not be found." None).

Definition conflict_error : Thrown :=
  ThrownError (mkError "AppwriteException"
    "Document with the requested ID already exists." None).

(** A call to the remote store.  The failure modelled is the request
    that does not reach the store: when the next fault flag says so
    the call is rejected and the collection is as it was.  A call the
    store applies and whose answer is lost is not modelled, so what is
    proved of writes under faults is proved of the first kind of
    failure only. *)
Definition remote {A} (call : Async World A) : Async World A :=
  fun w =>
    match faults w with
    | true :: rest => (Rejected network_error, set_faults rest w)
    | false :: rest => call (set_faults rest w)
    | [] => call w
    end.

(** Stable insertion sort under a JavaScript comparator: [x] stays in
    front of [y] unless [cmp x y] is positive. *)
Section Sort.
Variable A : Type.
Variable cmp : A -> A -> Z.

Fixpoint insert_sorted (x : A) (l : list A) : list A :=
  match l with
  | [] => [x]
  | y :: l' =>
      if (cmp x y <=? 0)%Z then x :: y :: l' else y :: insert_sorted x l'
  end.

Fixpoint sort_by (l : list A) : list A :=
  match l with
  | [] => []
  | x :: l' => insert_sorted x (sort_by l')
  end.
End Sort.

(** The queries the code builds. *)
Inductive Query : Type :=
| Query_equal_movie_id (value : Z)
| Query_limit (n : nat)
| Query_orderDesc_count.

Definition query_keeps (q : Query) (d : Document) : bool :=
  match q with
  | Query_equal_movie_id v => (movie_id d =? v)%Z
  | _ => true
  end.

Definition query_limit (qs : list Query) : nat :=
  fold_left (fun n q => match q with Query_limit m => m | _ => n end) qs 25.

Definition query_orders (qs : list Query) : bool :=
  existsb (fun q => match q with Query_orderDesc_count => true | _ => false end) qs.

Definition select_documents (qs : list Query) (docs : list Document)
  : list Document :=
  let kept := filter (fun d => forallb (fun q => query_keeps q d) qs) docs in
  let ordered :=
    if query_orders qs
    then sort_by (fun a b => (count b - count a)%Z) kept
    else kept in
  firstn (query_limit qs) ordered.

(** [databases.listDocuments(DATABASE_ID, COLLECTION_ID, queries)],
    giving [result.documents]. *)
Definition listDocuments (queries : list Query) : Async World (list Document) :=
  remote (fun w => (Fulfilled (select_documents queries (documents w)), w)).

Definition has_id (id : string) (d : Document) : bool :=
  String.eqb (dollar_id d) id.

(** The store stamps a written document. *)
Definition touch (t : Z) (d : Document) : Document :=
  {| dollar_id := dollar_id d;
     dollar_createdAt := dollar_createdAt d;
     dollar_updatedAt := Some t;
     searchTerms := searchTerms d;
     searchTerm := searchTerm d;
     lastSearchTerm := lastSearchTerm d;
     count := count d;
     movie_id := movie_id d;
     poster_url := poster_url d;
     title := title d;
     release_date := release_date d;
     vote_average := vote_average d;
     lastSearched := lastSearched d |}.

(** [databases.updateDocument(DATABASE_ID, COLLECTION_ID, id, data)]:
    [data] overwrites the fields it names. *)
Definition updateDocument (id : string) (data : Document -> Document)
  : Async World unit :=
  remote (fun w =>
    if existsb (has_id id) (documents w) then
      (Fulfilled tt,
       set_documents
         (map (fun d => if has_id id d then touch (now w) (data d) else d)
              (documents w)) w)
    else (Rejected not_found_error, w)).

(** [databases.deleteDocument(DATABASE_ID, COLLECTION_ID, id)] *)
Definition deleteDocument (id : string) : Async World unit :=
  remote (fun w =>
    if existsb (has_id id) (documents w) then
      (Fulfilled tt,
       set_documents (filter (fun d => negb (has_id id d)) (documents w)) w)
    else (Rejected not_found_error, w)).

Fixpoint string_of_length (n : nat) : string :=
  match n with
  | O => EmptyString
  | S n' => String "u"%char (string_of_length n')
  end.

(** The identifier the store makes up for ['unique()']: one longer than
    every identifier in use. *)
Definition fresh_id (docs : list Document) : string :=
  string_of_length
    (S (fold_right (fun d n => Nat.max (String.length (dollar_id d)) n) 0 docs)).

(** [databases.createDocument(DATABASE_ID, COLLECTION_ID, documentId, data)] *)
Definition createDocument (documentId : string) (data : Document)
  : Async World unit :=
  remote (fun w =>
    let id := if String.eqb documentId "unique()"
              then fresh_id (documents w) else documentId in
    if existsb (has_id id) (documents w) then (Rejected conflict_error, w)
    else
      let stored :=
        {| dollar_id := id;
           dollar_createdAt := now w;
           dollar_updatedAt := Some (now w);
           searchTerms := searchTerms data;
           searchTerm := searchTerm data;
           lastSearchTerm := lastSearchTerm data;
           count := count data;
           movie_id := movie_id data;
           poster_url := poster_url data;
           title := title data;
           release_date := release_date data;
           vote_average := vote_average data;
           lastSearched := lastSearched data |} in
      (Fulfilled tt, set_documents (documents w ++ [stored]) w)).

(** [new Date().toISOString()] *)
Definition new_Date : Async World Z := fun w => (Fulfilled (now w), w).

(* ----------------------------------------------------------------- *)
(** ** The search aggregator: [updateSearchCount] *)

(** [s || null] on an optional string, [n || null] on an optional
    number: the empty string and zero are falsy. *)
Definition truthy_string (s : option string) : option string :=
  match s with
  | Some EmptyString => None
  | _ => s
  end.

Definition truthy_number (n : option Z) : option Z :=
  match n with
  | Some 0%Z => None
  | _ => n
  end.

Definition placeholder_poster : string :=
  "https://placehold.co/500x750/1a1a1a/ffffff.png".

Definition poster_url_of (movie : Movie.t) : string :=
  match truthy_string (Movie.poster_path movie) with
  | Some path => ("https://image.tmdb.org/t/p/w500" ++ path)%string
  | None => placeholder_poster
  end.

(** [doc.searchTerms || (doc.searchTerm ? [doc.searchTerm] : [])] *)
Definition docTerms (doc : Document) : list string :=
  match searchTerms doc with
  | Some terms => terms
  | None =>
      match truthy_string (searchTerm doc) with
      | Some term => [term]
      | None => []
      end
  end.

(** [terms.includes(query)] *)
Definition includes (query : string) (terms : list string) : bool :=
  existsb (String.eqb query) terms.

Definition updatedSearchTerms (existingDoc : Document) (query : string)
  : list string :=
  let currentSearchTerms := docTerms existingDoc in
  if includes query currentSearchTerms
  then currentSearchTerms
  else currentSearchTerms ++ [query].

(** The data written over an existing document. *)
Definition search_update (existingDoc : Document) (query : string)
           (movie : Movie.t) (t : Z) (d : Document) : Document :=
  {| dollar_id := dollar_id d;
     dollar_createdAt := dollar_createdAt d;
     dollar_updatedAt := dollar_updatedAt d;
     searchTerms := Some (updatedSearchTerms existingDoc query);
     searchTerm := searchTerm d;
     lastSearchTerm := query;
     count := (count existingDoc + 1)%Z;
     movie_id := movie_id d;
     poster_url := poster_url_of movie;
     title := Movie.title movie;
     release_date := truthy_string (Movie.release_date movie);
     vote_average := truthy_number (Movie.vote_average movie);
     lastSearched := t |}.

(** The data of a new document. *)
Definition search_create (query : string) (movie : Movie.t) (t : Z) : Document :=
  {| dollar_id := "unique()";
     dollar_createdAt := t;
     dollar_updatedAt := None;
     searchTerms := Some [query];
     searchTerm := None;
     lastSearchTerm := query;
     count := 1%Z;
     movie_id := Movie.id movie;
     poster_url := poster_url_of movie;
     title := Movie.title movie;
     release_date := truthy_string (Movie.release_date movie);
     vote_average := truthy_number (Movie.vote_average movie);
     lastSearched := t |}.

(** The operation handed to [retryWithBackoff]. *)
Definition updateSearchCount_operation (query : string) (movie : Movie.t)
  : Async World unit :=
  (result <- listDocuments [Query_equal_movie_id (Movie.id movie)] ;;
   match result with
   | existingDoc :: _ =>
       t <- new_Date ;;
       updateDocument (dollar_id existingDoc)
                      (search_update existingDoc query movie t)
   | [] =>
       t <- new_Date ;;
       createDocument "unique()" (search_create query movie t)
   end)%async.

Definition updateSearchCount (query : string) (movie : Movie.t)
  : Async World unit :=
  retryWithBackoff sleep_world (updateSearchCount_operation query movie)
                   3 "UpdateSearchCount".

(* ----------------------------------------------------------------- *)
(** ** The trend reader: [getTrendingMovies] *)

(** [result.documents.reduce((unique, movie) => ..., [])] *)
Definition uniqueMovies (docs : list Document) : list Document :=
  fold_left
    (fun unique movie =>
       match find (fun m => (movie_id m =? movie_id movie)%Z) unique with
       | Some _ => unique
       | None => unique ++ [movie]
       end)
    docs [].

Definition getTrendingMovies_operation : Async World (list Document) :=
  (result <- listDocuments [Query_limit 10; Query_orderDesc_count] ;;
   ret (firstn 5 (uniqueMovies result)))%async.

Definition getTrendingMovies : Async World (list Document) :=
  try_catch
    (retryWithBackoff sleep_world getTrendingMovies_operation
                      3 "GetTrendingMovies")
    (fun _ => ret []).

(** What the store answers to the query of the trend reader. *)
Definition trending_rows (docs : list Document) : list Document :=
  select_documents [Query_limit 10; Query_orderDesc_count] docs.

(** The specification's dedup pass, in its own words: keep the first
    occurrence of each [movie_id], in the order given. *)
Fixpoint first_occurrences (docs : list Document) : list Document :=
  match docs with
  | [] => []
  | d :: rest =>
      d :: filter (fun x => negb (movie_id x =? movie_id d)%Z)
                  (first_occurrences rest)
  end.

(** [x] is a row of the movie of [d]. *)
Definition same_movie (d x : Document) : bool := (movie_id x =? movie_id d)%Z.

(** The next three remote calls all fail: no attempt of a call with
    three attempts reaches the store. *)
Definition store_unreachable (w : World) : bool :=
  match faults w with
  | true :: true :: true :: _ => true
  | _ => false
  end.

(* ----------------------------------------------------------------- *)
(** ** The duplicate reconciler: [cleanupDuplicateMovies] *)

(** [movieGroups]: an object used as a map from [movie_id] to the
    array of its documents, kept with its keys in insertion order. *)
Definition MovieGroups : Type := list (Z * list Document).

(** [if (!movieGroups[movieId]) movieGroups[movieId] = [];
     movieGroups[movieId].push(doc)] *)
Fixpoint push_group (movieId : Z) (doc : Document) (groups : MovieGroups)
  : MovieGroups :=
  match groups with
  | [] => [(movieId, [doc])]
  | (k, docs) :: rest =>
      if (k =? movieId)%Z then (k, docs ++ [doc]) :: rest
      else (k, docs) :: push_group movieId doc rest
  end.

Definition group_documents (allDocs : list Document) : MovieGroups :=
  fold_left (fun groups doc => push_group (movie_id doc) doc groups) allDocs [].

(** A key that JavaScript treats as an array index. *)
Definition is_array_index (k : Z) : bool :=
  ((0 <=? k) && (k <? 2 ^ 32 - 1))%Z.

(** [Object.entries(movieGroups)]: the array-index keys in ascending
    order first, then the other keys in insertion order. *)
Definition Object_entries (groups : MovieGroups) : MovieGroups :=
  sort_by (fun a b => (fst a - fst b)%Z)
          (filter (fun g => is_array_index (fst g)) groups)
  ++ filter (fun g => negb (is_array_index (fst g))) groups.

(** [docs.reduce((sum, doc) => sum + (doc.count || 0), 0)] *)
Definition totalCount (docs : list Document) : Z :=
  fold_left (fun sum doc => (sum + count doc)%Z) docs 0%Z.

(** [[...new Set(items)]]: the first occurrence of each item, in order. *)
Definition Set_of (items : list string) : list string :=
  fold_left
    (fun set x => if includes x set then set else set ++ [x])
    items [].

(** [docs.reduce((terms, doc) => [...new Set([...terms, ...docTerms])], [])] *)
Definition allSearchTerms (docs : list Document) : list string :=
  fold_left (fun terms doc => Set_of (terms ++ docTerms doc)) docs [].

(** [new Date(d.$updatedAt || d.$createdAt).getTime()] *)
Definition docTime (d : Document) : Z :=
  match dollar_updatedAt d with
  | Some t => t
  | None => dollar_createdAt d
  end.

(** [docs.sort((a, b) => time(b) - time(a))] *)
Definition sortedDocs (docs : list Document) : list Document :=
  sort_by (fun a b => (docTime b - docTime a)%Z) docs.

(** [allSearchTerms[allSearchTerms.length - 1] || ''] *)
Definition last_term (terms : list string) : string := last terms "".

(** The data written over the kept document. *)
Definition merge_update (docs : list Document) (t : Z) (d : Document)
  : Document :=
  {| dollar_id := dollar_id d;
     dollar_createdAt := dollar_createdAt d;
     dollar_updatedAt := dollar_updatedAt d;
     searchTerms := Some (allSearchTerms docs);
     searchTerm := searchTerm d;
     lastSearchTerm := last_term (allSearchTerms docs);
     count := totalCount docs;
     movie_id := movie_id d;
     poster_url := poster_url d;
     title := title d;
     release_date := release_date d;
     vote_average := vote_average d;
     lastSearched := t |}.

(** The two counters of the [try] block. *)
Record Counters : Type := mkCounters {
  duplicatesFound : nat;
  duplicatesRemoved : nat
}.

(** A step of the [try] block: how it went, the counters and the remote
    side it leaves. *)
Definition Progress : Type := (Settled unit * Counters * World)%type.

(** [for (let i = 1; i < sortedDocs.length; i++) { await deleteDocument...;
    duplicatesRemoved++ }], over [sortedDocs] without its head. *)
Fixpoint delete_loop (others : list Document) (c : Counters) (w : World)
  : Progress :=
  match others with
  | [] => (Fulfilled tt, c, w)
  | doc :: others' =>
      match deleteDocument (dollar_id doc) w with
      | (Fulfilled _, w') =>
          delete_loop others'
            (mkCounters (duplicatesFound c) (S (duplicatesRemoved c))) w'
      | (Rejected e, w') => (Rejected e, c, w')
      end
  end.

(** The body of the loop over the groups. *)
Definition process_group (docs : list Document) (c : Counters) (w : World)
  : Progress :=
  if 1 <? List.length docs then
    let c1 := mkCounters (S (duplicatesFound c)) (duplicatesRemoved c) in
    match sortedDocs docs with
    | [] => (Rejected (ThrownError (mkError "TypeError"
               "Cannot read property '$id' of undefined" None)), c1, w)
    | keepDoc :: others =>
        match updateDocument (dollar_id keepDoc)
                             (merge_update docs (now w)) w with
        | (Fulfilled _, w') => delete_loop others c1 w'
        | (Rejected e, w') => (Rejected e, c1, w')
        end
    end
  else (Fulfilled tt, c, w).

(** [for (const [movieId, docs] of Object.entries(movieGroups)) ...] *)
Fixpoint groups_loop (entries : MovieGroups) (c : Counters) (w : World)
  : Progress :=
  match entries with
  | [] => (Fulfilled tt, c, w)
  | (_, docs) :: entries' =>
      match process_group docs c w with
      | (Fulfilled _, c', w') => groups_loop entries' c' w'
      | failed => failed
      end
  end.

(** The [try] block, with the counters it had reached when it ended. *)
Definition cleanup_try (w : World) : Progress :=
  match listDocuments [Query_limit 100] w with
  | (Fulfilled allDocs, w') =>
      groups_loop (Object_entries (group_documents allDocs))
                  (mkCounters 0 0) w'
  | (Rejected e, w') => (Rejected e, mkCounters 0 0, w')
  end.

(** The object the function returns: [{ duplicatesFound,
    duplicatesRemoved }], with an [error] field when the [catch] clause
    built it. *)
Record CleanupResult : Type := mkCleanupResult {
  result_duplicatesFound : nat;
  result_duplicatesRemoved : nat;
  result_error : option (option string)
}.

Definition cleanupDuplicateMovies : Async World CleanupResult :=
  fun w =>
    match cleanup_try w with
    | (Fulfilled _, c, w') =>
        (Fulfilled (mkCleanupResult (duplicatesFound c) (duplicatesRemoved c) None), w')
    | (Rejected error, _, w') =>
        (Fulfilled (mkCleanupResult 0 0 (Some (thrown_message error))), w')
    end.

(* ----------------------------------------------------------------- *)
(** ** The fetch controller: the [useFetch] hook *)

(** The hook runs on one thread: between two [await]s a call of
    [fetchData] runs without interruption.  A configuration holds the
    state and the two refs of the hook and, for every call of
    [fetchData] made from outside (on mount or through [refetch]), the
    point where it is suspended or how it ended.  An event is what the
    outside does next: it calls the hook, or it settles a promise a
    call is waiting for.  The callbacks [onSuccess] and [onError] do
    not touch the state of the hook and are left out. *)
Section UseFetch.
Variable T : Type.

Record UseFetchState : Type := mkState {
  data : option T;
  loading : bool;
  error : option JsError;
  isStale : bool
}.

Record Hook : Type := mkHook {
  state : UseFetchState;
  requestIdRef : nat;
  isMountedRef : bool
}.

(** [options.retries] *)
Variable retries : nat.

Inductive Call : Type :=
| AwaitingFetch (requestId retryCount : nat)
    (* at [await fetchFunction()] *)
| AwaitingDelay (retryCount : nat)
    (* at [await new Promise(resolve => setTimeout(resolve, retryDelay))] *)
| Returned (result : option T)
| Threw (error : JsError).

Record Config : Type := mkConfig {
  hook : Hook;
  calls : list Call
}.

Inductive Event : Type :=
| CallFetchData
| FetchResolves (call : nat) (result : T)
| FetchRejects (call : nat) (err : Thrown)
| DelayElapses (call : nat)
| CallReset
| CallMarkStale
| Unmount.

Definition initial : Config :=
  mkConfig (mkHook (mkState None false None false) 0 true) [].

(** [err instanceof Error ? err : new Error('An unknown error occurred')] *)
Definition as_Error (err : Thrown) : JsError :=
  match err with
  | ThrownError e => e
  | ThrownValue _ => new_Error "An unknown error occurred"
  end.

Definition set_state (f : UseFetchState -> UseFetchState) (h : Hook) : Hook :=
  mkHook (f (state h)) (requestIdRef h) (isMountedRef h).

(** [fetchData(retryCount)] up to [await fetchFunction()]. *)
Definition enter_fetchData (retryCount : nat) (h : Hook) : Hook * Call :=
  let requestId := S (requestIdRef h) in
  let h1 := mkHook (state h) requestId (isMountedRef h) in
  let h2 :=
    if retryCount =? 0
    then set_state (fun prev => mkState (data prev) true None false) h1
    else h1 in
  (h2, AwaitingFetch requestId retryCount).

(** [requestId === requestIdRef.current && isMountedRef.current] *)
Definition still_latest (requestId : nat) (h : Hook) : bool :=
  (requestId =? requestIdRef h) && isMountedRef h.

(** [fetchData] after [fetchFunction()] resolved. *)
Definition on_result (requestId : nat) (result : T) (h : Hook) : Hook * Call :=
  if still_latest requestId h
  then (set_state (fun prev => mkState (Some result) false None false) h,
        Returned (Some result))
  else (h, Returned None).

(** The [catch] clause of [fetchData]. *)
Definition on_error (requestId retryCount : nat) (err : Thrown) (h : Hook)
  : Hook * Call :=
  let error := as_Error err in
  if retryCount <? retries then (h, AwaitingDelay retryCount)
  else
    let h' :=
      if still_latest requestId h
      then set_state
             (fun prev =>
                mkState (data prev) false (Some error)
                        (match data prev with Some _ => true | None => false end))
             h
      else h in
    (h', Threw error).

Fixpoint set_nth {A} (i : nat) (x : A) (l : list A) : list A :=
  match l, i with
  | [], _ => []
  | _ :: l', O => x :: l'
  | y :: l', S i' => y :: set_nth i' x l'
  end.

Definition resume (i : nat) (r : Hook * Call) (c : Config) : Config :=
  mkConfig (fst r) (set_nth i (snd r) (calls c)).

Definition step (c : Config) (ev : Event) : Config :=
  match ev with
  | CallFetchData =>
      let (h, call) := enter_fetchData 0 (hook c) in
      mkConfig h (calls c ++ [call])
  | FetchResolves i result =>
      match nth_error (calls c) i with
      | Some (AwaitingFetch requestId _) =>
          resume i (on_result requestId result (hook c)) c
      | _ => c
      end
  | FetchRejects i err =>
      match nth_error (calls c) i with
      | Some (AwaitingFetch requestId retryCount) =>
          resume i (on_error requestId retryCount err (hook c)) c
      | _ => c
      end
  | DelayElapses i =>
      match nth_error (calls c) i with
      | Some (AwaitingDelay retryCount) =>
          resume i (enter_fetchData (retryCount + 1) (hook c)) c
      | _ => c
      end
  | CallReset =>
      mkConfig (mkHook (mkState None false None false) 0 (isMountedRef (hook c)))
               (calls c)
  | CallMarkStale =>
      mkConfig (set_state (fun prev =>
                  mkState (data prev) (loading prev) (error prev) true) (hook c))
               (calls c)
  | Unmount =>
      mkConfig (mkHook (state (hook c)) (requestIdRef (hook c)) false) (calls c)
  end.

Definition run (events : list Event) (c : Config) : Config :=
  fold_left step events c.

Definition settled (call : Call) : bool :=
  match call with
  | Returned _ | Threw _ => true
  | _ => false
  end.

(** Every call has run to its end. *)
Definition all_settled (c : Config) : bool := forallb settled (calls c).
End UseFetch.

Arguments CallFetchData {T}.
Arguments DelayElapses {T} call.
Arguments FetchRejects {T} call err.
Arguments CallReset {T}.
Arguments CallMarkStale {T}.
Arguments Unmount {T}.
Arguments AwaitingFetch {T} requestId retryCount.
Arguments AwaitingDelay {T} retryCount.
Arguments Threw {T} error.
Arguments initial {T}.

(* ----------------------------------------------------------------- *)
(** ** The reconciler when no remote call fails *)

(** [d] carries the identifier of one of [others]. *)
Definition id_in (others : list Document) (d : Document) : bool :=
  existsb (fun o => has_id (dollar_id o) d) others.

(** What a group of duplicates does to the collection when no remote
    call fails: the kept document is overwritten, the others go. *)
Definition merged_store (docs : list Document) (t : Z) (store : list Document)
  : list Document :=
  match sortedDocs docs with
  | [] => store
  | keepDoc :: others =>
      filter (fun d => negb (id_in others d))
        (map (fun d => if has_id (dollar_id keepDoc) d
                       then touch t (merge_update docs t d) else d)
             store)
  end.

Definition is_duplicate_group (entry : Z * list Document) : bool :=
  1 <? List.length (snd entry).

Definition merge_entry (t : Z) (store : list Document)
           (entry : Z * list Document) : list Document :=
  if is_duplicate_group entry then merged_store (snd entry) t store else store.

(** The counters a pass over [entries] adds when no remote call fails. *)
Definition count_groups (entries : MovieGroups) : nat :=
  List.length (filter is_duplicate_group entries).

Definition count_removals (entries : MovieGroups) : nat :=
  fold_right
    (fun entry n =>
       (if is_duplicate_group entry then List.length (snd entry) - 1 else 0) + n)
    0 entries.

(** The identifiers of all documents of all groups. *)
Definition entry_ids (entries : MovieGroups) : list string :=
  flat_map (fun entry => map dollar_id (snd entry)) entries.

(** The head of a list dominates the list. *)
Definition head_latest (l : list Document) : Prop :=
  match l with
  | [] => True
  | h :: t => forall d, In d t -> (docTime d <= docTime h)%Z
  end.

(** The collection after a pass over [entries] in which no remote call
    fails. *)
Definition reconciled (t : Z) (entries : MovieGroups) (store : list Document)
  : list Document :=
  fold_left (merge_entry t) entries store.

(** The documents of movie [k] among [docs], in the order of [docs]. *)
Definition group_of (k : Z) (docs : list Document) : list Document :=
  filter (fun d => (movie_id d =? k)%Z) docs.

(** [groups] is the grouping of the documents [seen] so far: one entry
    for each movie that occurs, holding its documents in order. *)
Record grouped (groups : MovieGroups) (seen : list Document) : Prop := {
  grouped_keys : NoDup (map fst groups);
  grouped_members :
    forall k ds, In (k, ds) groups -> ds = group_of k seen /\ ds <> [];
  grouped_all : forall d, In d seen -> In (movie_id d) (map fst groups);
  grouped_perm : Permutation (flat_map snd groups) seen
}.

(** The documents that [listDocuments] with [Query.limit(100)] loads. *)
Definition loaded (store : list Document) : list Document :=
  firstn 100 store.

(** The entries the loop of a run goes through. *)
Definition loaded_entries (store : list Document) : MovieGroups :=
  Object_entries (group_documents (loaded store)).

(** The merged data as the store holds it. *)
Definition merged_document (docs : list Document) (t : Z) (keepDoc : Document)
  : Document :=
  touch t (merge_update docs t keepDoc).

(* ----------------------------------------------------------------- *)
(** ** Example collections *)

Definition example_row (id : string) (movie : Z) (n : Z) (terms : list string)
           (updated : Z) : Document :=
  {| dollar_id := id;
     dollar_createdAt := 0%Z;
     dollar_updatedAt := Some updated;
     searchTerms := Some terms;
     searchTerm := None;
     lastSearchTerm := last terms "";
     count := n;
     movie_id := movie;
     poster_url := placeholder_poster;
     title := "Movie";
     release_date := None;
     vote_average := None;
     lastSearched := updated |}.

(** The example of the specification: three rows of movie 42. *)
Definition batman_rows : World :=
  mkWorld [example_row "a" 42 3 ["batman"] 10;
           example_row "b" 42 1 ["dark knight"] 30;
           example_row "c" 42 2 ["batman"; "joker"] 20]
          1000 [].

(** [n] rows of [n] movies of their own, numbered from [first]. *)
Definition filler_rows (first n : nat) : list Document :=
  map (fun i => example_row ("f" ++ nat_to_string i)%string
                            (Z.of_nat (1000 + i)) 1 ["x"] 5)
      (seq first n).

(** 101 rows; the first and the last are rows of movie 42. *)
Definition split_group_store : World :=
  mkWorld (example_row "a" 42 3 ["batman"] 10
           :: filler_rows 1 99
           ++ [example_row "b" 42 1 ["dark knight"] 30])
          1000 [].

(** 101 rows; the first two are rows of movie 42, and the last is a
    second row of movie 1001, whose first row is the third of the
    collection. *)
Definition late_duplicate_store : World :=
  mkWorld (example_row "a" 42 3 ["batman"] 10
           :: example_row "b" 42 1 ["dark knight"] 30
           :: filler_rows 1 98
           ++ [example_row "z" 1001 1 ["y"] 7])
          1000 [].

(* ----------------------------------------------------------------- *)
(** ** The notions of the specification, in its own words *)

(** The term set of a record: its [searchTerms], "a legacy single
    searchTerm field counting as a one-element set", and no term when
    it has neither. *)
Definition term_set (d : Document) : list string :=
  match searchTerms d, searchTerm d with
  | Some terms, _ => terms
  | None, Some (String c s) => [String c s]
  | None, _ => []
  end.

(** A list of terms without its repetitions, each term at the place
    where it came first ("in insertion order"). *)
Fixpoint first_places (terms : list string) : list string :=
  match terms with
  | [] => []
  | x :: rest =>
      x :: filter (fun y => negb (String.eqb y x)) (first_places rest)
  end.

(** "The duplicate-free union of all members' term sets". *)
Definition union_of (members : list Document) : list string :=
  first_places (List.concat (map term_set members)).

(** "The latest update timestamp, falling back to creation
    timestamp": the time a record was last written. *)
Definition stamp (d : Document) : Z :=
  match dollar_updatedAt d with
  | Some updated => updated
  | None => dollar_createdAt d
  end.

(* ----------------------------------------------------------------- *)
(** ** What recording a search does to the collection *)


(** The movie of the example rows, as the catalog gives it. *)
Definition batman_movie : Movie.t :=
  Movie.mk 42 "Batman" (Some "/batman.jpg") (Some "1989-06-23") (Some 7%Z).

(** The strings of a list are pairwise different. *)
Fixpoint distinct (l : list string) : bool :=
  match l with
  | [] => true
  | x :: rest => negb (existsb (String.eqb x) rest) && distinct rest
  end.

(** The remote side of [batman_rows] when the fourth remote call of a
    run fails: the listing, the update and the first deletion go
    through, the second deletion does not. *)
Definition batman_rows_failing : World :=
  set_faults [false; false; false; true] batman_rows.

(** The remote side of [batman_rows] when the next three remote calls
    fail. *)
Definition batman_rows_unreachable : World :=
  set_faults [true; true; true] batman_rows.

(* ----------------------------------------------------------------- *)
(** ** Traces of the fetch controller *)

(** An event that is neither [reset()] nor the unmount of the screen. *)
Definition plain {T} (ev : Event T) : bool :=
  match ev with
  | CallReset | Unmount => false
  | _ => true
  end.

(** An event that issues no new call. *)
Definition issues_nothing {T} (ev : Event T) : bool :=
  match ev with
  | CallFetchData => false
  | _ => true
  end.

(** How the fetch of call [i] first settles in a trace. *)
Fixpoint first_settlement {T} (i : nat) (events : list (Event T))
  : option (T + Thrown) :=
  match events with
  | [] => None
  | FetchResolves j v :: rest =>
      if j =? i then Some (inl v) else first_settlement i rest
  | FetchRejects j err :: rest =>
      if j =? i then Some (inr err) else first_settlement i rest
  | _ :: rest => first_settlement i rest
  end.

(** On a mounted hook without retries the calls are numbered in the
    order they were issued: call [i] waits with request id [i + 1], and
    the counter is the number of calls. *)
Definition well_numbered {T} (c : Config T) : Prop :=
  isMountedRef (hook c) = true /\
  requestIdRef (hook c) = List.length (calls c) /\
  forall i call,
    nth_error (calls c) i = Some call ->
    match call with
    | AwaitingFetch requestId _ => requestId = S i
    | AwaitingDelay _ => False
    | _ => True
    end.

(** Call [n] is the one issued last and its fetch is under way. *)
Definition last_pending {T} (n : nat) (c : Config T) : Prop :=
  well_numbered c /\
  List.length (calls c) = S n /\
  (exists retryCount,
      nth_error (calls c) n = Some (AwaitingFetch (S n) retryCount)) /\
  loading (state (hook c)) = true /\
  error (state (hook c)) = None.

(** Call [n] is the one issued last and it has ended. *)
Definition last_done {T} (n : nat) (c : Config T) : Prop :=
  well_numbered c /\
  List.length (calls c) = S n /\
  exists call, nth_error (calls c) n = Some call /\ settled call = true.

(** The part of the state that callers of the hook observe. *)
Definition observable {T} (c : Config T)
  : option T * option JsError * bool :=
  (data (state (hook c)), error (state (hook c)), loading (state (hook c))).

(* ----------------------------------------------------------------- *)
(** ** What the hook returns besides its state *)

(** [hasData: state.data !== null], [hasError: state.error !== null] *)
Definition hasData {T} (s : UseFetchState T) : bool :=
  match data s with Some _ => true | None => false end.

Definition hasError {T} (s : UseFetchState T) : bool :=
  match error s with Some _ => true | None => false end.

(** [isEmpty: !state.loading && !state.error && state.data === null] *)
Definition isEmpty {T} (s : UseFetchState T) : bool :=
  negb (loading s) && negb (hasError s) && negb (hasData s).

(** [isSuccess: !state.loading && !state.error && state.data !== null] *)
Definition isSuccess {T} (s : UseFetchState T) : bool :=
  negb (loading s) && negb (hasError s) && hasData s.

(** [isError: !state.loading && state.error !== null] *)
Definition isError {T} (s : UseFetchState T) : bool :=
  negb (loading s) && hasError s.

(** [isIdle: !state.loading && !state.error && state.data === null] *)
Definition isIdle {T} (s : UseFetchState T) : bool :=
  negb (loading s) && negb (hasError s) && negb (hasData s).

(** The retry count of a call stays within [options.retries]. *)
Definition within_retries {T} (retries : nat) (call : Call T) : Prop :=
  match call with
  | AwaitingFetch _ retryCount => retryCount <= retries
  | AwaitingDelay retryCount => retryCount < retries
  | _ => True
  end.

(** Call [i] is at [await fetchFunction()] in [after] and was not
    there, with this request, in [before]: the step between the two
    made it run [fetchFunction]. *)
Definition starts_fetch {T} (before after : Config T) (i : nat) : bool :=
  match nth_error (calls after) i with
  | Some (AwaitingFetch requestId retryCount) =>
      match nth_error (calls before) i with
      | Some (AwaitingFetch requestId' retryCount') =>
          negb ((requestId =? requestId') && (retryCount =? retryCount'))
      | _ => true
      end
  | _ => false
  end.

(** How many times call [i] runs [fetchFunction] while the hook goes
    through [events] from [c]. *)
Fixpoint fetch_runs {T} (retries : nat) (events : list (Event T))
         (c : Config T) (i : nat) : nat :=
  match events with
  | [] => 0
  | ev :: rest =>
      let c' := step retries c ev in
      (if starts_fetch c c' i then 1 else 0) + fetch_runs retries rest c' i
  end.

(** The runs of [fetchFunction] call [i] has left in [c]. *)
Definition runs_left {T} (retries : nat) (c : Config T) (i : nat) : nat :=
  match nth_error (calls c) i with
  | None => retries + 1
  | Some (AwaitingFetch _ retryCount) => retries - retryCount
  | Some (AwaitingDelay retryCount) => retries - retryCount
  | Some _ => 0
  end.

(** An event that settles a promise some call is waiting for. *)
Definition settles {T} (ev : Event T) : bool :=
  match ev with
  | FetchResolves _ _ | FetchRejects _ _ | DelayElapses _ => true
  | _ => false
  end.

(* ----------------------------------------------------------------- *)
(** ** The time a call of [retryWithBackoff] spends waiting *)

(** The state is paired with the milliseconds waited so far, which
    each wait adds to and the operation leaves alone. *)
Section Waiting.
Variables St T : Type.
Variable sleep : Z -> St -> St.

Definition waited (operation : Async St T) : Async (St * Z) T :=
  fun sz =>
    let (r, s') := operation (fst sz) in (r, (s', snd sz)).

Definition waited_sleep (ms : Z) (sz : St * Z) : St * Z :=
  (sleep ms (fst sz), (snd sz + ms)%Z).

Definition retry_wait (operation : Async St T) (retries : nat)
           (operationName : string) (s : St) : Z :=
  snd (snd (retryWithBackoff waited_sleep (waited operation)
              retries operationName (s, 0%Z))).
End Waiting.

(** The rows of a list are in the order of their counts, highest first. *)
Fixpoint ranked (rows : list Document) : Prop :=
  match rows with
  | [] => True
  | d :: rest => (forall x, In x rest -> (count x <= count d)%Z) /\ ranked rest
  end.

(** The groups a pass goes through come from the collection: no
    identifier occurs twice, and every group holds documents of the
    collection that are of the movie of its key. *)
Record groups_of_store (entries : MovieGroups) (store : list Document)
  : Prop := {
  store_ids : NoDup (map dollar_id store);
  groups_ids : NoDup (entry_ids entries);
  groups_members :
    forall k ds d, In (k, ds) entries -> In d ds ->
                   In d store /\ movie_id d = k
}.

(** The documents of the collection outside a group. *)
Definition outside (docs store : list Document) : list Document :=
  filter (fun d => negb (id_in docs d)) store.

(** Every document of [after] comes from a document of [before] with
    the same identifier and the same movie, [after] is no longer than
    [before], and its identifiers are distinct when those of [before]
    are. *)
Definition shrinks (after before : list Document) : Prop :=
  (forall d, In d after ->
     exists d0, In d0 before /\ dollar_id d0 = dollar_id d /\
                movie_id d0 = movie_id d) /\
  List.length after <= List.length before /\
  (NoDup (map dollar_id before) -> NoDup (map dollar_id after)).

(* ----------------------------------------------------------------- *)
(** ** The movie catalog: [fetchMovies] *)

(** What [response.json()] gives: [null] or [undefined], on which
    reading a property throws, or a value whose [results] is an array
    of movies or is missing. *)
Inductive Json : Type :=
| JsonNullish
| JsonObject (results : option (list Movie.t)).

Module Response.
Record t : Type := mk {
  status : nat;
  statusText : string;
  text : Settled string;
  json : Settled Json
}.

(** [response.ok]: the status is in the range 200-299. *)
Definition ok (response : t) : bool :=
  (200 <=? status response) && (status response <=? 299).
End Response.

(** The side of the catalog: the API key of the environment, how the
    coming calls of [fetch] settle, the endpoints fetched so far and
    the time spent waiting between attempts. *)
Record Network : Type := mkNetwork {
  api_key : option string;
  responses : list (Settled Response.t);
  requests : list string;
  waited_ms : Z
}.

(** [fetch(endpoint, ...)]: the request goes out and settles as the
    network says; with nothing more to say the network is down.  The
    abort after 15 s is a rejection named [AbortError]. *)
Definition fetch (endpoint : string) : Async Network Response.t :=
  fun n =>
    let sent rest :=
      {| api_key := api_key n; responses := rest;
         requests := requests n ++ [endpoint]; waited_ms := waited_ms n |} in
    match responses n with
    | [] => (Rejected network_failure, sent [])
    | r :: rest => (r, sent rest)
    end.

Definition sleep_network (ms : Z) (n : Network) : Network :=
  {| api_key := api_key n; responses := responses n;
     requests := requests n; waited_ms := (waited_ms n + ms)%Z |}.

(** [await p] for a promise [p] that settles on its own. *)
Definition await {St A} (p : Settled A) : Async St A := fun s => (p, s).

(** [error.name === 'AbortError'] *)
Definition is_AbortError (error : Thrown) : bool :=
  match error with
  | ThrownError (mkError name _ _) => String.eqb name "AbortError"
  | ThrownValue _ => false
  end.

Definition BASE_URL : string := "https://api.themoviedb.org/3".

(** The error thrown for a response that is not [ok]. *)
Definition status_error (response : Response.t) : JsError :=
  if Response.status response =? 401 then
    new_Error "Invalid TMDB Bearer token. Please check your Read Access Token."
  else if Response.status response =? 404 then
    new_Error "TMDB API endpoint not found. Check the URL."
  else if 500 <=? Response.status response then
    new_Error "TMDB server error. Please try again later."
  else
    new_Error ("TMDB API Error: " ++ nat_to_string (Response.status response)
               ++ " " ++ Response.statusText response)%string.

Definition missing_key_error : Thrown :=
  ThrownError (new_Error "TMDB API key is missing from environment variables").

Definition timeout_error : Thrown :=
  ThrownError
    (new_Error "Request timeout - please check your network connection").

Section Catalog.
(** The library function [encodeURIComponent]. *)
Variable encodeURIComponent : string -> string.

Definition endpoint_of (query : string) : string :=
  match query with
  | EmptyString => (BASE_URL ++ "/discover/movie?sort_by=popularity.desc")%string
  | _ => (BASE_URL ++ "/search/movie?query=" ++ encodeURIComponent query)%string
  end.

(** The operation handed to [retryWithBackoff]. *)
Definition fetchMovies_operation (query : string)
  : Async Network (list Movie.t) :=
  (response <- fetch (endpoint_of query) ;;
   if negb (Response.ok response) then
     (errorText <- await (Response.text response) ;;
      throw (ThrownError (status_error response)))
   else
     (data <- await (Response.json response) ;;
      match data with
      | JsonNullish =>
          throw (ThrownError (mkError "TypeError"
                   "Cannot read property 'total_results' of null" None))
      | JsonObject (Some results) => ret results
      | JsonObject None => ret []
      end))%async.

Definition fetchMovies (query : string) : Async Network (list Movie.t) :=
  try_catch
    (fun n =>
       match truthy_string (api_key n) with
       | None => throw missing_key_error n
       | Some _ =>
           retryWithBackoff sleep_network (fetchMovies_operation query)
                            3 "FetchMovies" n
       end)
    (fun error =>
       if is_AbortError error then throw timeout_error else throw error).
End Catalog.

(** How an attempt of [fetchMovies] ends when its [fetch] settles as
    [r]. *)
Definition attempt_outcome (r : Settled Response.t) : Settled (list Movie.t) :=
  fst (fetchMovies_operation (fun q => q) "" (mkNetwork None [r] [] 0)).


(** Example responses of the catalog. *)
Definition unauthorized : Response.t :=
  Response.mk 401 "Unauthorized" (Fulfilled "{}") (Fulfilled JsonNullish).

Definition empty_page : Response.t :=
  Response.mk 200 "OK" (Fulfilled "{}") (Fulfilled (JsonObject None)).



(* ----------------------------------------------------------------- *)
(** ** The connectivity tests *)

(** [testTMDBConnection] *)
Definition testTMDBConnection : Async Network bool :=
  try_catch
    (response <- fetch (BASE_URL ++ "/configuration")%string ;;
     let success := Response.ok response in
     if negb success then
       (errorText <- await (Response.text response) ;; ret success)
     else ret success)%async
    (fun _ => ret false).

(** [testAppwriteConnection] *)
Definition testAppwriteConnection : Async World bool :=
  try_catch
    (result <- listDocuments [Query_limit 1] ;; ret true)%async
    (fun _ => ret false).

(* ----------------------------------------------------------------- *)
(** ** The home screen: [runCleanup] and [runInitialSetup] *)

(** What the home screen acts on: the two services, the alerts shown
    so far (title and message) and its two state flags.  The buttons of
    an alert are left out. *)
Record App : Type := mkApp {
  network : Network;
  world : World;
  alerts : list (string * string);
  connectivityTested : bool;
  cleanupCompleted : bool
}.

Definition on_network {A} (m : Async Network A) : Async App A :=
  fun app =>
    let (r, n) := m (network app) in
    (r, {| network := n; world := world app; alerts := alerts app;
           connectivityTested := connectivityTested app;
           cleanupCompleted := cleanupCompleted app |}).

Definition on_world {A} (m : Async World A) : Async App A :=
  fun app =>
    let (r, w) := m (world app) in
    (r, {| network := network app; world := w; alerts := alerts app;
           connectivityTested := connectivityTested app;
           cleanupCompleted := cleanupCompleted app |}).

(** [Alert.alert(title, message, buttons)] *)
Definition Alert_alert (title message : string) : Async App unit :=
  fun app =>
    (Fulfilled tt,
     {| network := network app; world := world app;
        alerts := alerts app ++ [(title, message)];
        connectivityTested := connectivityTested app;
        cleanupCompleted := cleanupCompleted app |}).

Definition setConnectivityTested (value : bool) : Async App unit :=
  fun app =>
    (Fulfilled tt,
     {| network := network app; world := world app; alerts := alerts app;
        connectivityTested := value;
        cleanupCompleted := cleanupCompleted app |}).

Definition setCleanupCompleted (value : bool) : Async App unit :=
  fun app =>
    (Fulfilled tt,
     {| network := network app; world := world app; alerts := alerts app;
        connectivityTested := connectivityTested app;
        cleanupCompleted := value |}).

(** [testConnectivity]: the two tests run under [Promise.all]; they act
    on different services, so the order in which they take their turns
    makes no difference. *)
Definition testConnectivity : Async App (bool * bool) :=
  (tmdbResult <- on_network testTMDBConnection ;;
   appwriteResult <- on_world testAppwriteConnection ;;
   ret (tmdbResult, appwriteResult))%async.

Definition runCleanup : Async App unit :=
  try_catch
    (result <- on_world cleanupDuplicateMovies ;;
     (if 0 <? result_duplicatesFound result then
        Alert_alert "Cleanup Completed!"
          ("Removed " ++ nat_to_string (result_duplicatesRemoved result)
           ++ " duplicate entries from "
           ++ nat_to_string (result_duplicatesFound result) ++ " movies.")%string
      else ret tt) ;;;
     setCleanupCompleted true)%async
    (fun _ =>
       Alert_alert "Cleanup Error"
         "Failed to clean up duplicate movies. Please try again.").

Definition runInitialSetup : Async App unit :=
  try_catch
    (results <- testConnectivity ;;
     setConnectivityTested true ;;;
     if negb (fst results) && negb (snd results) then
       Alert_alert "Connection Error"
         "Both TMDB and Appwrite services are unreachable. Please check your internet connection."
     else if negb (fst results) then
       Alert_alert "TMDB Service Error"
         "Cannot connect to movie database. Some features may not work."
     else if negb (snd results) then
       Alert_alert "Trending Data Unavailable"
         "Cannot connect to trending movies service."
     else runCleanup)%async
    (fun _ => setConnectivityTested true).

(** The catalog answers the next request with a response that is [ok]. *)
Definition tmdb_reachable (n : Network) : bool :=
  match responses n with
  | Fulfilled response :: _ => Response.ok response
  | _ => false
  end.

(** The next call to the store goes through. *)
Definition appwrite_reachable (w : World) : bool :=
  match faults w with
  | true :: _ => false
  | _ => true
  end.

(** The title of the alert of a failed connectivity test. *)
Definition connectivity_alert (tmdb appwrite : bool) : string :=
  if negb tmdb && negb appwrite then "Connection Error"
  else if negb tmdb then "TMDB Service Error"
  else "Trending Data Unavailable".

(* ----------------------------------------------------------------- *)
(** ** The search screen: [trackSearch] *)

Section SearchScreen.
(** The library function [String.prototype.trim]. *)
Variable trim : string -> string.

(** The effect that records a search, with the values of
    [debouncedQuery], [movies] and [loading] it runs on. *)
Definition trackSearch (debouncedQuery : string)
           (movies : option (list Movie.t)) (loading : bool)
  : Async World unit :=
  match trim debouncedQuery, movies, loading with
  | String _ _, Some (first :: _), false =>
      try_catch (updateSearchCount debouncedQuery first) (fun _ => ret tt)
  | _, _, _ => ret tt
  end.
End SearchScreen.

(** An app whose two services answer, over the example rows. *)
Definition example_app : App :=
  mkApp (mkNetwork (Some "eyJ") [Fulfilled empty_page] [] 0)
        batman_rows [] false false.

(* ================================================================= *)
(** * Part II: properties *)
(* ================================================================= *)

(* ----------------------------------------------------------------- *)
(** ** The backoff executor *)

Section BackoffFacts.
Variables St T : Type.
Variable sleep : Z -> St -> St.
Variable operation : Async St T.
Variable retries : nat.
Variable operationName : string.

Let loop := for_loop sleep operation retries operationName.
Let cloop := for_loop (counted_sleep sleep) (counted operation) retries operationName.
Let before := state_before sleep operation.

(** One turn of the counted loop, in terms of the operation itself. *)
Lemma counted_loop_step (fuel i : nat) (s : St) (n : nat) :
  i < retries ->
  cloop (S fuel) i (s, n) =
    match operation s with
    | (Fulfilled v, s') => (Fulfilled v, (s', S n))
    | (Rejected e, s') =>
        if i =? retries - 1 then (Rejected e, (s', S n))
        else cloop fuel (S i) (sleep (1000 * 2 ^ Z.of_nat i)%Z s', S n)
    end.
Proof.
  intros Hi. subst cloop. cbn [for_loop].
  apply Nat.ltb_lt in Hi. rewrite Hi.
  unfold counted, counted_sleep. cbn [fst snd].
  destruct (operation s) as [[v|e] s']; reflexivity.
Qed.

(** The first fulfilled run ends the loop: it is run number [k + 1]. *)
Lemma loop_first_success (fuel : nat) :
  forall i s n k v,
    i + fuel = retries ->
    k < fuel ->
    (forall j, j < k -> exists e, fst (operation (before i j s)) = Rejected e) ->
    fst (operation (before i k s)) = Fulfilled v ->
    cloop fuel i (s, n) =
      (Fulfilled v, (snd (operation (before i k s)), n + k + 1)).
Proof.
  induction fuel as [|fuel IH]; intros i s n k v Hi Hk Hfail Hok; [lia|].
  rewrite counted_loop_step by lia.
  destruct k as [|k].
  - subst before. cbn [state_before] in *.
    destruct (operation s) as [[v'|e] s']; cbn [fst snd] in *.
    + inversion Hok; subst. do 2 f_equal; lia.
    + discriminate.
  - destruct (Hfail 0 ltac:(lia)) as [e He].
    subst before. cbn [state_before] in *.
    destruct (operation s) as [[v'|e'] s'] eqn:Hop; cbn [fst snd] in *; [discriminate|].
    assert (Hne : (i =? retries - 1) = false) by (apply Nat.eqb_neq; lia).
    rewrite Hne.
    rewrite (IH (S i) _ (S n) k v); try lia.
    + do 2 f_equal; lia.
    + intros j Hj. destruct (Hfail (S j) ltac:(lia)) as [e2 He2].
      cbn [state_before] in He2. rewrite Hop in He2. eauto.
    + exact Hok.
Qed.

(** When every run is rejected the loop gives up after the run with
    index [retries - 1] and rethrows what that run threw. *)
Lemma loop_all_rejected (fuel : nat) :
  forall i s n e,
    i + S fuel = retries ->
    (forall j, j < fuel -> exists e', fst (operation (before i j s)) = Rejected e') ->
    fst (operation (before i fuel s)) = Rejected e ->
    cloop (S fuel) i (s, n) =
      (Rejected e, (snd (operation (before i fuel s)), n + S fuel)).
Proof.
  induction fuel as [|fuel IH]; intros i s n e Hi Hfail Hlast.
  - rewrite counted_loop_step by lia.
    subst before. cbn [state_before] in *.
    destruct (operation s) as [[v'|e'] s']; cbn [fst snd] in *; [discriminate|].
    inversion Hlast; subst.
    assert (Hl : (i =? i + 1 - 1) = true) by (apply Nat.eqb_eq; lia).
    rewrite Hl. do 2 f_equal; lia.
  - destruct (Hfail 0 ltac:(lia)) as [e0 He0].
    rewrite counted_loop_step by lia.
    subst before. cbn [state_before] in *.
    destruct (operation s) as [[v'|e'] s'] eqn:Hop; cbn [fst snd] in *; [discriminate|].
    assert (Hne : (i =? retries - 1) = false) by (apply Nat.eqb_neq; lia).
    rewrite Hne.
    rewrite (IH (S i) _ (S n) e); try lia.
    + do 2 f_equal; lia.
    + intros j Hj. destruct (Hfail (S j) ltac:(lia)) as [e2 He2].
      cbn [state_before] in He2. rewrite Hop in He2. eauto.
    + exact Hlast.
Qed.

(** The counter does not influence the run. *)
Lemma counted_loop_erases (fuel : nat) :
  forall i s n,
    fst (cloop fuel i (s, n)) = fst (loop fuel i s) /\
    fst (snd (cloop fuel i (s, n))) = snd (loop fuel i s).
Proof.
  subst loop cloop.
  induction fuel as [|fuel IH]; intros i s n; cbn [for_loop].
  - destruct (i <? retries); cbn; auto.
  - destruct (i <? retries); [|cbn; auto].
    unfold counted, counted_sleep. cbn [fst snd].
    destruct (operation s) as [[v|e] s']; cbn [fst snd]; auto.
    destruct (i =? retries - 1); cbn [fst snd]; [auto|].
    apply (IH (S i) _ (S n)).
Qed.
End BackoffFacts.

Section BackoffProperties.
Variables St T : Type.
Variable sleep : Z -> St -> St.
Variable operation : Async St T.
Variable retries : nat.
Variable operationName : string.

Lemma retry_outcome_counted (s : St) :
  retry_outcome sleep operation retries operationName s =
  fst (retryWithBackoff (counted_sleep sleep) (counted operation)
         retries operationName (s, 0)).
Proof.
  unfold retry_outcome, retryWithBackoff.
  symmetry. apply counted_loop_erases.
Qed.

(** C2, as the code has it: [retries] is the number of attempts.
    When every attempt is rejected the operation runs exactly
    [retries] times and then the call is rejected; when the first
    fulfilled attempt is attempt number [k], with [k <= retries], the
    operation runs exactly [k] times and the call is fulfilled with
    that result. *)
Theorem retryWithBackoff_attempts (s : St) :
  ((forall j, j < retries -> attempt_rejected sleep operation s j) ->
   retry_attempts sleep operation retries operationName s = retries /\
   exists e, retry_outcome sleep operation retries operationName s = Rejected e)
  /\
  (forall k v,
     1 <= k <= retries ->
     (forall j, j < k - 1 -> attempt_rejected sleep operation s j) ->
     fst (operation (state_before sleep operation 0 (k - 1) s)) = Fulfilled v ->
     retry_attempts sleep operation retries operationName s = k /\
     retry_outcome sleep operation retries operationName s = Fulfilled v).
Proof.
  split.
  - intros Hall. rewrite retry_outcome_counted.
    unfold retry_attempts, retryWithBackoff.
    assert (Hcase : retries = 0 \/ exists fuel, retries = S fuel)
      by (destruct retries; eauto).
    destruct Hcase as [Hr | [fuel Hr]].
    + rewrite Hr. cbn. split; [reflexivity | eauto].
    + destruct (Hall fuel ltac:(lia)) as [e He].
      pose proof (@loop_all_rejected St T sleep operation retries
                    operationName fuel 0 s 0 e) as L.
      rewrite <- Hr in L. rewrite L.
      * cbn [fst snd]. split; [lia | eauto].
      * reflexivity.
      * intros j Hj. apply Hall. lia.
      * exact He.
  - intros k v Hk Hrej Hok. rewrite retry_outcome_counted.
    unfold retry_attempts, retryWithBackoff.
    rewrite (@loop_first_success St T sleep operation retries operationName
               retries 0 s 0 (k - 1) v); try lia.
    + cbn [fst snd]. split; [lia | reflexivity].
    + exact Hrej.
    + exact Hok.
Qed.

(** C8, as the code has it: when every attempt is rejected, the call
    is rejected with the very value the last attempt threw, and that
    value is no wrapper around itself. *)
Theorem retryWithBackoff_rethrows_last_error (s : St) (e : Thrown) :
  0 < retries ->
  (forall j, j < retries -> attempt_rejected sleep operation s j) ->
  fst (operation (state_before sleep operation 0 (retries - 1) s)) = Rejected e ->
  retry_outcome sleep operation retries operationName s = Rejected e /\
  ~ wraps e e.
Proof.
  intros Hpos Hall Hlast. split.
  - rewrite retry_outcome_counted. unfold retryWithBackoff.
    assert (Hr : exists fuel, retries = S fuel)
      by (destruct retries; [lia | eauto]).
    destruct Hr as [fuel Hr].
    replace (retries - 1) with fuel in Hlast by lia.
    pose proof (@loop_all_rejected St T sleep operation retries
                  operationName fuel 0 s 0 e) as L.
    rewrite <- Hr in L. rewrite L.
    + reflexivity.
    + reflexivity.
    + intros j Hj. apply Hall. lia.
    + exact Hlast.
  - intros (n & m & c & Houter & Hinner).
    rewrite Hinner in Houter. inversion Houter as [Hc].
    apply (f_equal cause_depth) in Hc. cbn in Hc. lia.
Qed.
End BackoffProperties.

Lemma always_rejected_state (i j : nat) :
  state_before no_sleep always_rejected i j [] = [].
Proof.
  revert i. induction j as [|j IH]; intros i; cbn; [reflexivity | apply IH].
Qed.

Lemma always_rejected_attempt (j : nat) :
  attempt_rejected no_sleep always_rejected [] j.
Proof.
  exists network_failure. rewrite always_rejected_state. reflexivity.
Defined.

(** C2 as stated does not hold: called with [retries = 3], an operation
    that is rejected every time is run 3 times, not 3 + 1 times. *)
Lemma retryWithBackoff_three_attempts_not_four :
  (forall j, attempt_rejected no_sleep always_rejected [] j) /\
  retry_attempts no_sleep always_rejected 3 "Operation" [] = 3 /\
  retry_attempts no_sleep always_rejected 3 "Operation" [] <> 3 + 1.
Proof.
  split; [exact always_rejected_attempt|].
  split; [reflexivity | cbn; lia].
Qed.

Lemma retryWithBackoff_attempts_witness :
  (retry_attempts no_sleep always_rejected 3 "Operation" [] = 3 /\
   exists e, retry_outcome no_sleep always_rejected 3 "Operation" [] = Rejected e) /\
  (retry_attempts no_sleep (scripted network_failure) 3 "Operation"
     second_time_lucky = 2 /\
   retry_outcome no_sleep (scripted network_failure) 3 "Operation"
     second_time_lucky = Fulfilled 7).
Proof.
  split.
  - apply (proj1 (retryWithBackoff_attempts no_sleep always_rejected 3
                    "Operation" [])).
    intros j _. apply always_rejected_attempt.
  - apply (proj2 (retryWithBackoff_attempts no_sleep (scripted network_failure) 3
                    "Operation" second_time_lucky) 2 7).
    + lia.
    + intros j Hj. assert (j = 0) by lia. subst j.
      exists network_failure. reflexivity.
    + reflexivity.
Defined.

(** C8 as stated does not hold: after three rejected attempts the
    caller receives the raw error of the last attempt; it is neither a
    [RetryExhausted] error nor any other wrapper around that error. *)
Lemma retryWithBackoff_no_RetryExhausted :
  retry_outcome no_sleep always_rejected 3 "Operation" [] =
    Rejected network_failure /\
  retry_outcome no_sleep always_rejected 3 "Operation" [] <>
    Rejected (ThrownError (RetryExhausted (new_Error "Network request failed"))) /\
  forall t, retry_outcome no_sleep always_rejected 3 "Operation" [] = Rejected t ->
            ~ wraps t network_failure.
Proof.
  split; [reflexivity|]. split; [discriminate|].
  intros t Ht. cbv in Ht. inversion Ht; subst t.
  intros (n & m & c & Houter & _). discriminate Houter.
Qed.

Lemma retryWithBackoff_rethrows_last_error_witness :
  retry_outcome no_sleep always_rejected 3 "Operation" [] =
    Rejected network_failure /\
  ~ wraps network_failure network_failure.
Proof.
  apply (@retryWithBackoff_rethrows_last_error _ _ no_sleep always_rejected 3
           "Operation" [] network_failure).
  - lia.
  - intros j _. apply always_rejected_attempt.
  - reflexivity.
Defined.

(* ----------------------------------------------------------------- *)
(** ** The fetch controller *)

Section UseFetchFacts.
Variable T : Type.
Variable retries : nat.

Lemma resume_hook (i : nat) (r : Hook T * Call T) (c : Config T) :
  hook (resume i r c) = fst r.
Proof. reflexivity. Qed.

(** C7: a rejected fetch that has no retry left, on a mounted hook
    whose latest request it still is, commits the error: [error] is
    the [Error] object the fetch was rejected with, or a new [Error]
    with the message 'An unknown error occurred' when what was thrown
    is not one.  It clears [loading], makes [isStale] true exactly
    when [data] holds a result, and leaves [data] as it was. *)
Theorem terminal_failure_commit
        (c : Config T) (i requestId retryCount : nat) (err : Thrown) :
  nth_error (calls c) i = Some (AwaitingFetch requestId retryCount) ->
  ~ retryCount < retries ->
  requestId = requestIdRef (hook c) ->
  isMountedRef (hook c) = true ->
  let before := state (hook c) in
  let after := state (hook (step retries c (FetchRejects i err))) in
  (forall e, err = ThrownError e -> error after = Some e) /\
  (forall v, err = ThrownValue v ->
             error after = Some (mkError "Error" "An unknown error occurred" None)) /\
  loading after = false /\
  (isStale after = true <-> data before <> None) /\
  data after = data before.
Proof.
  intros Hcall Hlast Hid Hmounted. cbn zeta.
  unfold step. rewrite Hcall. rewrite resume_hook.
  unfold on_error.
  assert (Hlt : (retryCount <? retries) = false) by (apply Nat.ltb_ge; lia).
  rewrite Hlt. unfold still_latest.
  rewrite Hid, Nat.eqb_refl, Hmounted. cbn.
  split; [intros e He; now rewrite He|].
  split; [intros v Hv; now rewrite Hv|].
  repeat split; try reflexivity.
  - destruct (data (state (hook c))); [discriminate | intros; discriminate].
  - destruct (data (state (hook c))); [reflexivity | intros H; contradiction].
Qed.
End UseFetchFacts.

Lemma terminal_failure_commit_witness :
  let c := run 0 [CallFetchData; FetchResolves 0 "A"; CallFetchData] initial in
  let before := state (hook c) in
  let after := state (hook (step 0 c (FetchRejects 1 network_failure))) in
  (forall e, network_failure = ThrownError e -> error after = Some e) /\
  (forall v, network_failure = ThrownValue v ->
             error after = Some (mkError "Error" "An unknown error occurred" None)) /\
  loading after = false /\
  (isStale after = true <-> data before <> None) /\
  data after = data before.
Proof.
  apply (@terminal_failure_commit string 0 _ 1 2 0 network_failure).
  - reflexivity.
  - lia.
  - reflexivity.
  - reflexivity.
Defined.

(** C1 at an input where the code departs from it.  With
    [retries = 1], call 0 is issued, then call 1; the fetch of call 0
    is rejected and, after the delay, retried: the retry re-enters
    [fetchData] and takes request id 3.  The result [b] of call 1, the
    call issued last, then arrives for request id 2 and is dropped, and
    the retry of call 0 commits its result [a]. *)
Theorem useFetch_retry_overrides_last_call (T : Type) (a b : T) (err : Thrown) :
  let c := run 1 [CallFetchData; CallFetchData;
                  FetchRejects 0 err; DelayElapses 0;
                  FetchResolves 1 b; FetchResolves 0 a] initial in
  all_settled c = true /\
  calls c = [Returned (Some a); Returned None] /\
  requestIdRef (hook c) = 3 /\
  data (state (hook c)) = Some a /\
  error (state (hook c)) = None /\
  loading (state (hook c)) = false.
Proof.
  cbv. repeat split; reflexivity.
Qed.

(* ----------------------------------------------------------------- *)
(** ** The trend reader *)

Section TrendReaderFacts.

Lemma find_same_movie (d : Document) (l : list Document) :
  (exists x, find (fun m => (movie_id m =? movie_id d)%Z) l = Some x) <->
  existsb (same_movie d) l = true.
Proof.
  induction l as [|a l IH]; cbn.
  - split; [intros [x Hx]; discriminate | discriminate].
  - unfold same_movie at 1. destruct (movie_id a =? movie_id d)%Z; cbn.
    + split; eauto.
    + exact IH.
Qed.

Lemma filter_filter_and {A} (p q : A -> bool) (l : list A) :
  filter p (filter q l) = filter (fun x => q x && p x) l.
Proof.
  induction l as [|a l IH]; cbn; [reflexivity|].
  destruct (q a); cbn; [destruct (p a)|]; rewrite IH; reflexivity.
Qed.

(** The accumulator of the [reduce], in terms of the specification's
    pass over the rows still to come. *)
Lemma uniqueMovies_fold (docs acc : list Document) :
  fold_left
    (fun unique movie =>
       match find (fun m => (movie_id m =? movie_id movie)%Z) unique with
       | Some _ => unique
       | None => unique ++ [movie]
       end) docs acc =
  acc ++ filter (fun x => negb (existsb (same_movie x) acc))
                (first_occurrences docs).
Proof.
  revert acc. induction docs as [|d docs IH]; intros acc; cbn [fold_left].
  - cbn. now rewrite app_nil_r.
  - cbn [first_occurrences filter].
    destruct (find (fun m => (movie_id m =? movie_id d)%Z) acc) as [x|] eqn:Hfind.
    + assert (Hex : existsb (same_movie d) acc = true)
        by (apply find_same_movie; eauto).
      rewrite Hex. cbn [negb]. rewrite IH. f_equal.
      rewrite filter_filter_and. apply filter_ext_in. intros x' _.
      destruct (existsb (same_movie x') acc) eqn:Hx'; cbn.
      * now rewrite andb_false_r.
      * rewrite andb_true_r.
        destruct (movie_id x' =? movie_id d)%Z eqn:Heq; [|reflexivity].
        apply Z.eqb_eq in Heq. exfalso.
        apply existsb_exists in Hex. destruct Hex as (y & Hy & Hyd).
        assert (existsb (same_movie x') acc = true) as Habs.
        { apply existsb_exists. exists y. split; [exact Hy|].
          unfold same_movie in *. apply Z.eqb_eq in Hyd. apply Z.eqb_eq. lia. }
        congruence.
    + assert (Hex : existsb (same_movie d) acc = false).
      { destruct (existsb (same_movie d) acc) eqn:E; [|reflexivity].
        apply find_same_movie in E. destruct E as [x Hx]. congruence. }
      rewrite Hex. cbn [negb]. rewrite IH, <- app_assoc. cbn [app]. do 2 f_equal.
      rewrite filter_filter_and. apply filter_ext_in. intros x' _.
      rewrite existsb_app. cbn [existsb]. rewrite orb_false_r.
      unfold same_movie at 2.
      rewrite (Z.eqb_sym (movie_id d) (movie_id x')).
      destruct (existsb (same_movie x') acc), (movie_id x' =? movie_id d)%Z;
        reflexivity.
Qed.

(** The [reduce] of the code is the dedup pass of the specification. *)
Lemma uniqueMovies_first_occurrences (docs : list Document) :
  uniqueMovies docs = first_occurrences docs.
Proof.
  unfold uniqueMovies. rewrite uniqueMovies_fold. cbn [app existsb negb].
  induction (first_occurrences docs) as [|a l IH]; cbn; congruence.
Qed.

Lemma In_map_filter {A B} (f : A -> B) (p : A -> bool) (l : list A) (b : B) :
  In b (map f (filter p l)) -> In b (map f l).
Proof.
  intros H. apply in_map_iff in H. destruct H as (x & Hx & Hin).
  apply filter_In in Hin. apply in_map_iff. exists x. tauto.
Qed.

Lemma filter_keys_NoDup {A K} (key : A -> K) (keep : A -> bool) (rows : list A)
      (Hrows : NoDup (map key rows)) :
  NoDup (map key (filter keep rows)).
Proof.
  induction rows as [|r rows IH]; cbn; [constructor|].
  inversion Hrows as [|? ? Hnin Hnd]; subst.
  destruct (keep r); cbn; [constructor|]; auto.
  intros Hin. apply Hnin. eapply In_map_filter; eauto.
Qed.

Lemma first_occurrences_NoDup (docs : list Document) :
  NoDup (map movie_id (first_occurrences docs)).
Proof.
  induction docs as [|d docs IH]; cbn; constructor.
  - intros Hin. apply in_map_iff in Hin. destruct Hin as (x & Hx & Hin).
    apply filter_In in Hin. destruct Hin as [_ Hne].
    apply negb_true_iff, Z.eqb_neq in Hne. congruence.
  - now apply filter_keys_NoDup.
Qed.

(** A row kept by the pass is the first row with its [movie_id]. *)
Lemma first_occurrences_first (docs : list Document) (d : Document) :
  In d (first_occurrences docs) ->
  find (fun x => (movie_id x =? movie_id d)%Z) docs = Some d.
Proof.
  induction docs as [|a docs IH]; cbn; [tauto|].
  intros [Heq | Hin].
  - subst a. now rewrite Z.eqb_refl.
  - apply filter_In in Hin. destruct Hin as [Hin Hne].
    apply negb_true_iff in Hne. rewrite Z.eqb_sym in Hne. rewrite Hne. auto.
Qed.

(** Every [movie_id] among the rows survives the pass. *)
Lemma first_occurrences_complete (docs : list Document) (d : Document) :
  In d docs -> In (movie_id d) (map movie_id (first_occurrences docs)).
Proof.
  induction docs as [|a docs IH]; cbn; [tauto|].
  intros [Heq | Hin]; [left; congruence|].
  destruct (Z.eq_dec (movie_id a) (movie_id d)) as [E|E]; [left; exact E|].
  right. specialize (IH Hin). apply in_map_iff in IH.
  destruct IH as (x & Hx & Hxin). apply in_map_iff. exists x. split; [exact Hx|].
  apply filter_In. split; [exact Hxin|].
  apply negb_true_iff, Z.eqb_neq. congruence.
Qed.

Lemma NoDup_firstn {A} (n : nat) (l : list A) : NoDup l -> NoDup (firstn n l).
Proof.
  intros H. rewrite <- (firstn_skipn n l) in H.
  eapply NoDup_app_remove_r; eauto.
Qed.

Lemma In_firstn {A} (n : nat) (l : list A) (x : A) : In x (firstn n l) -> In x l.
Proof.
  intros H. rewrite <- (firstn_skipn n l). apply in_or_app. now left.
Qed.

(** What one run of the operation does: it leaves the collection
    alone, and when it is fulfilled its value is the first five of
    the deduplicated answer of the store. *)
Lemma getTrendingMovies_operation_spec (w : World) :
  documents (snd (getTrendingMovies_operation w)) = documents w /\
  forall l, fst (getTrendingMovies_operation w) = Fulfilled l ->
            l = firstn 5 (uniqueMovies (trending_rows (documents w))).
Proof.
  unfold getTrendingMovies_operation, bind, listDocuments, remote, ret,
    trending_rows.
  destruct (faults w) as [|[|] rest]; cbn; split; try reflexivity;
    intros l H; try discriminate; now inversion H.
Qed.

Lemma getTrendingMovies_loop_spec (retries : nat) (name : string) (fuel : nat) :
  forall i w l,
    fst (for_loop sleep_world getTrendingMovies_operation retries name fuel i w)
      = Fulfilled l ->
    l = firstn 5 (uniqueMovies (trending_rows (documents w))).
Proof.
  induction fuel as [|fuel IH]; intros i w l; cbn [for_loop].
  - destruct (i <? retries); cbn; discriminate.
  - destruct (i <? retries); [|cbn; discriminate].
    destruct (getTrendingMovies_operation_spec w) as [Hdocs Hval].
    destruct (getTrendingMovies_operation w) as [[v|e] w']; cbn [fst snd] in *.
    + intros H. inversion H; subst. now apply Hval.
    + destruct (i =? retries - 1); cbn [fst]; [discriminate|].
      intros H. apply IH in H. cbn in H. now rewrite Hdocs in H.
Qed.

(** How [getTrendingMovies] settles: always fulfilled, with the empty
    list or with the first five of the deduplicated answer. *)
Lemma getTrendingMovies_fulfilled (w : World) :
  exists l,
    fst (getTrendingMovies w) = Fulfilled l /\
    (l = [] \/ l = firstn 5 (uniqueMovies (trending_rows (documents w)))).
Proof.
  unfold getTrendingMovies, try_catch, retryWithBackoff.
  pose proof (@getTrendingMovies_loop_spec 3 "GetTrendingMovies" 3 0 w) as H.
  destruct (for_loop sleep_world getTrendingMovies_operation 3
              "GetTrendingMovies" 3 0 w) as [[l|e] w'].
  - exists l. split; [reflexivity | right; now apply H].
  - exists []. split; [reflexivity | now left].
Qed.
End TrendReaderFacts.

(** C6: the trend reader is always fulfilled, with at most 5 rows, no
    two of them of the same [movie_id]; each row is the first one with
    its [movie_id] in the store's answer (count descending, which may
    hold several rows of one movie), and unless no attempt reaches the
    store the rows are the first five first occurrences of that answer. *)
Theorem getTrendingMovies_unique_top5 (w : World) :
  exists l,
    fst (getTrendingMovies w) = Fulfilled l /\
    List.length l <= 5 /\
    NoDup (map movie_id l) /\
    (forall d, In d l ->
       find (fun x => (movie_id x =? movie_id d)%Z)
            (trending_rows (documents w)) = Some d) /\
    l = if store_unreachable w then []
        else firstn 5 (first_occurrences (trending_rows (documents w))).
Proof.
  assert (Hval : fst (getTrendingMovies w) =
                 Fulfilled (if store_unreachable w then []
                            else firstn 5 (uniqueMovies (trending_rows (documents w))))).
  { unfold store_unreachable, getTrendingMovies, try_catch, retryWithBackoff,
      getTrendingMovies_operation, bind, listDocuments, remote, ret, trending_rows.
    destruct w as [docs t fs].
    destruct fs as [|[|] [|[|] [|[|] fs]]]; reflexivity. }
  rewrite uniqueMovies_first_occurrences in Hval.
  eexists. split; [exact Hval|].
  destruct (store_unreachable w).
  - cbn. repeat split; [lia | constructor | tauto].
  - repeat split.
    + apply firstn_le_length.
    + rewrite <- firstn_map. apply NoDup_firstn, first_occurrences_NoDup.
    + intros d Hd. apply first_occurrences_first. eapply In_firstn; eauto.
Qed.

(** C10: the trend reader never throws.  It is fulfilled on every
    state of the remote side, and when [retryWithBackoff] is rejected,
    as it is when none of the three attempts reaches the store, it is
    fulfilled with the empty list. *)
Theorem getTrendingMovies_never_throws (w : World) :
  (exists l, fst (getTrendingMovies w) = Fulfilled l) /\
  (forall t,
     fst (retryWithBackoff sleep_world getTrendingMovies_operation 3
            "GetTrendingMovies" w) = Rejected t ->
     fst (getTrendingMovies w) = Fulfilled []) /\
  (store_unreachable w = true ->
   exists t,
     fst (retryWithBackoff sleep_world getTrendingMovies_operation 3
            "GetTrendingMovies" w) = Rejected t).
Proof.
  split; [|split].
  - destruct (getTrendingMovies_fulfilled w) as (l & Hl & _). eauto.
  - intros t Ht. unfold getTrendingMovies, try_catch.
    destruct (retryWithBackoff sleep_world getTrendingMovies_operation 3
                "GetTrendingMovies" w) as [[l|e] w']; cbn in *;
      [discriminate | reflexivity].
  - unfold store_unreachable.
    destruct w as [docs t fs].
    destruct fs as [|[|] [|[|] [|[|] fs]]]; cbn [faults]; try discriminate.
    intros _. eexists. reflexivity.
Qed.

(* ----------------------------------------------------------------- *)
(** ** Sorting, sets of terms and sums *)

Section SortFacts.
Variable A : Type.
Variable cmp : A -> A -> Z.

Lemma insert_sorted_perm (x : A) (l : list A) :
  Permutation (insert_sorted cmp x l) (x :: l).
Proof.
  induction l as [|y l IH]; cbn; [reflexivity|].
  destruct (cmp x y <=? 0)%Z; [reflexivity|].
  rewrite IH. apply perm_swap.
Qed.

Lemma sort_by_perm (l : list A) : Permutation (sort_by cmp l) l.
Proof.
  induction l as [|x l IH]; cbn; [reflexivity|].
  rewrite insert_sorted_perm. now constructor.
Qed.
End SortFacts.

Lemma insert_head_latest (x : Document) (l : list Document) :
  head_latest l ->
  head_latest (insert_sorted (fun a b => (docTime b - docTime a)%Z) x l).
Proof.
  destruct l as [|y l]; cbn; [tauto|].
  intros Hy. destruct (docTime y - docTime x <=? 0)%Z eqn:Hc; cbn.
  - apply Z.leb_le in Hc. intros d [Hd | Hd]; [subst; lia|].
    specialize (Hy d Hd). lia.
  - apply Z.leb_gt in Hc. intros d Hd.
    apply (Permutation_in _ (insert_sorted_perm _ x l)) in Hd.
    destruct Hd as [Hd | Hd]; [subst; lia | auto].
Qed.

Lemma sortedDocs_head_latest (docs : list Document) :
  head_latest (sortedDocs docs).
Proof.
  unfold sortedDocs. induction docs as [|x docs IH]; cbn; [exact I|].
  now apply insert_head_latest.
Qed.

Lemma sortedDocs_perm (docs : list Document) :
  Permutation (sortedDocs docs) docs.
Proof. apply sort_by_perm. Qed.

(** The kept document is a member of the group with the latest time. *)
Lemma sortedDocs_keep (docs : list Document) (keepDoc : Document)
      (others : list Document) :
  sortedDocs docs = keepDoc :: others ->
  In keepDoc docs /\
  (forall d, In d docs -> (docTime d <= docTime keepDoc)%Z) /\
  (forall d, In d docs -> d = keepDoc \/ In d others).
Proof.
  intros Hs. pose proof (sortedDocs_perm docs) as Hp. rewrite Hs in Hp.
  pose proof (sortedDocs_head_latest docs) as Hh. rewrite Hs in Hh. cbn in Hh.
  split; [|split].
  - apply (Permutation_in _ Hp). now left.
  - intros d Hd. apply (Permutation_in _ (Permutation_sym Hp)) in Hd.
    destruct Hd as [Hd | Hd]; [subst; lia | auto].
  - intros d Hd. apply (Permutation_in _ (Permutation_sym Hp)) in Hd.
    destruct Hd as [Hd | Hd]; [left; congruence | now right].
Qed.

Lemma sortedDocs_nonempty (docs : list Document) :
  docs <> [] -> exists keepDoc others, sortedDocs docs = keepDoc :: others.
Proof.
  intros Hne. destruct (sortedDocs docs) as [|k o] eqn:Hs; [|eauto].
  pose proof (sortedDocs_perm docs) as Hp. rewrite Hs in Hp.
  apply Permutation_nil in Hp. contradiction.
Qed.

Lemma includes_In (x : string) (l : list string) :
  includes x l = true <-> In x l.
Proof.
  unfold includes. rewrite existsb_exists. split.
  - intros (y & Hy & Heq). apply String.eqb_eq in Heq. now subst.
  - intros H. exists x. split; [exact H | apply String.eqb_refl].
Qed.

Lemma Set_fold_spec (items acc : list string) :
  let set := fold_left
               (fun set x => if includes x set then set else set ++ [x])
               items acc in
  (NoDup acc -> NoDup set) /\
  (forall x, In x set <-> In x acc \/ In x items).
Proof.
  revert acc. induction items as [|a items IH]; intros acc; cbn.
  - split; [tauto | intros x; tauto].
  - destruct (includes a acc) eqn:Ha.
    + apply includes_In in Ha. destruct (IH acc) as [Hnd Hin]. split; [exact Hnd|].
      intros x. rewrite Hin. split; [tauto|].
      intros [H | [H | H]]; subst; tauto.
    + assert (~ In a acc) as Hna.
      { intros H. apply includes_In in H. congruence. }
      destruct (IH (acc ++ [a])) as [Hnd Hin]. split.
      * intros Hacc. apply Hnd.
        apply NoDup_app; [exact Hacc | constructor; [tauto | constructor] |].
        intros x Hx [Hxa | []]. subst. contradiction.
      * intros x. rewrite Hin, in_app_iff. cbn. tauto.
Qed.

Lemma Set_of_NoDup (items : list string) : NoDup (Set_of items).
Proof. apply (Set_fold_spec items []). constructor. Qed.

Lemma Set_of_In (items : list string) (x : string) :
  In x (Set_of items) <-> In x items.
Proof.
  unfold Set_of. destruct (Set_fold_spec items []) as [_ H].
  rewrite H. cbn. tauto.
Qed.

Lemma allSearchTerms_fold (docs : list Document) (acc : list string) :
  let terms := fold_left (fun terms doc => Set_of (terms ++ docTerms doc))
                         docs acc in
  (NoDup acc -> NoDup terms) /\
  (forall x, In x terms <->
             In x acc \/ exists d, In d docs /\ In x (docTerms d)).
Proof.
  revert acc. induction docs as [|d docs IH]; intros acc; cbn.
  - split; [tauto|]. intros x. split; [tauto|].
    intros [H | (d & [] & _)]. exact H.
  - destruct (IH (Set_of (acc ++ docTerms d))) as [Hnd Hin]. split.
    + intros _. apply Hnd, Set_of_NoDup.
    + intros x. rewrite Hin, Set_of_In, in_app_iff. split.
      * intros [[H | H] | (d' & Hd' & Hx)]; eauto.
      * intros [H | (d' & [Hd' | Hd'] & Hx)]; subst; eauto.
Qed.

(** The merged terms are the duplicate-free union of the term sets. *)
Lemma allSearchTerms_union (docs : list Document) :
  NoDup (allSearchTerms docs) /\
  (forall x, In x (allSearchTerms docs) <->
             exists d, In d docs /\ In x (docTerms d)).
Proof.
  destruct (allSearchTerms_fold docs []) as [Hnd Hin]. split.
  - apply Hnd. constructor.
  - intros x. unfold allSearchTerms. rewrite Hin. cbn. tauto.
Qed.

(** The terms the code reads off a document are its term set. *)
Lemma docTerms_term_set (d : Document) : docTerms d = term_set d.
Proof.
  unfold docTerms, term_set, truthy_string.
  destruct (searchTerms d); [reflexivity|].
  destruct (searchTerm d) as [[|c s]|]; reflexivity.
Qed.

Lemma filter_everything {A} (keep : A -> bool) (rows : list A) :
  (forall x, In x rows -> keep x = true) -> filter keep rows = rows.
Proof.
  induction rows as [|x rows IH]; cbn; [reflexivity|].
  intros H. rewrite (H x) by now left. f_equal. apply IH.
  intros y Hy. apply H. now right.
Qed.

(** [[...new Set(items)]] from a set that is already there: the new
    items follow, each at its first place. *)
Lemma Set_fold_places (items : list string) :
  forall acc,
    fold_left (fun set x => if includes x set then set else set ++ [x])
              items acc =
    acc ++ filter (fun y => negb (includes y acc)) (first_places items).
Proof.
  induction items as [|a items IH]; intros acc;
    cbn [fold_left first_places filter].
  - now rewrite app_nil_r.
  - destruct (includes a acc) eqn:Ha; cbn [negb].
    + rewrite IH. f_equal. rewrite filter_filter_and. apply filter_ext.
      intros y. destruct (String.eqb y a) eqn:E; cbn [negb andb]; [|reflexivity].
      apply String.eqb_eq in E. subst y. now rewrite Ha.
    + rewrite IH, <- app_assoc. cbn [app]. do 2 f_equal.
      rewrite filter_filter_and. apply filter_ext. intros y.
      unfold includes. rewrite existsb_app. cbn [existsb].
      destruct (existsb (String.eqb y) acc), (String.eqb y a); reflexivity.
Qed.

Lemma Set_of_first_places (items : list string) :
  Set_of items = first_places items.
Proof.
  unfold Set_of. rewrite Set_fold_places. cbn [app].
  apply filter_everything. reflexivity.
Qed.

Lemma first_places_NoDup (terms : list string) :
  NoDup terms -> first_places terms = terms.
Proof.
  induction terms as [|x terms IH]; cbn; [reflexivity|].
  intros H. inversion H as [|? ? Hnotin Hnd]. subst.
  rewrite IH by exact Hnd. f_equal. apply filter_everything.
  intros y Hy. apply negb_true_iff, String.eqb_neq. congruence.
Qed.

Lemma allSearchTerms_fold_places (docs : list Document) :
  forall acc,
    NoDup acc ->
    fold_left (fun terms doc => Set_of (terms ++ docTerms doc)) docs acc =
    fold_left (fun set x => if includes x set then set else set ++ [x])
              (List.concat (map docTerms docs)) acc.
Proof.
  induction docs as [|d docs IH]; intros acc Hacc;
    cbn [fold_left map List.concat]; [reflexivity|].
  rewrite IH by apply Set_of_NoDup.
  rewrite fold_left_app. f_equal.
  unfold Set_of. rewrite fold_left_app. f_equal.
  fold (Set_of acc). rewrite Set_of_first_places. now apply first_places_NoDup.
Qed.

(** The merged terms are the union of the term sets of the
    specification: its terms, in its order. *)
Lemma allSearchTerms_union_of (docs : list Document) :
  allSearchTerms docs = union_of docs.
Proof.
  unfold allSearchTerms, union_of.
  rewrite allSearchTerms_fold_places by constructor.
  fold (Set_of (List.concat (map docTerms docs))).
  rewrite Set_of_first_places. do 2 f_equal.
  apply map_ext. apply docTerms_term_set.
Qed.

Lemma totalCount_fold (docs : list Document) (acc : Z) :
  fold_left (fun sum doc => (sum + count doc)%Z) docs acc =
  (acc + fold_right Z.add 0 (map count docs))%Z.
Proof.
  revert acc. induction docs as [|d docs IH]; intros acc; cbn; [lia|].
  rewrite IH. lia.
Qed.

(** The merged count is the sum of the counts. *)
Lemma totalCount_sum (docs : list Document) :
  totalCount docs = fold_right Z.add 0%Z (map count docs).
Proof. unfold totalCount. now rewrite totalCount_fold. Qed.

(* ----------------------------------------------------------------- *)
(** ** The remote store when no call fails *)

Lemma has_id_In (i : string) (docs : list Document) :
  existsb (has_id i) docs = true <-> In i (map dollar_id docs).
Proof.
  rewrite existsb_exists, in_map_iff. unfold has_id.
  split; intros (d & H1 & H2).
  - apply String.eqb_eq in H2. eauto.
  - exists d. split; [exact H2 | now apply String.eqb_eq].
Qed.

Lemma id_in_In (others : list Document) (d : Document) :
  id_in others d = true <-> In (dollar_id d) (map dollar_id others).
Proof.
  unfold id_in. rewrite existsb_exists, in_map_iff. unfold has_id.
  split; intros (o & H1 & H2).
  - apply String.eqb_eq in H2. eauto.
  - exists o. split; [exact H2 | apply String.eqb_eq; congruence].
Qed.

Lemma set_documents_same (w : World) : set_documents (documents w) w = w.
Proof. now destruct w. Qed.

Lemma updateDocument_ok (id : string) (data : Document -> Document) (w : World) :
  faults w = [] ->
  In id (map dollar_id (documents w)) ->
  updateDocument id data w =
    (Fulfilled tt,
     set_documents
       (map (fun d => if has_id id d then touch (now w) (data d) else d)
            (documents w)) w).
Proof.
  intros Hf Hin. unfold updateDocument, remote. rewrite Hf.
  apply has_id_In in Hin. now rewrite Hin.
Qed.

Lemma deleteDocument_ok (id : string) (w : World) :
  faults w = [] ->
  In id (map dollar_id (documents w)) ->
  deleteDocument id w =
    (Fulfilled tt,
     set_documents (filter (fun d => negb (has_id id d)) (documents w)) w).
Proof.
  intros Hf Hin. unfold deleteDocument, remote. rewrite Hf.
  apply has_id_In in Hin. now rewrite Hin.
Qed.

Lemma In_ids_filter (p : Document -> bool) (docs : list Document) (i : string) :
  In i (map dollar_id (filter p docs)) <->
  exists d, In d docs /\ p d = true /\ dollar_id d = i.
Proof.
  rewrite in_map_iff. split.
  - intros (d & Hid & Hin). apply filter_In in Hin. exists d. tauto.
  - intros (d & Hin & Hp & Hid). exists d. split; [exact Hid|].
    apply filter_In. tauto.
Qed.

(** The loop that deletes the other documents of a group. *)
Lemma delete_loop_ok (others : list Document) :
  forall c w,
    faults w = [] ->
    NoDup (map dollar_id others) ->
    (forall o, In o others -> In (dollar_id o) (map dollar_id (documents w))) ->
    delete_loop others c w =
      (Fulfilled tt,
       mkCounters (duplicatesFound c) (duplicatesRemoved c + List.length others),
       set_documents (filter (fun d => negb (id_in others d)) (documents w)) w).
Proof.
  induction others as [|o others IH]; intros c w Hf Hnd Hin; cbn [delete_loop].
  - cbn. rewrite filter_true, set_documents_same, Nat.add_0_r. now destruct c.
  - inversion Hnd as [|? ? Hnotin Hnd']; subst.
    rewrite deleteDocument_ok; [|exact Hf | apply Hin; now left].
    rewrite IH; [| exact Hf | exact Hnd' |].
    + cbn [duplicatesFound duplicatesRemoved List.length]. f_equal; [f_equal; f_equal; lia|].
      unfold set_documents. cbn [documents now faults]. f_equal.
      rewrite filter_filter_and. apply filter_ext. intros d.
      cbn [id_in existsb]. fold (id_in others d). now rewrite negb_orb.
    + intros o' Ho'. cbn [documents set_documents].
      apply In_ids_filter.
      specialize (Hin o' (or_intror Ho')).
      apply in_map_iff in Hin. destruct Hin as (d & Hd & Hdin).
      exists d. split; [exact Hdin|]. split; [|exact Hd].
      apply negb_true_iff. unfold has_id. apply String.eqb_neq.
      rewrite Hd. intros Heq. apply Hnotin. rewrite <- Heq.
      now apply in_map.
Qed.

(* ----------------------------------------------------------------- *)
(** ** What merging one group does to the collection *)

Section MergedStore.
Variable docs : list Document.
Variable t : Z.
Variable keepDoc : Document.
Variable others : list Document.
Hypothesis Hsorted : sortedDocs docs = keepDoc :: others.

Let overwrite (d : Document) : Document :=
  if has_id (dollar_id keepDoc) d then touch t (merge_update docs t d) else d.

Lemma overwrite_id (d : Document) : dollar_id (overwrite d) = dollar_id d.
Proof. unfold overwrite. now destruct (has_id (dollar_id keepDoc) d). Qed.

Lemma overwrite_movie (d : Document) : movie_id (overwrite d) = movie_id d.
Proof. unfold overwrite. now destruct (has_id (dollar_id keepDoc) d). Qed.

Lemma merged_store_eq (store : list Document) :
  merged_store docs t store =
  filter (fun d => negb (id_in others d)) (map overwrite store).
Proof. unfold merged_store. now rewrite Hsorted. Qed.

Lemma id_in_overwrite (d : Document) :
  id_in others (overwrite d) = id_in others d.
Proof. unfold id_in, has_id. now rewrite overwrite_id. Qed.

Lemma has_id_overwrite (i : string) (d : Document) :
  has_id i (overwrite d) = has_id i d.
Proof. unfold has_id. now rewrite overwrite_id. Qed.

(** The identifiers left are those that were there and are not of
    the deleted documents. *)
Lemma merged_store_ids (store : list Document) (i : string) :
  In i (map dollar_id (merged_store docs t store)) <->
  In i (map dollar_id store) /\ ~ In i (map dollar_id others).
Proof.
  rewrite merged_store_eq, In_ids_filter. split.
  - intros (d & Hin & Hp & Hid). apply in_map_iff in Hin.
    destruct Hin as (d0 & Hd0 & Hin0). subst d.
    rewrite overwrite_id in Hid. rewrite id_in_overwrite in Hp.
    split; [apply in_map_iff; eauto|].
    intros Hi. rewrite <- Hid in Hi. apply id_in_In in Hi.
    rewrite Hi in Hp. discriminate.
  - intros [Hin Hnot]. apply in_map_iff in Hin. destruct Hin as (d0 & Hid & Hin0).
    exists (overwrite d0). split; [now apply in_map|].
    rewrite id_in_overwrite, overwrite_id. split; [|exact Hid].
    apply negb_true_iff. destruct (id_in others d0) eqn:E; [|reflexivity].
    apply id_in_In in E. rewrite Hid in E. contradiction.
Qed.

(** A document with another identifier than those of the group is
    left as it is. *)
Lemma merged_store_other (store : list Document) (i : string) :
  i <> dollar_id keepDoc ->
  ~ In i (map dollar_id others) ->
  filter (has_id i) (merged_store docs t store) = filter (has_id i) store.
Proof.
  intros Hk Ho. rewrite merged_store_eq.
  induction store as [|d store IH]; cbn [map filter]; [reflexivity|].
  rewrite id_in_overwrite.
  destruct (has_id i d) eqn:Hid.
  - assert (dollar_id d = i) as Hd by (now apply String.eqb_eq).
    assert (id_in others d = false) as Hn.
    { destruct (id_in others d) eqn:E; [|reflexivity].
      apply id_in_In in E. rewrite Hd in E. contradiction. }
    rewrite Hn. cbn [negb filter]. rewrite has_id_overwrite, Hid, IH.
    f_equal. unfold overwrite.
    assert (has_id (dollar_id keepDoc) d = false) as Hnk.
    { unfold has_id. apply String.eqb_neq. congruence. }
    now rewrite Hnk.
  - destruct (negb (id_in others d)); cbn [filter];
      [rewrite has_id_overwrite, Hid|]; exact IH.
Qed.

(** The kept document is overwritten with the merged data. *)
Lemma merged_store_keep (store : list Document) :
  ~ In (dollar_id keepDoc) (map dollar_id others) ->
  filter (has_id (dollar_id keepDoc)) (merged_store docs t store) =
  map (fun d => touch t (merge_update docs t d))
      (filter (has_id (dollar_id keepDoc)) store).
Proof.
  intros Ho. rewrite merged_store_eq.
  induction store as [|d store IH]; cbn [map filter]; [reflexivity|].
  rewrite id_in_overwrite.
  destruct (has_id (dollar_id keepDoc) d) eqn:Hid.
  - assert (dollar_id d = dollar_id keepDoc) as Hd by (now apply String.eqb_eq).
    assert (id_in others d = false) as Hn.
    { destruct (id_in others d) eqn:E; [|reflexivity].
      apply id_in_In in E. rewrite Hd in E. contradiction. }
    rewrite Hn. cbn [negb filter map]. rewrite has_id_overwrite, Hid, IH.
    f_equal. unfold overwrite. now rewrite Hid.
  - destruct (negb (id_in others d)); cbn [filter];
      [rewrite has_id_overwrite, Hid|]; exact IH.
Qed.

Lemma merged_store_NoDup (store : list Document) :
  NoDup (map dollar_id store) ->
  NoDup (map dollar_id (merged_store docs t store)).
Proof.
  intros H. rewrite merged_store_eq. apply filter_keys_NoDup.
  rewrite map_map. erewrite map_ext; [exact H|].
  intros d. apply overwrite_id.
Qed.

(** Every document left comes from a document with the same
    identifier and the same movie. *)
Lemma merged_store_descends (store : list Document) (d : Document) :
  In d (merged_store docs t store) ->
  exists d0, In d0 store /\ dollar_id d0 = dollar_id d /\
             movie_id d0 = movie_id d.
Proof.
  rewrite merged_store_eq. intros H. apply filter_In in H. destruct H as [H _].
  apply in_map_iff in H. destruct H as (d0 & Hd0 & Hin). subst d.
  exists d0. now rewrite overwrite_id, overwrite_movie.
Qed.

Lemma merged_store_length (store : list Document) :
  List.length (merged_store docs t store) <= List.length store.
Proof.
  rewrite merged_store_eq.
  etransitivity; [apply filter_length_le | now rewrite length_map].
Qed.

Lemma others_ids_NoDup :
  NoDup (map dollar_id docs) ->
  NoDup (map dollar_id others) /\ ~ In (dollar_id keepDoc) (map dollar_id others).
Proof using Hsorted.
  intros H.
  assert (Permutation (map dollar_id docs) (map dollar_id (keepDoc :: others))) as Hp.
  { apply Permutation_map. rewrite <- Hsorted. symmetry. apply sortedDocs_perm. }
  apply (Permutation_NoDup Hp) in H. cbn in H.
  inversion H as [|? ? Hnotin Hrest]. exact (conj Hrest Hnotin).
Qed.

Lemma others_in_docs (i : string) :
  In i (map dollar_id others) -> In i (map dollar_id docs).
Proof.
  intros H.
  assert (Permutation (map dollar_id (keepDoc :: others)) (map dollar_id docs)) as Hp.
  { apply Permutation_map. rewrite <- Hsorted. apply sortedDocs_perm. }
  apply (Permutation_in _ Hp). now right.
Qed.

Lemma keep_in_docs : In (dollar_id keepDoc) (map dollar_id docs).
Proof.
  apply in_map. apply (sortedDocs_keep docs Hsorted).
Qed.

Lemma others_length : List.length others = List.length docs - 1.
Proof.
  pose proof (Permutation_length (sortedDocs_perm docs)) as H.
  rewrite Hsorted in H. cbn in H. lia.
Qed.

(** The body of the loop on a group of duplicates. *)
Lemma process_group_ok (c : Counters) (w : World) :
  t = now w ->
  faults w = [] ->
  1 < List.length docs ->
  NoDup (map dollar_id docs) ->
  (forall i, In i (map dollar_id docs) -> In i (map dollar_id (documents w))) ->
  process_group docs c w =
    (Fulfilled tt,
     mkCounters (S (duplicatesFound c))
                (duplicatesRemoved c + (List.length docs - 1)),
     set_documents (merged_store docs t (documents w)) w).
Proof.
  intros Ht Hf Hlen Hnd Hin. unfold process_group.
  apply Nat.ltb_lt in Hlen. rewrite Hlen, Hsorted.
  rewrite updateDocument_ok; [| exact Hf | apply Hin, keep_in_docs].
  destruct (others_ids_NoDup Hnd) as [Hnd' Hk].
  rewrite delete_loop_ok.
  - cbn [duplicatesFound duplicatesRemoved]. rewrite others_length.
    f_equal. rewrite merged_store_eq. subst t. reflexivity.
  - exact Hf.
  - exact Hnd'.
  - intros o Ho. cbn [documents set_documents].
    rewrite map_map. erewrite map_ext.
    + apply Hin, others_in_docs. now apply in_map.
    + intros d. cbn beta. now destruct (has_id (dollar_id keepDoc) d).
Qed.
End MergedStore.

(* ----------------------------------------------------------------- *)
(** ** What a pass over the groups does to the collection *)

Section MergeEntry.
Variable t : Z.

Lemma merged_store_nil (docs store : list Document) :
  sortedDocs docs = [] -> merged_store docs t store = store.
Proof. intros H. unfold merged_store. now rewrite H. Qed.

Lemma merge_entry_other (store : list Document) (e : Z * list Document)
      (i : string) :
  ~ In i (map dollar_id (snd e)) ->
  filter (has_id i) (merge_entry t store e) = filter (has_id i) store.
Proof.
  intros Hi. unfold merge_entry. destruct (is_duplicate_group e); [|reflexivity].
  destruct (sortedDocs (snd e)) as [|k o] eqn:Hs.
  - now rewrite merged_store_nil.
  - apply (@merged_store_other (snd e) t k o Hs).
    + intros Heq. apply Hi. rewrite Heq. apply (@keep_in_docs (snd e) k o Hs).
    + intros Ho. apply Hi. apply (@others_in_docs (snd e) k o Hs). exact Ho.
Qed.

Lemma merge_entry_ids (store : list Document) (e : Z * list Document)
      (i : string) :
  In i (map dollar_id (merge_entry t store e)) -> In i (map dollar_id store).
Proof.
  unfold merge_entry. destruct (is_duplicate_group e); [|tauto].
  destruct (sortedDocs (snd e)) as [|k o] eqn:Hs.
  - now rewrite merged_store_nil.
  - intros H. now apply (@merged_store_ids (snd e) t k o Hs) in H.
Qed.

Lemma merge_entry_ids_kept (store : list Document) (e : Z * list Document)
      (i : string) :
  In i (map dollar_id store) ->
  ~ In i (map dollar_id (snd e)) ->
  In i (map dollar_id (merge_entry t store e)).
Proof.
  intros Hin Hi. unfold merge_entry. destruct (is_duplicate_group e); [|tauto].
  destruct (sortedDocs (snd e)) as [|k o] eqn:Hs.
  - now rewrite merged_store_nil.
  - apply (@merged_store_ids (snd e) t k o Hs). split; [exact Hin|].
    intros Ho. apply Hi. apply (@others_in_docs (snd e) k o Hs). exact Ho.
Qed.

Lemma merge_entry_NoDup (store : list Document) (e : Z * list Document) :
  NoDup (map dollar_id store) ->
  NoDup (map dollar_id (merge_entry t store e)).
Proof.
  unfold merge_entry. destruct (is_duplicate_group e); [|tauto].
  destruct (sortedDocs (snd e)) as [|k o] eqn:Hs.
  - now rewrite merged_store_nil.
  - apply (@merged_store_NoDup (snd e) t k o Hs).
Qed.

Lemma merge_entry_descends (store : list Document) (e : Z * list Document)
      (d : Document) :
  In d (merge_entry t store e) ->
  exists d0, In d0 store /\ dollar_id d0 = dollar_id d /\
             movie_id d0 = movie_id d.
Proof.
  unfold merge_entry. destruct (is_duplicate_group e); [|eauto].
  destruct (sortedDocs (snd e)) as [|k o] eqn:Hs.
  - rewrite merged_store_nil by exact Hs. eauto.
  - apply (@merged_store_descends (snd e) t k o Hs).
Qed.

Lemma merge_entry_length (store : list Document) (e : Z * list Document) :
  List.length (merge_entry t store e) <= List.length store.
Proof.
  unfold merge_entry. destruct (is_duplicate_group e); [|lia].
  destruct (sortedDocs (snd e)) as [|k o] eqn:Hs.
  - rewrite merged_store_nil by exact Hs. lia.
  - apply (@merged_store_length (snd e) t k o Hs).
Qed.

Lemma reconciled_other (entries : MovieGroups) :
  forall store i,
    ~ In i (entry_ids entries) ->
    filter (has_id i) (reconciled t entries store) = filter (has_id i) store.
Proof.
  unfold reconciled.
  induction entries as [|e entries IH]; intros store i Hi; cbn [fold_left];
    [reflexivity|].
  cbn [entry_ids flat_map] in Hi. rewrite in_app_iff in Hi.
  rewrite IH by tauto. apply merge_entry_other. tauto.
Qed.

Lemma reconciled_ids (entries : MovieGroups) :
  forall store i,
    In i (map dollar_id (reconciled t entries store)) ->
    In i (map dollar_id store).
Proof.
  unfold reconciled.
  induction entries as [|e entries IH]; intros store i; cbn [fold_left]; [tauto|].
  intros H. apply IH in H. eapply merge_entry_ids; eauto.
Qed.

Lemma reconciled_NoDup (entries : MovieGroups) :
  forall store,
    NoDup (map dollar_id store) ->
    NoDup (map dollar_id (reconciled t entries store)).
Proof.
  unfold reconciled.
  induction entries as [|e entries IH]; intros store H; cbn [fold_left]; [exact H|].
  apply IH, merge_entry_NoDup, H.
Qed.

Lemma reconciled_descends (entries : MovieGroups) :
  forall store d,
    In d (reconciled t entries store) ->
    exists d0, In d0 store /\ dollar_id d0 = dollar_id d /\
               movie_id d0 = movie_id d.
Proof.
  unfold reconciled.
  induction entries as [|e entries IH]; intros store d; cbn [fold_left]; [eauto|].
  intros H. apply IH in H. destruct H as (d1 & Hin1 & Hid1 & Hm1).
  apply merge_entry_descends in Hin1. destruct Hin1 as (d0 & Hin0 & Hid0 & Hm0).
  exists d0. repeat split; congruence.
Qed.

Lemma reconciled_length (entries : MovieGroups) :
  forall store,
    List.length (reconciled t entries store) <= List.length store.
Proof.
  unfold reconciled.
  induction entries as [|e entries IH]; intros store; cbn [fold_left]; [lia|].
  etransitivity; [apply IH | apply merge_entry_length].
Qed.
End MergeEntry.

(** The loop over the groups when no remote call fails: it is
    fulfilled, it counts the groups of duplicates and the documents
    they lose, and it leaves the collection reconciled. *)
Lemma groups_loop_ok (entries : MovieGroups) :
  forall c w,
    faults w = [] ->
    NoDup (entry_ids entries) ->
    (forall i, In i (entry_ids entries) -> In i (map dollar_id (documents w))) ->
    groups_loop entries c w =
      (Fulfilled tt,
       mkCounters (duplicatesFound c + count_groups entries)
                  (duplicatesRemoved c + count_removals entries),
       set_documents (reconciled (now w) entries (documents w)) w).
Proof.
  induction entries as [|[k docs] entries IH]; intros c w Hf Hnd Hin;
    cbn [groups_loop].
  - cbn. rewrite set_documents_same, !Nat.add_0_r. now destruct c.
  - cbn [entry_ids flat_map snd] in Hnd, Hin.
    fold (entry_ids entries) in Hnd, Hin.
    pose proof (NoDup_app_remove_r _ _ Hnd) as Hnd1.
    pose proof (NoDup_app_remove_l _ _ Hnd) as Hnd2.
    assert (Hdisj : forall i, In i (entry_ids entries) ->
                              ~ In i (map dollar_id docs)).
    { intros i Hi Hd. revert Hnd Hd Hi. clear. intros Hnd Hd Hi.
      induction (map dollar_id docs) as [|a l IHl]; [contradiction|].
      cbn in Hnd. inversion Hnd; subst. destruct Hd as [Hd | Hd].
      - subst. apply H1. apply in_or_app. now right.
      - auto. }
    unfold count_groups, count_removals, reconciled.
    cbn [filter fold_right fold_left]. unfold merge_entry at 2.
    fold (reconciled (now w) entries).
    destruct (is_duplicate_group (k, docs)) eqn:Hdup.
    + unfold is_duplicate_group in Hdup. cbn [snd] in *.
      apply Nat.ltb_lt in Hdup.
      destruct (@sortedDocs_nonempty docs) as (keepDoc & others & Hs).
      { intros Hnil. subst docs. cbn in Hdup. lia. }
      rewrite (@process_group_ok docs (now w) keepDoc others Hs c w); try assumption;
        try reflexivity.
      * rewrite IH.
        -- cbn [duplicatesFound duplicatesRemoved documents now set_documents
                  List.length].
           unfold reconciled.
           replace (S (duplicatesFound c) + count_groups entries)
             with (duplicatesFound c + S (List.length (filter is_duplicate_group entries)))
             by (unfold count_groups; lia).
           rewrite <- Nat.add_assoc. reflexivity.
        -- exact Hf.
        -- exact Hnd2.
        -- intros i Hi. cbn [documents set_documents].
           apply (@merged_store_ids docs (now w) keepDoc others Hs). split.
           ++ apply Hin. apply in_or_app. now right.
           ++ intros Ho. apply (Hdisj i Hi). apply (@others_in_docs docs keepDoc others Hs). exact Ho.
      * intros i Hi. apply Hin. apply in_or_app. now left.
    + unfold process_group. unfold is_duplicate_group in Hdup. cbn [snd] in Hdup.
      rewrite Hdup. rewrite IH.
      * reflexivity.
      * exact Hf.
      * exact Hnd2.
      * intros i Hi. apply Hin. apply in_or_app. now right.
Qed.

(* ----------------------------------------------------------------- *)
(** ** Grouping by movie *)

Lemma push_group_keys (k : Z) (d : Document) (groups : MovieGroups) :
  (In k (map fst groups) -> map fst (push_group k d groups) = map fst groups) /\
  (~ In k (map fst groups) ->
   map fst (push_group k d groups) = map fst groups ++ [k]).
Proof.
  induction groups as [|[k0 ds0] groups [IH1 IH2]]; cbn.
  - split; [tauto | reflexivity].
  - destruct (k0 =? k)%Z eqn:E; cbn.
    + apply Z.eqb_eq in E. split; [reflexivity | tauto].
    + apply Z.eqb_neq in E. split.
      * intros [H | H]; [contradiction | now rewrite IH1].
      * intros H. rewrite IH2; tauto.
Qed.

Lemma push_group_In (k : Z) (d : Document) (groups : MovieGroups)
      (k' : Z) (ds' : list Document) :
  NoDup (map fst groups) ->
  In (k', ds') (push_group k d groups) ->
  (k' <> k /\ In (k', ds') groups) \/
  (k' = k /\ exists ds, In (k, ds) groups /\ ds' = ds ++ [d]) \/
  (k' = k /\ ~ In k (map fst groups) /\ ds' = [d]).
Proof.
  induction groups as [|[k0 ds0] groups IH]; cbn; intros Hnd Hin.
  - destruct Hin as [Hin | []]. inversion Hin; subst. right. right. tauto.
  - inversion Hnd as [|? ? Hnotin Hnd']; subst.
    destruct (k0 =? k)%Z eqn:E.
    + apply Z.eqb_eq in E. subst k0. destruct Hin as [Hin | Hin].
      * inversion Hin; subst. right. left. split; [reflexivity|]. eauto.
      * left. split; [|now right]. intros ->. apply Hnotin.
        apply in_map_iff. exists (k, ds'). auto.
    + apply Z.eqb_neq in E. destruct Hin as [Hin | Hin].
      * inversion Hin; subst. left. split; [exact E | now left].
      * destruct (IH Hnd' Hin) as [[H1 H2] | [[H1 (ds & H2 & H3)] | [H1 [H2 H3]]]].
        -- left. tauto.
        -- right. left. split; [exact H1|]. exists ds. tauto.
        -- right. right. repeat split; try assumption.
           intros [H | H]; [congruence | contradiction].
Qed.

Lemma push_group_perm (k : Z) (d : Document) (groups : MovieGroups) :
  Permutation (flat_map snd (push_group k d groups))
              (flat_map snd groups ++ [d]).
Proof.
  induction groups as [|[k0 ds0] groups IH]; cbn; [reflexivity|].
  destruct (k0 =? k)%Z; cbn.
  - rewrite <- !app_assoc. apply Permutation_app_head. cbn.
    apply Permutation_cons_append.
  - rewrite IH. now rewrite app_assoc.
Qed.

Lemma group_of_app (k : Z) (l1 l2 : list Document) :
  group_of k (l1 ++ l2) = group_of k l1 ++ group_of k l2.
Proof. apply filter_app. Qed.

Lemma group_of_nil_iff (k : Z) (docs : list Document) :
  group_of k docs = [] <-> forall d, In d docs -> movie_id d <> k.
Proof.
  unfold group_of. induction docs as [|a docs IH]; cbn.
  - split; [intros _ d [] | reflexivity].
  - destruct (movie_id a =? k)%Z eqn:E.
    + apply Z.eqb_eq in E. split; [discriminate|].
      intros H. exfalso. apply (H a); auto.
    + apply Z.eqb_neq in E. rewrite IH. split.
      * intros H d [Hd | Hd]; [subst; exact E | auto].
      * intros H d Hd. apply H. now right.
Qed.

Lemma push_group_grouped (d : Document) (groups : MovieGroups)
      (seen : list Document) :
  grouped groups seen ->
  grouped (push_group (movie_id d) d groups) (seen ++ [d]).
Proof.
  intros [Hkeys Hmem Hall Hperm].
  destruct (push_group_keys (movie_id d) d groups) as [Hk1 Hk2].
  constructor.
  - destruct (in_dec Z.eq_dec (movie_id d) (map fst groups)) as [Hin | Hnin].
    + now rewrite Hk1.
    + rewrite Hk2 by exact Hnin.
      apply NoDup_app; [exact Hkeys | constructor; [tauto | constructor] |].
      intros x Hx [Hx' | []]. subst. contradiction.
  - intros k ds Hin. rewrite group_of_app.
    destruct (push_group_In _ _ _ _ _ Hkeys Hin)
      as [[H1 H2] | [[H1 (ds0 & H2 & H3)] | [H1 [H2 H3]]]].
    + destruct (Hmem _ _ H2) as [Heq Hne]. split; [|exact Hne].
      cbn. assert ((movie_id d =? k)%Z = false) as E
        by (apply Z.eqb_neq; congruence).
      rewrite E, app_nil_r. exact Heq.
    + subst k ds. destruct (Hmem _ _ H2) as [Heq Hne]. split.
      * cbn. rewrite Z.eqb_refl. now rewrite <- Heq.
      * intros Habs. apply app_eq_nil in Habs. destruct Habs; discriminate.
    + subst k ds. split; [|discriminate].
      cbn. rewrite Z.eqb_refl.
      assert (group_of (movie_id d) seen = []) as Hnil.
      { apply group_of_nil_iff. intros d' Hd' Heq. apply H2.
        rewrite <- Heq. now apply Hall. }
      now rewrite Hnil.
  - intros d' Hd'. apply in_app_iff in Hd'.
    destruct (in_dec Z.eq_dec (movie_id d) (map fst groups)) as [Hin | Hnin].
    + rewrite Hk1 by exact Hin. destruct Hd' as [Hd' | [Hd' | []]];
        [now apply Hall | now subst].
    + rewrite Hk2 by exact Hnin. apply in_app_iff.
      destruct Hd' as [Hd' | [Hd' | []]];
        [left; now apply Hall | right; left; now subst].
  - rewrite push_group_perm. now apply Permutation_app_tail.
Qed.

Lemma group_documents_fold (docs : list Document) :
  forall groups seen,
    grouped groups seen ->
    grouped (fold_left (fun groups doc => push_group (movie_id doc) doc groups)
                       docs groups)
            (seen ++ docs).
Proof.
  induction docs as [|d docs IH]; intros groups seen H; cbn [fold_left].
  - now rewrite app_nil_r.
  - replace (seen ++ d :: docs) with ((seen ++ [d]) ++ docs)
      by (now rewrite <- app_assoc).
    apply IH. now apply push_group_grouped.
Qed.

(** [movieGroups] after the [forEach]: the documents grouped by movie. *)
Lemma group_documents_grouped (docs : list Document) :
  grouped (group_documents docs) docs.
Proof.
  apply (group_documents_fold docs (groups := []) (seen := [])).
  constructor; cbn; try constructor; tauto.
Qed.

Lemma filter_partition_perm {A} (p : A -> bool) (l : list A) :
  Permutation (filter p l ++ filter (fun x => negb (p x)) l) l.
Proof.
  induction l as [|a l IH]; cbn; [reflexivity|].
  destruct (p a); cbn.
  - now constructor.
  - rewrite <- Permutation_middle. now constructor.
Qed.

(** [Object.entries] lists every group once. *)
Lemma Object_entries_perm (groups : MovieGroups) :
  Permutation (Object_entries groups) groups.
Proof.
  unfold Object_entries. rewrite sort_by_perm. apply filter_partition_perm.
Qed.

Lemma entry_ids_flat (entries : MovieGroups) :
  entry_ids entries = map dollar_id (flat_map snd entries).
Proof.
  unfold entry_ids. induction entries as [|e entries IH]; cbn; [reflexivity|].
  now rewrite map_app, IH.
Qed.

(* ----------------------------------------------------------------- *)
(** ** A run of the reconciler in which no remote call fails *)

Lemma NoDup_app_disjoint {A} (l1 l2 : list A) (a : A) :
  NoDup (l1 ++ l2) -> In a l1 -> ~ In a l2.
Proof.
  induction l1 as [|x l1 IH]; cbn; [tauto|].
  intros Hnd [Hx | Hin] H2; inversion Hnd; subst.
  - match goal with H : ~ In _ _ |- _ => apply H end.
    apply in_or_app. now right.
  - now apply IH.
Qed.

Lemma select_limit_100 (store : list Document) :
  select_documents [Query_limit 100] store = loaded store.
Proof.
  unfold select_documents, loaded, query_orders, query_limit.
  cbn [existsb fold_left forallb query_keeps andb orb].
  now rewrite filter_true.
Qed.

Section LoadedEntries.
Variable store : list Document.
Hypothesis Hids : NoDup (map dollar_id store).

Lemma loaded_In (d : Document) : In d (loaded store) -> In d store.
Proof. apply In_firstn. Qed.

Lemma loaded_ids_NoDup : NoDup (map dollar_id (loaded store)).
Proof. unfold loaded. rewrite <- firstn_map. now apply NoDup_firstn. Qed.

Lemma loaded_entries_In (k : Z) (ds : list Document) :
  In (k, ds) (loaded_entries store) ->
  ds = group_of k (loaded store) /\ ds <> [].
Proof.
  intros H. apply (Permutation_in _ (Object_entries_perm _)) in H.
  now apply (grouped_members (group_documents_grouped (loaded store))).
Qed.

Lemma loaded_entries_has (k : Z) :
  group_of k (loaded store) <> [] ->
  In (k, group_of k (loaded store)) (loaded_entries store).
Proof.
  intros Hne.
  apply (Permutation_in _ (Permutation_sym (Object_entries_perm _))).
  pose proof (group_documents_grouped (loaded store)) as G.
  destruct (group_of k (loaded store)) as [|d ds] eqn:Hg; [contradiction|].
  assert (In d (group_of k (loaded store))) as Hd by (rewrite Hg; now left).
  apply filter_In in Hd. destruct Hd as [Hd Hk]. apply Z.eqb_eq in Hk.
  pose proof (grouped_all G _ Hd) as Hkey. rewrite Hk in Hkey.
  apply in_map_iff in Hkey. destruct Hkey as ([k' ds'] & Hfst & Hin).
  cbn in Hfst. subst k'.
  destruct (grouped_members G _ _ Hin) as [Heq _].
  rewrite Hg in Heq. now rewrite <- Heq.
Qed.

Lemma loaded_entries_ids_perm :
  Permutation (entry_ids (loaded_entries store)) (map dollar_id (loaded store)).
Proof.
  rewrite entry_ids_flat. apply Permutation_map.
  unfold loaded_entries.
  rewrite (Permutation_flat_map snd (Object_entries_perm _)).
  apply (grouped_perm (group_documents_grouped (loaded store))).
Qed.

Lemma loaded_entries_ids_NoDup : NoDup (entry_ids (loaded_entries store)).
Proof.
  apply (Permutation_NoDup (Permutation_sym loaded_entries_ids_perm)).
  apply loaded_ids_NoDup.
Qed.

Lemma loaded_entries_ids_In (i : string) :
  In i (entry_ids (loaded_entries store)) -> In i (map dollar_id store).
Proof.
  intros H. apply (Permutation_in _ loaded_entries_ids_perm) in H.
  apply in_map_iff in H. destruct H as (d & Hd & Hin).
  apply in_map_iff. exists d. split; [exact Hd | now apply loaded_In].
Qed.
End LoadedEntries.

(** The [try] block on a collection with distinct identifiers when no
    remote call fails. *)
Lemma cleanup_try_ok (w : World) :
  faults w = [] ->
  NoDup (map dollar_id (documents w)) ->
  let entries := loaded_entries (documents w) in
  cleanup_try w =
    (Fulfilled tt,
     mkCounters (count_groups entries) (count_removals entries),
     set_documents (reconciled (now w) entries (documents w)) w).
Proof.
  intros Hf Hids entries. unfold cleanup_try, listDocuments, remote.
  rewrite Hf, select_limit_100.
  rewrite groups_loop_ok.
  - reflexivity.
  - exact Hf.
  - now apply loaded_entries_ids_NoDup.
  - intros i. now apply loaded_entries_ids_In.
Qed.

Lemma cleanupDuplicateMovies_ok (w : World) :
  faults w = [] ->
  NoDup (map dollar_id (documents w)) ->
  let entries := loaded_entries (documents w) in
  cleanupDuplicateMovies w =
    (Fulfilled (mkCleanupResult (count_groups entries) (count_removals entries) None),
     set_documents (reconciled (now w) entries (documents w)) w).
Proof.
  intros Hf Hids entries. unfold cleanupDuplicateMovies.
  now rewrite cleanup_try_ok.
Qed.

Section ReconciledGroup.
Variable t : Z.
Variable entries : MovieGroups.
Variable k : Z.
Variable docs : list Document.
Variable keepDoc : Document.
Variable others : list Document.
Hypothesis Hnd : NoDup (entry_ids entries).
Hypothesis Hin : In (k, docs) entries.
Hypothesis Hdup : 1 < List.length docs.
Hypothesis Hsorted : sortedDocs docs = keepDoc :: others.

Lemma entry_ids_app (l1 l2 : MovieGroups) :
  entry_ids (l1 ++ l2) = entry_ids l1 ++ entry_ids l2.
Proof. unfold entry_ids. apply flat_map_app. Qed.

Lemma merge_entry_duplicates (store : list Document) :
  merge_entry t store (k, docs) = merged_store docs t store.
Proof.
  unfold merge_entry, is_duplicate_group. cbn [snd].
  apply Nat.ltb_lt in Hdup. now rewrite Hdup.
Qed.

(** The kept document of a group holds the merged data after the pass. *)
Lemma reconciled_kept (store : list Document) :
  filter (has_id (dollar_id keepDoc)) (reconciled t entries store) =
  map (merged_document docs t) (filter (has_id (dollar_id keepDoc)) store).
Proof.
  destruct (in_split _ _ Hin) as (pre & post & Hsplit).
  rewrite Hsplit in Hnd. rewrite entry_ids_app in Hnd.
  cbn [entry_ids flat_map snd] in Hnd. fold (entry_ids post) in Hnd.
  pose proof (@keep_in_docs docs keepDoc others Hsorted) as Hk.
  assert (NoDup (map dollar_id docs)) as Hdocs.
  { apply NoDup_app_remove_l in Hnd. now apply NoDup_app_remove_r in Hnd. }
  assert (~ In (dollar_id keepDoc) (entry_ids pre)) as Hpre.
  { intros H. apply (NoDup_app_disjoint _ _ _ Hnd H). apply in_or_app. now left. }
  assert (~ In (dollar_id keepDoc) (entry_ids post)) as Hpost.
  { apply NoDup_app_remove_l in Hnd. now apply (NoDup_app_disjoint _ _ _ Hnd). }
  rewrite Hsplit. unfold reconciled. rewrite fold_left_app. cbn [fold_left].
  fold (reconciled t pre store).
  fold (reconciled t post (merge_entry t (reconciled t pre store) (k, docs))).
  rewrite reconciled_other by exact Hpost.
  rewrite merge_entry_duplicates.
  rewrite (@merged_store_keep docs t keepDoc others Hsorted).
  - now rewrite reconciled_other by exact Hpre.
  - now apply (@others_ids_NoDup docs keepDoc others Hsorted).
Qed.

(** The other documents of a group are gone after the pass. *)
Lemma reconciled_deleted (store : list Document) (o : Document) :
  In o others ->
  ~ In (dollar_id o) (map dollar_id (reconciled t entries store)).
Proof.
  intros Ho.
  destruct (in_split _ _ Hin) as (pre & post & Hsplit).
  rewrite Hsplit. unfold reconciled. rewrite fold_left_app. cbn [fold_left].
  fold (reconciled t pre store).
  fold (reconciled t post (merge_entry t (reconciled t pre store) (k, docs))).
  intros H. apply reconciled_ids in H.
  rewrite merge_entry_duplicates in H.
  apply (@merged_store_ids docs t keepDoc others Hsorted) in H.
  destruct H as [_ H]. apply H. now apply in_map.
Qed.
End ReconciledGroup.

Lemma filter_has_id_absent (store : list Document) (i : string) :
  ~ In i (map dollar_id store) -> filter (has_id i) store = [].
Proof.
  induction store as [|a store IH]; cbn; [reflexivity|].
  intros H. destruct (has_id i a) eqn:E.
  - apply String.eqb_eq in E. tauto.
  - apply IH. tauto.
Qed.

Lemma filter_has_id_unique (store : list Document) (d : Document) :
  NoDup (map dollar_id store) ->
  In d store ->
  filter (has_id (dollar_id d)) store = [d].
Proof.
  induction store as [|a store IH]; cbn; [tauto|].
  intros Hnd [Heq | Hin]; inversion Hnd as [|? ? Hnotin Hnd']; subst.
  - unfold has_id at 1. rewrite String.eqb_refl.
    now rewrite filter_has_id_absent.
  - destruct (has_id (dollar_id d) a) eqn:E.
    + apply String.eqb_eq in E. exfalso. apply Hnotin. rewrite E.
      now apply in_map.
    + now apply IH.
Qed.

Lemma same_id_length (p : Document -> bool) (l : list Document) (c : string) :
  NoDup (map dollar_id l) ->
  (forall d, In d (filter p l) -> dollar_id d = c) ->
  List.length (filter p l) <= 1.
Proof.
  intros Hnd Hc. apply (filter_keys_NoDup dollar_id p) in Hnd.
  destruct (filter p l) as [|a [|b r]]; cbn; try lia.
  exfalso. cbn in Hnd. inversion Hnd as [|? ? Hnotin _]; subst.
  apply Hnotin. left.
  rewrite (Hc a), (Hc b); cbn; auto.
Qed.

Lemma group_of_In (k : Z) (docs : list Document) (d : Document) :
  In d (group_of k docs) <-> In d docs /\ movie_id d = k.
Proof.
  unfold group_of. rewrite filter_In, Z.eqb_eq. tauto.
Qed.

(** A pass over groups none of which holds duplicates does nothing. *)
Lemma reconciled_no_duplicates (t : Z) (entries : MovieGroups)
      (store : list Document) :
  (forall e, In e entries -> is_duplicate_group e = false) ->
  count_groups entries = 0 /\ count_removals entries = 0 /\
  reconciled t entries store = store.
Proof.
  unfold count_groups, count_removals, reconciled.
  induction entries as [|e entries IH]; intros H;
    cbn [filter fold_right fold_left List.length]; [auto|].
  assert (is_duplicate_group e = false) as He by (apply H; now left).
  unfold merge_entry at 2. rewrite He. cbn [Nat.add]. apply IH.
  intros e' He'. apply H. now right.
Qed.

(** After a pass over a collection that was loaded whole, no movie has
    two documents. *)
Lemma reconciled_unique (store : list Document) (t : Z) (k : Z) :
  NoDup (map dollar_id store) ->
  List.length store <= 100 ->
  List.length (group_of k (reconciled t (loaded_entries store) store)) <= 1.
Proof.
  intros Hnd Hlen.
  assert (loaded store = store) as Hload by (now apply firstn_all2).
  pose proof (reconciled_NoDup t (loaded_entries store) store Hnd) as HndF.
  assert (exists c, forall d,
             In d (group_of k (reconciled t (loaded_entries store) store)) ->
             dollar_id d = c) as [c Hc].
  { destruct (1 <? List.length (group_of k store)) eqn:Hdup.
    - apply Nat.ltb_lt in Hdup.
      destruct (@sortedDocs_nonempty (group_of k store)) as (keepDoc & others & Hs).
      { intros Hnil. rewrite Hnil in Hdup. cbn in Hdup. lia. }
      assert (In (k, group_of k store) (loaded_entries store)) as Hentry.
      { rewrite <- Hload at 1. apply loaded_entries_has.
        rewrite Hload. intros Hnil. rewrite Hnil in Hdup. cbn in Hdup. lia. }
      exists (dollar_id keepDoc). intros d Hd.
      apply group_of_In in Hd. destruct Hd as [Hd Hk].
      pose proof (in_map dollar_id _ _ Hd) as HdF.
      apply reconciled_descends in Hd. destruct Hd as (d0 & Hd0 & Hid & Hm).
      assert (In d0 (group_of k store)) as Hg by (apply group_of_In; split; congruence).
      destruct (sortedDocs_keep _ Hs) as (_ & _ & Hcases).
      destruct (Hcases d0 Hg) as [Heq | Ho]; [congruence|].
      exfalso.
      apply (@reconciled_deleted t (loaded_entries store) k (group_of k store)
               keepDoc others Hentry Hdup Hs store d0 Ho).
      now rewrite Hid.
    - apply Nat.ltb_ge in Hdup.
      destruct (group_of k store) as [|a [|b r]] eqn:Hg.
      + exists "". intros d Hd. exfalso.
        apply group_of_In in Hd. destruct Hd as [Hd Hk].
        apply reconciled_descends in Hd. destruct Hd as (d0 & Hd0 & Hid & Hm).
        assert (In d0 (group_of k store)) as Hin by (apply group_of_In; split; congruence).
        rewrite Hg in Hin. contradiction.
      + exists (dollar_id a). intros d Hd.
        apply group_of_In in Hd. destruct Hd as [Hd Hk].
        apply reconciled_descends in Hd. destruct Hd as (d0 & Hd0 & Hid & Hm).
        assert (In d0 (group_of k store)) as Hin by (apply group_of_In; split; congruence).
        rewrite Hg in Hin. destruct Hin as [Hin | []]. congruence.
      + cbn in Hdup. lia. }
  unfold group_of in *. eapply same_id_length; eauto.
Qed.

(* ----------------------------------------------------------------- *)
(** ** The duplicate reconciler *)

(** X25: what a run merges.  The run loads the first 100 documents of
    the collection.  When no remote call fails, every group of more
    than one loaded document of one movie is merged: the kept document
    is a member with the latest update time (creation time when there
    is none); after the run it holds the sum of the members' counts,
    the duplicate-free union of their term sets (a lone [searchTerm]
    counting as a set of one), in the order in which the terms come
    first when the members are gone through in the order of the
    collection and, as [lastSearchTerm], the last term of that union;
    every other member of the group is gone. *)
Theorem cleanupDuplicateMovies_merges_loaded_group (w : World) (m : Z) :
  faults w = [] ->
  NoDup (map dollar_id (documents w)) ->
  1 < List.length (group_of m (loaded (documents w))) ->
  let group := group_of m (loaded (documents w)) in
  let after := documents (snd (cleanupDuplicateMovies w)) in
  exists keepDoc others merged result,
    fst (cleanupDuplicateMovies w) = Fulfilled result /\
    result_error result = None /\
    sortedDocs group = keepDoc :: others /\
    In keepDoc group /\
    (forall d, In d group -> (stamp d <= stamp keepDoc)%Z) /\
    filter (has_id (dollar_id keepDoc)) after = [merged] /\
    movie_id merged = m /\
    count merged = fold_right Z.add 0%Z (map count group) /\
    searchTerms merged = Some (union_of group) /\
    lastSearchTerm merged = last (union_of group) "" /\
    NoDup (union_of group) /\
    (forall x, In x (union_of group) <->
               exists d, In d group /\ In x (term_set d)) /\
    (forall d, In d group -> dollar_id d <> dollar_id keepDoc ->
               ~ In (dollar_id d) (map dollar_id after)).
Proof.
  intros Hf Hnd Hdup group after.
  destruct (@sortedDocs_nonempty group) as (keepDoc & others & Hs).
  { intros Hnil. subst group. rewrite Hnil in Hdup. cbn in Hdup. lia. }
  destruct (@sortedDocs_keep group keepDoc others Hs) as (Hkeep & Hlatest & Hcases).
  assert (In (m, group) (loaded_entries (documents w))) as Hentry.
  { apply (@loaded_entries_has (documents w) m). intros Hnil. subst group.
    rewrite Hnil in Hdup. cbn in Hdup. lia. }
  assert (In keepDoc (documents w)) as HkeepW.
  { apply (@loaded_In (documents w)). subst group. now apply group_of_In in Hkeep. }
  subst after. rewrite (@cleanupDuplicateMovies_ok w Hf Hnd). cbn [fst snd].
  cbn [documents set_documents].
  exists keepDoc, others, (merged_document group (now w) keepDoc).
  eexists. split; [reflexivity|]. split; [reflexivity|].
  split; [exact Hs|]. split; [exact Hkeep|]. split; [exact Hlatest|].
  split.
  { rewrite (@reconciled_kept (now w) (loaded_entries (documents w)) m group
               keepDoc others
               (@loaded_entries_ids_NoDup (documents w) Hnd) Hentry Hdup Hs).
    now rewrite filter_has_id_unique. }
  split.
  { cbn. subst group. now apply group_of_In in Hkeep. }
  split.
  { cbn. apply totalCount_sum. }
  split.
  { cbn [merged_document touch merge_update searchTerms].
    now rewrite allSearchTerms_union_of. }
  split.
  { cbn [merged_document touch merge_update lastSearchTerm].
    unfold last_term. now rewrite allSearchTerms_union_of. }
  destruct (allSearchTerms_union group) as [Hterms Hunion].
  rewrite allSearchTerms_union_of in Hterms, Hunion.
  split; [exact Hterms|].
  split.
  { intros x. rewrite Hunion. split; intros (d & Hd & Hx); exists d;
      (split; [exact Hd|]); [rewrite <- docTerms_term_set | rewrite docTerms_term_set];
      exact Hx. }
  intros d Hd Hne.
  destruct (Hcases d Hd) as [Heq | Ho]; [congruence|].
  apply (@reconciled_deleted (now w) (loaded_entries (documents w)) m group
           keepDoc others Hentry Hdup Hs (documents w) d Ho).
Qed.

(** X26: the reconciler is idempotent on a collection it loads whole:
    on a collection of at most 100 documents, two runs in a row in
    which no remote call fails end with a second run that finds no
    duplicates, removes nothing and leaves the remote side, and so
    every kept document, as the first run left it. *)
Theorem cleanupDuplicateMovies_idempotent (w : World) :
  faults w = [] ->
  NoDup (map dollar_id (documents w)) ->
  List.length (documents w) <= 100 ->
  exists result1 w1,
    cleanupDuplicateMovies w = (Fulfilled result1, w1) /\
    result_error result1 = None /\
    cleanupDuplicateMovies w1 = (Fulfilled (mkCleanupResult 0 0 None), w1).
Proof.
  intros Hf Hnd Hlen.
  rewrite (@cleanupDuplicateMovies_ok w Hf Hnd).
  set (F := reconciled (now w) (loaded_entries (documents w)) (documents w)).
  do 2 eexists. split; [reflexivity|]. split; [reflexivity|].
  assert (NoDup (map dollar_id F)) as HndF by (now apply reconciled_NoDup).
  assert (List.length F <= 100) as HlenF.
  { etransitivity; [apply reconciled_length | exact Hlen]. }
  rewrite cleanupDuplicateMovies_ok; [| exact Hf | exact HndF].
  cbn [documents now set_documents].
  destruct (@reconciled_no_duplicates (now w) (loaded_entries F) F) as (H1 & H2 & H3).
  { intros [k ds] He. apply (@loaded_entries_In F k ds) in He. destruct He as [He _].
    unfold is_duplicate_group. cbn [snd]. apply Nat.ltb_ge. subst ds.
    assert (loaded F = F) as Hload by (now apply firstn_all2).
    rewrite Hload. subst F. now apply reconciled_unique. }
  rewrite H1, H2, H3. reflexivity.
Qed.

(** C9, as the code has it: when the [try] block fails, whatever its
    counters had reached, the function does not throw; it is fulfilled
    with both counts zero and the message of the error, and the remote
    side keeps what the block had done. *)
Theorem cleanupDuplicateMovies_failure_zeroed
        (w w' : World) (e : Thrown) (c : Counters) :
  cleanup_try w = (Rejected e, c, w') ->
  cleanupDuplicateMovies w =
    (Fulfilled (mkCleanupResult 0 0 (Some (thrown_message e))), w').
Proof.
  intros H. unfold cleanupDuplicateMovies. now rewrite H.
Qed.

(* ----------------------------------------------------------------- *)
(** ** The search aggregator *)

Lemma set_faults_same (w : World) : set_faults (faults w) w = w.
Proof. now destruct w. Qed.

(** A remote call either fails before it reaches the store or runs on
    the same collection at the same time. *)
Lemma remote_cases {A} (call : Async World A) (w : World) :
  (exists fs, remote call w = (Rejected network_error, set_faults fs w)) \/
  (exists fs, remote call w = call (set_faults fs w)).
Proof.
  unfold remote. destruct (faults w) as [|[|] fs] eqn:Hf; eauto.
  right. exists []. now rewrite <- Hf, set_faults_same.
Qed.

Lemma remote_no_faults {A} (call : Async World A) (w : World) :
  faults w = [] -> remote call w = call w.
Proof. intros H. unfold remote. now rewrite H. Qed.

Lemma string_of_length_length (n : nat) :
  String.length (string_of_length n) = n.
Proof. induction n; cbn; congruence. Qed.

Lemma fresh_id_fresh (docs : list Document) :
  existsb (has_id (fresh_id docs)) docs = false.
Proof.
  destruct (existsb (has_id (fresh_id docs)) docs) eqn:E; [|reflexivity].
  exfalso. apply existsb_exists in E. destruct E as (d & Hd & Heq).
  apply String.eqb_eq in Heq. apply (f_equal String.length) in Heq.
  unfold fresh_id in Heq. rewrite string_of_length_length in Heq.
  assert (String.length (dollar_id d) <=
          fold_right (fun d n => Nat.max (String.length (dollar_id d)) n) 0 docs)
    as Hle.
  { clear Heq. induction docs as [|a docs IH]; cbn; [contradiction|].
    destruct Hd as [-> | Hd]; [lia|]. specialize (IH Hd). lia. }
  lia.
Qed.

Lemma find_group_head (k : Z) (docs : list Document) :
  match firstn 25 (filter (fun d => forallb (fun q => query_keeps q d)
                                            [Query_equal_movie_id k]) docs) with
  | existingDoc :: _ =>
      find (fun d => (movie_id d =? k)%Z) docs = Some existingDoc
  | [] => find (fun d => (movie_id d =? k)%Z) docs = None
  end.
Proof.
  induction docs as [|a docs IH]; cbn [filter find forallb query_keeps].
  - reflexivity.
  - rewrite andb_true_r. destruct (movie_id a =? k)%Z.
    + now rewrite firstn_cons.
    + exact IH.
Qed.

Lemma find_In_movie (k : Z) (docs : list Document) (d : Document) :
  find (fun d => (movie_id d =? k)%Z) docs = Some d ->
  In d docs /\ movie_id d = k.
Proof.
  intros H. apply find_some in H. now rewrite Z.eqb_eq in H.
Qed.

Section Overwrite.
Variable i : string.
Variable f : Document -> Document.
Hypothesis f_id : forall d, dollar_id (f d) = dollar_id d.




End Overwrite.

Lemma listDocuments_cases (queries : list Query) (w : World) :
  (exists fs, listDocuments queries w = (Rejected network_error, set_faults fs w)) \/
  (exists fs, listDocuments queries w =
                (Fulfilled (select_documents queries (documents w)),
                 set_faults fs w)).
Proof.
  unfold listDocuments.
  destruct (remote_cases
              (fun w0 => (Fulfilled (select_documents queries (documents w0)), w0)) w)
    as [[fs H] | [fs H]]; rewrite H; eauto.
Qed.

Lemma updateDocument_cases (id : string) (data : Document -> Document)
      (w : World) :
  In id (map dollar_id (documents w)) ->
  (exists fs, updateDocument id data w = (Rejected network_error, set_faults fs w)) \/
  (exists fs, updateDocument id data w =
                (Fulfilled tt,
                 set_documents
                   (map (fun d => if has_id id d then touch (now w) (data d) else d)
                        (documents w))
                   (set_faults fs w))).
Proof.
  intros Hin. apply has_id_In in Hin. unfold updateDocument, remote.
  destruct (faults w) as [|[|] fs] eqn:Hf.
  - right. exists []. rewrite Hin. now rewrite <- Hf, set_faults_same.
  - left. eauto.
  - right. exists fs. cbn [documents set_faults now]. now rewrite Hin.
Qed.


Lemma select_equal_head (k : Z) (docs : list Document) :
  match select_documents [Query_equal_movie_id k] docs with
  | existingDoc :: _ =>
      find (fun d => (movie_id d =? k)%Z) docs = Some existingDoc
  | [] => find (fun d => (movie_id d =? k)%Z) docs = None
  end.
Proof.
  unfold select_documents, query_orders, query_limit.
  cbn [existsb fold_left orb]. apply find_group_head.
Qed.

Section SearchAggregator.
Variable query : string.
Variable movie : Movie.t.

Let operation := updateSearchCount_operation query movie.

End SearchAggregator.

Section SearchAggregatorRun.
Variable query : string.
Variable movie : Movie.t.

Lemma updateSearchCount_operation_no_faults (w : World) :
  faults w = [] ->
  NoDup (map dollar_id (documents w)) ->
  fst (updateSearchCount_operation query movie w) = Fulfilled tt.
Proof.
  intros Hf Hnd. unfold updateSearchCount_operation, bind, listDocuments.
  rewrite remote_no_faults by exact Hf.
  pose proof (select_equal_head (Movie.id movie) (documents w)) as Hhead.
  destruct (select_documents _ (documents w)) as [|existingDoc rest].
  - unfold new_Date, createDocument. rewrite remote_no_faults by exact Hf.
    cbn [String.eqb Ascii.eqb Bool.eqb andb]. now rewrite fresh_id_fresh.
  - apply find_In_movie in Hhead. destruct Hhead as [Hin _].
    unfold new_Date. rewrite updateDocument_ok; [reflexivity | exact Hf |].
    now apply in_map.
Qed.

(** When no remote call fails the first attempt is the whole call. *)
Lemma updateSearchCount_first_attempt (w : World) :
  faults w = [] ->
  NoDup (map dollar_id (documents w)) ->
  updateSearchCount query movie w = updateSearchCount_operation query movie w /\
  fst (updateSearchCount query movie w) = Fulfilled tt.
Proof.
  intros Hf Hnd. unfold updateSearchCount, retryWithBackoff.
  cbn [for_loop Nat.ltb Nat.leb].
  pose proof (updateSearchCount_operation_no_faults w Hf Hnd) as Hok.
  destruct (updateSearchCount_operation query movie w) as [[[]|e] w'];
    cbn in Hok; [auto | discriminate].
Qed.

End SearchAggregatorRun.

Lemma batman_rows_ids : NoDup (map dollar_id (documents batman_rows)).
Proof.
  cbn. repeat constructor; cbn; intuition discriminate.
Qed.


(** The two tests the specification asks for, on the rows of movie 42:
    a new term is appended and counted, a repeated term is counted
    without being appended. *)
Example updateSearchCount_new_term :
  map (fun d => (dollar_id d, count d, searchTerms d, lastSearchTerm d))
      (documents (snd (updateSearchCount "joker" batman_movie batman_rows))) =
  [("a", 4%Z, Some ["batman"; "joker"], "joker");
   ("b", 1%Z, Some ["dark knight"], "dark knight");
   ("c", 2%Z, Some ["batman"; "joker"], "joker")].
Proof. vm_compute. reflexivity. Qed.

Example updateSearchCount_repeated_term :
  map (fun d => (dollar_id d, count d, searchTerms d, lastSearchTerm d))
      (documents (snd (updateSearchCount "batman" batman_movie batman_rows))) =
  [("a", 4%Z, Some ["batman"], "batman");
   ("b", 1%Z, Some ["dark knight"], "dark knight");
   ("c", 2%Z, Some ["batman"; "joker"], "joker")].
Proof. vm_compute. reflexivity. Qed.

(** A record of the old structure, with a lone [searchTerm]: the term
    counts as its term set, and the query is added after it. *)
Example updateSearchCount_legacy_record :
  map (fun d => (dollar_id d, count d, searchTerms d, lastSearchTerm d))
      (documents
         (snd (updateSearchCount "joker" batman_movie
                 (mkWorld [mkDocument "a" 0 None None (Some "batman") "batman"
                                      3 42 "p" "Batman" None None 0]
                          1000 [])))) =
  [("a", 4%Z, Some ["batman"; "joker"], "joker")].
Proof. vm_compute. reflexivity. Qed.

Example updateSearchCount_first_search :
  map (fun d => (count d, searchTerms d, lastSearchTerm d, movie_id d))
      (documents (snd (updateSearchCount "batman" batman_movie
                         (mkWorld [] 1000 [])))) =
  [(1%Z, Some ["batman"], "batman", 42%Z)].
Proof. vm_compute. reflexivity. Qed.

(* ----------------------------------------------------------------- *)
(** ** The reconciler and the trend reader on example collections *)

Lemma distinct_NoDup (l : list string) : distinct l = true -> NoDup l.
Proof.
  induction l as [|x l IH]; cbn; [constructor|].
  intros H. apply andb_true_iff in H. destruct H as [Hx Hl].
  constructor; [|now apply IH].
  intros Hin. apply negb_true_iff in Hx.
  assert (existsb (String.eqb x) l = true) as Habs.
  { apply existsb_exists. exists x. split; [exact Hin | apply String.eqb_refl]. }
  congruence.
Qed.

(** The example of the specification: the three rows of movie 42
    become one row with count 6 and the three terms. *)
Example cleanupDuplicateMovies_batman :
  fst (cleanupDuplicateMovies batman_rows) =
    Fulfilled (mkCleanupResult 1 2 None) /\
  map (fun d => (dollar_id d, movie_id d, count d, searchTerms d, lastSearchTerm d))
      (documents (snd (cleanupDuplicateMovies batman_rows))) =
  [("b", 42%Z, 6%Z, Some ["batman"; "dark knight"; "joker"], "joker")].
Proof. vm_compute. split; reflexivity. Qed.

Lemma cleanupDuplicateMovies_merges_loaded_group_witness :
  let group := group_of 42 (loaded (documents batman_rows)) in
  let after := documents (snd (cleanupDuplicateMovies batman_rows)) in
  exists keepDoc others merged result,
    fst (cleanupDuplicateMovies batman_rows) = Fulfilled result /\
    result_error result = None /\
    sortedDocs group = keepDoc :: others /\
    In keepDoc group /\
    (forall d, In d group -> (stamp d <= stamp keepDoc)%Z) /\
    filter (has_id (dollar_id keepDoc)) after = [merged] /\
    movie_id merged = 42%Z /\
    count merged = fold_right Z.add 0%Z (map count group) /\
    searchTerms merged = Some (union_of group) /\
    lastSearchTerm merged = last (union_of group) "" /\
    NoDup (union_of group) /\
    (forall x, In x (union_of group) <->
               exists d, In d group /\ In x (term_set d)) /\
    (forall d, In d group -> dollar_id d <> dollar_id keepDoc ->
               ~ In (dollar_id d) (map dollar_id after)).
Proof.
  apply (@cleanupDuplicateMovies_merges_loaded_group batman_rows 42%Z).
  - reflexivity.
  - apply distinct_NoDup. vm_compute. reflexivity.
  - vm_compute. lia.
Defined.

(** C3: the code departs from the claim that every group of more than
    one record of a movie is merged.  The run means to 'Get all
    documents' but lists the collection with [Query.limit(100)]: of
    101 rows it loads 100, so the two rows of movie 42, the first and
    the last of the collection, are not merged; after a run in which
    no call fails it reports no duplicates and both rows are there as
    before, with their own counts and terms. *)
Lemma cleanupDuplicateMovies_misses_unloaded_member :
  faults split_group_store = [] /\
  NoDup (map dollar_id (documents split_group_store)) /\
  List.length (group_of 42 (documents split_group_store)) = 2 /\
  fst (cleanupDuplicateMovies split_group_store) =
    Fulfilled (mkCleanupResult 0 0 None) /\
  map (fun d => (dollar_id d, count d, searchTerms d))
      (group_of 42 (documents (snd (cleanupDuplicateMovies split_group_store)))) =
  [("a", 3%Z, Some ["batman"]); ("b", 1%Z, Some ["dark knight"])].
Proof.
  split; [reflexivity|].
  split; [apply distinct_NoDup; vm_compute; reflexivity|].
  vm_compute. repeat split; reflexivity.
Qed.

Lemma cleanupDuplicateMovies_idempotent_witness :
  exists result1 w1,
    cleanupDuplicateMovies batman_rows = (Fulfilled result1, w1) /\
    result_error result1 = None /\
    cleanupDuplicateMovies w1 = (Fulfilled (mkCleanupResult 0 0 None), w1).
Proof.
  apply (@cleanupDuplicateMovies_idempotent batman_rows).
  - reflexivity.
  - apply distinct_NoDup. vm_compute. reflexivity.
  - vm_compute. lia.
Defined.

(** C5: the code departs from the claim that a second run in a row
    removes nothing.  The run means to 'Get all documents' but lists
    the collection with [Query.limit(100)]: on a collection of 101
    rows the first run merges the two rows of movie 42 among the 100
    it loads; the last row then comes within reach, and the second
    run, with no write in between and no failing call, removes it as
    a duplicate of movie 1001. *)
Lemma cleanupDuplicateMovies_second_run_removes :
  let first := cleanupDuplicateMovies late_duplicate_store in
  let second := cleanupDuplicateMovies (snd first) in
  faults late_duplicate_store = [] /\
  NoDup (map dollar_id (documents late_duplicate_store)) /\
  fst first = Fulfilled (mkCleanupResult 1 1 None) /\
  fst second = Fulfilled (mkCleanupResult 1 1 None) /\
  (forall r, fst second = Fulfilled r -> result_duplicatesRemoved r <> 0).
Proof.
  cbn zeta.
  split; [reflexivity|].
  split; [apply distinct_NoDup; vm_compute; reflexivity|].
  assert (fst (cleanupDuplicateMovies (snd (cleanupDuplicateMovies late_duplicate_store)))
          = Fulfilled (mkCleanupResult 1 1 None)) as H2
    by (vm_compute; reflexivity).
  split; [vm_compute; reflexivity|].
  split; [exact H2|].
  intros r Hr. rewrite H2 in Hr. inversion Hr. cbn. lia.
Qed.

(** C9 as stated does not hold: the second deletion of the run fails
    after one group was found and one row removed, which the store
    shows, yet the object returned holds zero for both counts. *)
Lemma cleanupDuplicateMovies_drops_progress :
  snd (fst (cleanup_try batman_rows_failing)) = mkCounters 1 1 /\
  List.length (documents batman_rows_failing) = 3 /\
  List.length (documents (snd (cleanupDuplicateMovies batman_rows_failing))) = 2 /\
  fst (cleanupDuplicateMovies batman_rows_failing) =
    Fulfilled (mkCleanupResult 0 0 (Some (Some "Network request failed"))).
Proof. vm_compute. repeat split; reflexivity. Qed.

Lemma cleanupDuplicateMovies_failure_zeroed_witness :
  cleanupDuplicateMovies batman_rows_failing =
    (Fulfilled (mkCleanupResult 0 0 (Some (thrown_message network_error))),
     snd (cleanup_try batman_rows_failing)).
Proof.
  apply (@cleanupDuplicateMovies_failure_zeroed batman_rows_failing
           (snd (cleanup_try batman_rows_failing)) network_error (mkCounters 1 1)).
  vm_compute. reflexivity.
Defined.

(** The trend reader on the three rows of movie 42, before any
    reconciliation: one row comes back, the one the store lists first. *)
Example getTrendingMovies_duplicates :
  fst (getTrendingMovies batman_rows) =
    Fulfilled [example_row "a" 42 3 ["batman"] 10].
Proof. vm_compute. reflexivity. Qed.

(** The trend reader when no attempt reaches the store. *)
Example getTrendingMovies_unreachable :
  fst (getTrendingMovies batman_rows_unreachable) = Fulfilled [].
Proof. vm_compute. reflexivity. Qed.

Lemma getTrendingMovies_never_throws_witness :
  fst (getTrendingMovies batman_rows_unreachable) = Fulfilled [].
Proof.
  destruct (getTrendingMovies_never_throws batman_rows_unreachable)
    as (_ & Hcatch & Hfails).
  destruct (Hfails eq_refl) as [t Ht].
  exact (Hcatch t Ht).
Defined.

(* ----------------------------------------------------------------- *)
(** ** The fetch controller without retries *)

Lemma length_set_nth {A} (i : nat) (x : A) (l : list A) :
  List.length (set_nth i x l) = List.length l.
Proof.
  revert i. induction l as [|y l IH]; intros [|i]; cbn; auto.
Qed.

Lemma nth_error_set_nth_same {A} (i : nat) (x y : A) (l : list A) :
  nth_error l i = Some y -> nth_error (set_nth i x l) i = Some x.
Proof.
  revert i. induction l as [|z l IH]; intros [|i]; cbn; try discriminate; auto.
Qed.

Lemma nth_error_set_nth_other {A} (i j : nat) (x : A) (l : list A) :
  i <> j -> nth_error (set_nth i x l) j = nth_error l j.
Proof.
  revert i j. induction l as [|z l IH]; intros [|i] [|j] H; cbn; auto.
  contradiction.
Qed.

Section WithoutRetries.
Variable T : Type.

Lemma initial_well_numbered : well_numbered (@initial T).
Proof.
  repeat split. intros [|i] call H; discriminate.
Qed.

(** Replacing a waiting call by an ended one keeps the numbering. *)
Lemma well_numbered_resume (c : Config T) (i : nat) (h : Hook T) (call old : Call T) :
  well_numbered c ->
  nth_error (calls c) i = Some old ->
  isMountedRef h = true ->
  requestIdRef h = requestIdRef (hook c) ->
  settled call = true ->
  well_numbered (resume i (h, call) c).
Proof.
  intros (Hm & Hid & Hcalls) Hold Hm' Hid' Hs. unfold resume. cbn [fst snd].
  repeat split; cbn [hook calls]; [exact Hm' | now rewrite length_set_nth, Hid' |].
  intros j call' Hj. destruct (Nat.eq_dec i j) as [<- | Hne].
  - rewrite (nth_error_set_nth_same _ _ _ Hold) in Hj. inversion Hj; subst.
    destruct call'; cbn in Hs; try discriminate; exact I.
  - rewrite nth_error_set_nth_other in Hj by exact Hne. now apply Hcalls.
Qed.

Lemma on_result_hook (requestId : nat) (v : T) (h : Hook T) :
  isMountedRef (fst (on_result requestId v h)) = isMountedRef h /\
  requestIdRef (fst (on_result requestId v h)) = requestIdRef h /\
  settled (snd (on_result requestId v h)) = true.
Proof. unfold on_result. destruct (still_latest requestId h); cbn; auto. Qed.

Lemma on_error_hook (requestId retryCount : nat) (err : Thrown) (h : Hook T) :
  isMountedRef (fst (on_error 0 requestId retryCount err h)) = isMountedRef h /\
  requestIdRef (fst (on_error 0 requestId retryCount err h)) = requestIdRef h /\
  settled (snd (on_error 0 requestId retryCount err h)) = true.
Proof.
  unfold on_error. cbn [Nat.ltb Nat.leb].
  destruct (still_latest requestId h); cbn; auto.
Qed.

Lemma step_well_numbered (c : Config T) (ev : Event T) :
  plain ev = true -> well_numbered c -> well_numbered (step 0 c ev).
Proof.
  intros Hplain Hwn. pose proof Hwn as (Hm & Hid & Hcalls).
  destruct ev as [|i v|i err|i| | |]; cbn [step]; try discriminate.
  - unfold enter_fetchData. cbn [Nat.eqb]. repeat split; cbn [hook calls].
    + exact Hm.
    + cbn. rewrite length_app. cbn. lia.
    + intros j call Hj.
      destruct (Nat.lt_ge_cases j (List.length (calls c))) as [Hlt | Hge].
      * rewrite nth_error_app1 in Hj by exact Hlt. now apply Hcalls.
      * rewrite nth_error_app2 in Hj by exact Hge.
        destruct (j - List.length (calls c)) as [|k] eqn:Hk; cbn in Hj.
        -- inversion Hj; subst. rewrite Hid. f_equal. lia.
        -- destruct k; discriminate.
  - destruct (nth_error (calls c) i) as [[rid rc|rc|r|e]|] eqn:Hcall; try exact Hwn.
    destruct (on_result_hook rid v (hook c)) as (H1 & H2 & H3).
    rewrite (surjective_pairing (on_result rid v (hook c))).
    eapply well_numbered_resume; eauto; congruence.
  - destruct (nth_error (calls c) i) as [[rid rc|rc|r|e]|] eqn:Hcall; try exact Hwn.
    destruct (on_error_hook rid rc err (hook c)) as (H1 & H2 & H3).
    rewrite (surjective_pairing (on_error 0 rid rc err (hook c))).
    eapply well_numbered_resume; eauto; congruence.
  - destruct (nth_error (calls c) i) as [[rid rc|rc|r|e]|] eqn:Hcall; try exact Hwn.
    exfalso. exact (Hcalls _ _ Hcall).
  - exact Hwn.
Qed.

Lemma run_well_numbered (events : list (Event T)) :
  forall c,
    forallb plain events = true -> well_numbered c ->
    well_numbered (run 0 events c).
Proof.
  unfold run. induction events as [|ev events IH]; intros c Hp Hwn; cbn; [exact Hwn|].
  cbn in Hp. apply andb_true_iff in Hp. destruct Hp as [Hev Hp].
  apply IH; [exact Hp | now apply step_well_numbered].
Qed.

(** A call that is not the latest changes nothing when its fetch
    settles. *)
Lemma superseded_result_dropped (h : Hook T) (requestId : nat) (v : T) :
  requestId <> requestIdRef h ->
  on_result requestId v h = (h, Returned None).
Proof.
  intros H. unfold on_result, still_latest.
  apply Nat.eqb_neq in H. now rewrite H.
Qed.

Lemma superseded_error_dropped (h : Hook T) (requestId retryCount : nat)
      (err : Thrown) :
  requestId <> requestIdRef h ->
  on_error 0 requestId retryCount err h = (h, Threw (as_Error err)).
Proof.
  intros H. unfold on_error, still_latest. cbn [Nat.ltb Nat.leb].
  apply Nat.eqb_neq in H. now rewrite H.
Qed.

(** Once the last call has ended nothing that follows, short of a new
    call, changes what is observed. *)
Lemma step_last_done (n : nat) (c : Config T) (ev : Event T) :
  plain ev = true -> issues_nothing ev = true ->
  last_done n c ->
  last_done n (step 0 c ev) /\ observable (step 0 c ev) = observable c.
Proof.
  intros Hplain Hissue (Hwn & Hlen & call & Hcall & Hs).
  pose proof (@step_well_numbered c ev Hplain Hwn) as Hwn'.
  pose proof Hwn as (Hm & Hid & Hcalls).
  assert (forall i rid rc, nth_error (calls c) i = Some (AwaitingFetch rid rc) ->
                           rid <> requestIdRef (hook c) /\ i <> n) as Hother.
  { intros i rid rc Hi. pose proof (Hcalls _ _ Hi) as Hrid. cbn in Hrid.
    assert (i <> n) as Hne.
    { intros ->. rewrite Hcall in Hi. inversion Hi; subst. discriminate. }
    split; [|exact Hne].
    assert (i < List.length (calls c)) by (apply nth_error_Some; congruence).
    lia. }
  destruct ev as [|i v|i err|i| | |]; try discriminate; cbn [step] in *.
  - destruct (nth_error (calls c) i) as [[rid rc|rc|r|e]|] eqn:Hi;
      try (split; [repeat split; eauto | reflexivity]).
    destruct (Hother _ _ _ Hi) as [Hrid Hne].
    rewrite superseded_result_dropped by exact Hrid.
    rewrite superseded_result_dropped in Hwn' by exact Hrid.
    split; [|reflexivity]. split; [exact Hwn'|]. unfold resume. cbn [calls fst snd].
    split; [now rewrite length_set_nth|].
    exists call. rewrite nth_error_set_nth_other by exact Hne. auto.
  - destruct (nth_error (calls c) i) as [[rid rc|rc|r|e]|] eqn:Hi;
      try (split; [repeat split; eauto | reflexivity]).
    destruct (Hother _ _ _ Hi) as [Hrid Hne].
    rewrite superseded_error_dropped by exact Hrid.
    rewrite superseded_error_dropped in Hwn' by exact Hrid.
    split; [|reflexivity]. split; [exact Hwn'|]. unfold resume. cbn [calls fst snd].
    split; [now rewrite length_set_nth|].
    exists call. rewrite nth_error_set_nth_other by exact Hne. auto.
  - destruct (nth_error (calls c) i) as [[rid rc|rc|r|e]|] eqn:Hi;
      try (split; [repeat split; eauto | reflexivity]).
    exfalso. exact (Hcalls _ _ Hi).
  - split; [|reflexivity]. split; [exact Hwn'|]. cbn [calls]. eauto.
Qed.

Lemma run_last_done (n : nat) (events : list (Event T)) :
  forall c,
    forallb plain events = true -> forallb issues_nothing events = true ->
    last_done n c ->
    observable (run 0 events c) = observable c.
Proof.
  unfold run. induction events as [|ev events IH]; intros c Hp Hi Hd; cbn;
    [reflexivity|].
  cbn in Hp, Hi. apply andb_true_iff in Hp, Hi.
  destruct Hp as [Hev Hp], Hi as [Hev' Hi].
  destruct (@step_last_done n c ev Hev Hev' Hd) as [Hd' Hobs].
  rewrite IH; auto.
Qed.
End WithoutRetries.

Section LastCallWins.
Variable T : Type.

(** While the last call is waiting, the only event that changes what is
    observed is the settling of its own fetch. *)
Lemma step_last_pending (n : nat) (c : Config T) (ev : Event T) :
  plain ev = true -> issues_nothing ev = true ->
  last_pending n c ->
  match ev with
  | FetchResolves j v =>
      if j =? n
      then last_done n (step 0 c ev) /\
           observable (step 0 c ev) = (Some v, None, false)
      else last_pending n (step 0 c ev)
  | FetchRejects j err =>
      if j =? n
      then last_done n (step 0 c ev) /\
           observable (step 0 c ev) =
             (data (state (hook c)), Some (as_Error err), false)
      else last_pending n (step 0 c ev)
  | _ => last_pending n (step 0 c ev)
  end.
Proof.
  intros Hplain Hissue (Hwn & Hlen & (rc0 & Hcall) & Hload & Herr).
  pose proof (@step_well_numbered T c ev Hplain Hwn) as Hwn'.
  pose proof Hwn as (Hm & Hid & Hcalls).
  assert (forall i rid rc, i <> n ->
                           nth_error (calls c) i = Some (AwaitingFetch rid rc) ->
                           rid <> requestIdRef (hook c)) as Hother.
  { intros i rid rc Hne Hi. pose proof (Hcalls _ _ Hi) as Hrid. cbn in Hrid.
    assert (i < List.length (calls c)) by (apply nth_error_Some; congruence).
    lia. }
  assert (still_latest (S n) (hook c) = true) as Hlatest.
  { unfold still_latest. rewrite Hm, Hid, Hlen, Nat.eqb_refl. reflexivity. }
  destruct ev as [|j v|j err|j| | |]; try discriminate; cbn [step] in *.
  - destruct (j =? n) eqn:Hj.
    + apply Nat.eqb_eq in Hj. subst j. rewrite Hcall in *.
      unfold on_result in *. rewrite Hlatest in *. split; [|reflexivity].
      split; [exact Hwn'|]. unfold resume. cbn [calls fst snd].
      split; [now rewrite length_set_nth|].
      eexists. split; [eapply nth_error_set_nth_same; eauto | reflexivity].
    + apply Nat.eqb_neq in Hj.
      destruct (nth_error (calls c) j) as [[rid rc|rc|r|e]|] eqn:Hi;
        try solve [repeat split; eauto].
      pose proof (Hother _ _ _ Hj Hi) as Hrid.
      rewrite superseded_result_dropped in * by exact Hrid.
      split; [exact Hwn'|]. unfold resume. cbn [hook calls fst snd].
      split; [now rewrite length_set_nth|].
      split; [|auto]. exists rc0. now rewrite nth_error_set_nth_other.
  - destruct (j =? n) eqn:Hj.
    + apply Nat.eqb_eq in Hj. subst j. rewrite Hcall in *.
      unfold on_error in *. cbn [Nat.ltb Nat.leb] in *. rewrite Hlatest in *.
      split; [|reflexivity].
      split; [exact Hwn'|]. unfold resume. cbn [calls fst snd].
      split; [now rewrite length_set_nth|].
      eexists. split; [eapply nth_error_set_nth_same; eauto | reflexivity].
    + apply Nat.eqb_neq in Hj.
      destruct (nth_error (calls c) j) as [[rid rc|rc|r|e]|] eqn:Hi;
        try solve [repeat split; eauto].
      pose proof (Hother _ _ _ Hj Hi) as Hrid.
      rewrite superseded_error_dropped in * by exact Hrid.
      split; [exact Hwn'|]. unfold resume. cbn [hook calls fst snd].
      split; [now rewrite length_set_nth|].
      split; [|auto]. exists rc0. now rewrite nth_error_set_nth_other.
  - destruct (nth_error (calls c) j) as [[rid rc|rc|r|e]|] eqn:Hi;
      try solve [repeat split; eauto].
    exfalso. exact (Hcalls _ _ Hi).
  - split; [exact Hwn'|]. cbn. eauto.
Qed.

Lemma run_last_pending (n : nat) (events : list (Event T)) :
  forall c,
    forallb plain events = true -> forallb issues_nothing events = true ->
    last_pending n c ->
    let st := state (hook (run 0 events c)) in
    match first_settlement n events with
    | Some (inl v) => data st = Some v /\ error st = None /\ loading st = false
    | Some (inr err) => error st = Some (as_Error err) /\ loading st = false
    | None => loading st = true /\ error st = None
    end.
Proof.
  induction events as [|ev events IH]; intros c Hp Hi Hpend; cbn zeta.
  - cbn. destruct Hpend as (_ & _ & _ & Hl & He). auto.
  - cbn in Hp, Hi. apply andb_true_iff in Hp, Hi.
    destruct Hp as [Hev Hp], Hi as [Hev' Hi].
    pose proof (@step_last_pending n c ev Hev Hev' Hpend) as Hstep.
    change (run 0 (ev :: events) c) with (run 0 events (step 0 c ev)).
    destruct ev as [|j v|j err|j| | |]; try discriminate;
      cbn [first_settlement]; try (apply IH; assumption).
    + destruct (j =? n); [|apply IH; assumption].
      destruct Hstep as [Hdone Hobs].
      pose proof (@run_last_done T n events _ Hp Hi Hdone) as Hkeep.
      rewrite Hobs in Hkeep. unfold observable in Hkeep.
      inversion Hkeep. auto.
    + destruct (j =? n); [|apply IH; assumption].
      destruct Hstep as [Hdone Hobs].
      pose proof (@run_last_done T n events _ Hp Hi Hdone) as Hkeep.
      rewrite Hobs in Hkeep. unfold observable in Hkeep.
      inversion Hkeep. auto.
Qed.

(** What C1 asks for holds of a hook without retries (the default):
    after any history of calls and settlements on a mounted hook that
    is not reset, the call issued last decides what is observed, in
    whatever order the fetches of the earlier calls settle, before or
    after its own. *)
Lemma useFetch_last_call_wins_without_retries
      (earlier later : list (Event T)) :
  forallb plain earlier = true ->
  forallb plain later = true ->
  forallb issues_nothing later = true ->
  let last := List.length (calls (run 0 earlier initial)) in
  let st := state (hook (run 0 (earlier ++ CallFetchData :: later) initial)) in
  match first_settlement last later with
  | Some (inl v) => data st = Some v /\ error st = None /\ loading st = false
  | Some (inr err) => error st = Some (as_Error err) /\ loading st = false
  | None => loading st = true /\ error st = None
  end.
Proof.
  intros He Hl Hi last st. subst st.
  set (c1 := run 0 earlier initial) in *.
  assert (run 0 (earlier ++ CallFetchData :: later) initial =
          run 0 later (step 0 c1 CallFetchData)) as Hrun.
  { unfold run, c1. now rewrite fold_left_app. }
  rewrite Hrun.
  assert (well_numbered c1) as Hwn
    by (apply run_well_numbered; [exact He | apply initial_well_numbered]).
  apply (@run_last_pending last later (step 0 c1 CallFetchData) Hl Hi).
  pose proof (@step_well_numbered T c1 CallFetchData eq_refl Hwn) as Hwn'.
  destruct Hwn as (Hm & Hid & Hcalls).
  split; [exact Hwn'|]. cbn [step enter_fetchData Nat.eqb hook calls].
  split; [rewrite length_app; cbn; subst last; lia|].
  split; [|cbn; auto].
  exists 0. rewrite nth_error_app2 by (subst last; lia).
  subst last. rewrite Nat.sub_diag, Hid. reflexivity.
Qed.
End LastCallWins.

(** The test of the specification on a hook without retries: call 0 is
    slow, call 1 is quick; the result of call 1 is committed and the
    late result of call 0 is dropped. *)
Example useFetch_slow_first_call :
  let c := run 0 [CallFetchData; CallFetchData;
                  FetchResolves 1 "B"; FetchResolves 0 "A"] initial in
  all_settled c = true /\
  calls c = [Returned None; Returned (Some "B")] /\
  data (state (hook c)) = Some "B" /\
  error (state (hook c)) = None.
Proof. cbv. repeat split; reflexivity. Qed.

(* ----------------------------------------------------------------- *)
(** ** Further properties of the fetch controller *)

Section UseFetchSteps.
Variable T : Type.
Variable retries : nat.

Lemma resume_calls (i : nat) (r : Hook T * Call T) (c : Config T) (old : Call T) :
  nth_error (calls c) i = Some old ->
  nth_error (calls (resume i r c)) i = Some (snd r).
Proof.
  intros H. unfold resume. cbn [calls]. eapply nth_error_set_nth_same; eauto.
Qed.

(** X1: when the fetch of the latest request resolves on a mounted
    hook, the result is committed: [data] holds it, [loading], [error]
    and [isStale] are cleared, and [fetchData] returns the result. *)
Theorem success_commit (c : Config T) (i requestId retryCount : nat) (v : T) :
  nth_error (calls c) i = Some (AwaitingFetch requestId retryCount) ->
  requestId = requestIdRef (hook c) ->
  isMountedRef (hook c) = true ->
  let c' := step retries c (FetchResolves i v) in
  state (hook c') = mkState (Some v) false None false /\
  nth_error (calls c') i = Some (Returned (Some v)) /\
  requestIdRef (hook c') = requestIdRef (hook c).
Proof.
  intros Hcall Hid Hm. cbn zeta. unfold step. rewrite Hcall.
  assert (on_result requestId v (hook c) =
          (set_state (fun prev => mkState (Some v) false None false) (hook c),
           Returned (Some v))) as Hres.
  { unfold on_result, still_latest. now rewrite Hid, Nat.eqb_refl, Hm. }
  rewrite Hres. split; [reflexivity|]. split; [|reflexivity].
  now rewrite (resume_calls _ _ _ Hcall).
Qed.

(** X2: a fetch that settles for a request that is no longer the
    latest changes nothing in the hook: a result is dropped and
    [fetchData] returns [null]; a failure with no retry left is thrown
    to the caller without being committed. *)
Theorem superseded_settlement_dropped
        (c : Config T) (i requestId retryCount : nat) (v : T) (err : Thrown) :
  nth_error (calls c) i = Some (AwaitingFetch requestId retryCount) ->
  requestId <> requestIdRef (hook c) ->
  (hook (step retries c (FetchResolves i v)) = hook c /\
   nth_error (calls (step retries c (FetchResolves i v))) i = Some (Returned None)) /\
  (~ retryCount < retries ->
   hook (step retries c (FetchRejects i err)) = hook c /\
   nth_error (calls (step retries c (FetchRejects i err))) i =
     Some (Threw (as_Error err))).
Proof.
  intros Hcall Hne. apply Nat.eqb_neq in Hne. split.
  - unfold step. rewrite Hcall.
    assert (on_result requestId v (hook c) = (hook c, Returned None)) as Hres.
    { unfold on_result, still_latest. now rewrite Hne. }
    rewrite Hres. split; [reflexivity|].
    now rewrite (resume_calls _ _ _ Hcall).
  - intros Hlast. unfold step. rewrite Hcall.
    assert (on_error retries requestId retryCount err (hook c) =
            (hook c, Threw (as_Error err))) as Hres.
    { unfold on_error, still_latest.
      assert ((retryCount <? retries) = false) as Hlt by (apply Nat.ltb_ge; lia).
      now rewrite Hlt, Hne. }
    rewrite Hres. split; [reflexivity|].
    now rewrite (resume_calls _ _ _ Hcall).
Qed.

(** X3: a failure with a retry left commits nothing, and the retry
    that follows the delay leaves the state alone ([loading] is not set
    again, [error] is not cleared) but takes a new request id: from
    then on the retried call is the latest request, whatever calls
    were issued since it started. *)
Theorem retry_takes_new_request_id
        (c : Config T) (i requestId retryCount : nat) (err : Thrown) :
  nth_error (calls c) i = Some (AwaitingFetch requestId retryCount) ->
  retryCount < retries ->
  let c1 := step retries c (FetchRejects i err) in
  let c2 := step retries c1 (DelayElapses i) in
  hook c1 = hook c /\
  nth_error (calls c1) i = Some (AwaitingDelay retryCount) /\
  state (hook c2) = state (hook c) /\
  requestIdRef (hook c2) = S (requestIdRef (hook c)) /\
  nth_error (calls c2) i =
    Some (AwaitingFetch (S (requestIdRef (hook c))) (retryCount + 1)).
Proof.
  intros Hcall Hlt. cbn zeta.
  assert (step retries c (FetchRejects i err) =
          resume i (hook c, AwaitingDelay retryCount) c) as H1.
  { unfold step. rewrite Hcall. unfold on_error.
    apply Nat.ltb_lt in Hlt. now rewrite Hlt. }
  rewrite H1.
  assert (nth_error (calls (resume i (hook c, AwaitingDelay retryCount) c)) i =
          Some (AwaitingDelay retryCount)) as Hwait
    by (now rewrite (resume_calls _ _ _ Hcall)).
  split; [reflexivity|]. split; [exact Hwait|].
  assert (step retries (resume i (hook c, AwaitingDelay retryCount) c)
               (DelayElapses i) =
          resume i (enter_fetchData (retryCount + 1) (hook c))
                 (resume i (hook c, AwaitingDelay retryCount) c)) as H2.
  { unfold step. now rewrite Hwait. }
  rewrite H2, (resume_calls _ _ _ Hwait).
  unfold enter_fetchData. rewrite Nat.add_1_r. cbn. auto.
Qed.
End UseFetchSteps.

Lemma success_commit_witness :
  let c := run 0 [CallFetchData] (@initial string) in
  let c' := step 0 c (FetchResolves 0 "A") in
  state (hook c') = mkState (Some "A") false None false /\
  nth_error (calls c') 0 = Some (Returned (Some "A")) /\
  requestIdRef (hook c') = requestIdRef (hook c).
Proof.
  apply (@success_commit string 0 (run 0 [CallFetchData] initial) 0 1 0 "A");
    reflexivity.
Defined.

Lemma superseded_settlement_dropped_witness :
  let c := run 0 [CallFetchData; CallFetchData] (@initial string) in
  (hook (step 0 c (FetchResolves 0 "A")) = hook c /\
   nth_error (calls (step 0 c (FetchResolves 0 "A"))) 0 = Some (Returned None)) /\
  (~ 0 < 0 ->
   hook (step 0 c (FetchRejects 0 network_failure)) = hook c /\
   nth_error (calls (step 0 c (FetchRejects 0 network_failure))) 0 =
     Some (Threw (as_Error network_failure))).
Proof.
  apply (@superseded_settlement_dropped string 0
           (run 0 [CallFetchData; CallFetchData] initial) 0 1 0 "A" network_failure).
  - reflexivity.
  - cbn. lia.
Defined.

Lemma retry_takes_new_request_id_witness :
  let c := run 1 [CallFetchData; CallFetchData] (@initial string) in
  let c1 := step 1 c (FetchRejects 0 network_failure) in
  let c2 := step 1 c1 (DelayElapses 0) in
  hook c1 = hook c /\
  nth_error (calls c1) 0 = Some (AwaitingDelay 0) /\
  state (hook c2) = state (hook c) /\
  requestIdRef (hook c2) = S (requestIdRef (hook c)) /\
  nth_error (calls c2) 0 =
    Some (AwaitingFetch (S (requestIdRef (hook c))) (0 + 1)).
Proof.
  apply (@retry_takes_new_request_id string 1
           (run 1 [CallFetchData; CallFetchData] initial) 0 1 0 network_failure).
  - reflexivity.
  - lia.
Defined.

Section UseFetchRuns.
Variable T : Type.
Variable retries : nat.

Lemma Forall_set_nth {A} (P : A -> Prop) (i : nat) (x : A) (l : list A) :
  Forall P l -> P x -> Forall P (set_nth i x l).
Proof.
  intros Hl Hx. revert i. induction Hl as [|y l Hy Hl IH]; intros [|i]; cbn;
    constructor; auto.
Qed.

Lemma Forall_nth_error {A} (P : A -> Prop) (i : nat) (x : A) (l : list A) :
  Forall P l -> nth_error l i = Some x -> P x.
Proof.
  intros Hl Hi. apply nth_error_In in Hi. rewrite Forall_forall in Hl. auto.
Qed.

Lemma step_within_retries (c : Config T) (ev : Event T) :
  Forall (within_retries retries) (calls c) ->
  Forall (within_retries retries) (calls (step retries c ev)).
Proof.
  intros H. destruct ev as [|i v|i err|i| | |]; cbn [step]; try exact H.
  - unfold enter_fetchData. cbn [calls Nat.eqb].
    apply Forall_app. split; [exact H|]. repeat constructor. cbn. lia.
  - destruct (nth_error (calls c) i) as [[rid rc|rc|r|e]|] eqn:Hi; try exact H.
    unfold resume. cbn [calls]. apply Forall_set_nth; [exact H|].
    unfold on_result. destruct (still_latest rid (hook c)); exact I.
  - destruct (nth_error (calls c) i) as [[rid rc|rc|r|e]|] eqn:Hi; try exact H.
    unfold resume. cbn [calls]. apply Forall_set_nth; [exact H|].
    unfold on_error. destruct (rc <? retries) eqn:Hlt; cbn [snd].
    + apply Nat.ltb_lt in Hlt. exact Hlt.
    + exact I.
  - destruct (nth_error (calls c) i) as [[rid rc|rc|r|e]|] eqn:Hi; try exact H.
    unfold resume. cbn [calls]. apply Forall_set_nth; [exact H|].
    assert (within_retries retries (@AwaitingDelay T rc)) as Hrc
      by (eapply Forall_nth_error; eauto).
    cbn in Hrc.
    unfold enter_fetchData. cbn [snd within_retries]. lia.
Qed.

Lemma run_within_retries (events : list (Event T)) :
  forall c,
    Forall (within_retries retries) (calls c) ->
    Forall (within_retries retries) (calls (run retries events c)).
Proof.
  unfold run.
  induction events as [|ev events IH]; intros c Hc; cbn; [exact Hc|].
  apply IH. now apply step_within_retries.
Qed.

(** A step that leaves a call where it was neither makes it run
    [fetchFunction] nor changes the runs it has left. *)
Lemma same_call_no_run (c c' : Config T) (i : nat) :
  nth_error (calls c') i = nth_error (calls c) i ->
  starts_fetch c c' i = false /\ runs_left retries c' i = runs_left retries c i.
Proof.
  intros H. unfold starts_fetch, runs_left. rewrite H.
  destruct (nth_error (calls c) i) as [[rid rc|rc|r|e]|]; auto.
  now rewrite !Nat.eqb_refl.
Qed.

(** A step of a call takes from the runs it has left what it runs. *)
Lemma resume_runs (c : Config T) (j i : nat) (r : Hook T * Call T)
      (old : Call T) :
  nth_error (calls c) j = Some old ->
  (if starts_fetch (mkConfig (hook c) (set_nth j old (calls c)))
                   (mkConfig (fst r) (set_nth j (snd r) (calls c))) j
   then 1 else 0)
  + runs_left retries (mkConfig (fst r) (set_nth j (snd r) (calls c))) j
  <= runs_left retries (mkConfig (hook c) (set_nth j old (calls c))) j ->
  (if starts_fetch c (resume j r c) i then 1 else 0)
  + runs_left retries (resume j r c) i <= runs_left retries c i.
Proof.
  intros Hold Hj. destruct (Nat.eq_dec j i) as [<- | Hne].
  - unfold starts_fetch, runs_left, resume in *. cbn [calls] in *.
    rewrite !(nth_error_set_nth_same _ _ _ Hold) in Hj.
    rewrite (nth_error_set_nth_same _ _ _ Hold). rewrite Hold. exact Hj.
  - destruct (@same_call_no_run c (resume j r c) i) as [Hs Hr].
    { unfold resume. cbn [calls]. now apply nth_error_set_nth_other. }
    rewrite Hs, Hr. lia.
Qed.

Lemma step_runs (c : Config T) (ev : Event T) (i : nat) :
  Forall (within_retries retries) (calls c) ->
  (if starts_fetch c (step retries c ev) i then 1 else 0)
  + runs_left retries (step retries c ev) i <= runs_left retries c i.
Proof.
  intros Hc.
  assert (forall c', nth_error (calls c') i = nth_error (calls c) i ->
                     (if starts_fetch c c' i then 1 else 0)
                     + runs_left retries c' i <= runs_left retries c i) as Hsame.
  { intros c' H. destruct (same_call_no_run c c' i H) as [Hs Hr].
    rewrite Hs, Hr. lia. }
  destruct ev as [|j v|j err|j| | |]; cbn [step]; try (apply Hsame; reflexivity).
  - (* a new call *)
    unfold enter_fetchData. cbn [Nat.eqb].
    destruct (Nat.lt_trichotomy i (List.length (calls c))) as [Hi | [Hi | Hi]].
    + apply Hsame. cbn [calls]. now apply nth_error_app1.
    + unfold starts_fetch, runs_left. cbn [calls].
      rewrite nth_error_app2 by lia.
      replace (i - List.length (calls c)) with 0 by lia. cbn [nth_error].
      assert (nth_error (calls c) i = None) as Hnone
        by (apply nth_error_None; lia).
      rewrite Hnone. lia.
    + apply Hsame. cbn [calls].
      assert (nth_error (calls c) i = None) as Hnone
        by (apply nth_error_None; lia).
      rewrite Hnone. apply nth_error_None. rewrite length_app. cbn. lia.
  - destruct (nth_error (calls c) j) as [[rid rc|rc|r|e]|] eqn:Hj;
      try (apply Hsame; reflexivity).
    apply (@resume_runs c j i _ _ Hj).
    unfold starts_fetch, runs_left. cbn [calls fst snd].
    rewrite !(nth_error_set_nth_same _ _ _ Hj).
    unfold on_result. destruct (still_latest rid (hook c)); cbn [snd]; lia.
  - destruct (nth_error (calls c) j) as [[rid rc|rc|r|e]|] eqn:Hj;
      try (apply Hsame; reflexivity).
    apply (@resume_runs c j i _ _ Hj).
    unfold starts_fetch, runs_left. cbn [calls fst snd].
    rewrite !(nth_error_set_nth_same _ _ _ Hj).
    unfold on_error. destruct (rc <? retries); cbn [snd]; lia.
  - destruct (nth_error (calls c) j) as [[rid rc|rc|r|e]|] eqn:Hj;
      try (apply Hsame; reflexivity).
    assert (within_retries retries (@AwaitingDelay T rc)) as Hrc
      by (eapply Forall_nth_error; eauto).
    cbn in Hrc.
    apply (@resume_runs c j i _ _ Hj).
    unfold starts_fetch, runs_left. cbn [calls fst snd].
    rewrite !(nth_error_set_nth_same _ _ _ Hj).
    unfold enter_fetchData. cbn [snd]. lia.
Qed.

Lemma fetch_runs_left (events : list (Event T)) (i : nat) :
  forall c,
    Forall (within_retries retries) (calls c) ->
    fetch_runs retries events c i <= runs_left retries c i.
Proof.
  induction events as [|ev events IH]; intros c Hc; cbn [fetch_runs]; [lia|].
  pose proof (@step_runs c ev i Hc) as Hstep.
  pose proof (IH _ (@step_within_retries c ev Hc)) as Hrest.
  cbn zeta. lia.
Qed.

(** X4: whatever happens to the hook, each call of [fetchData] made
    from outside runs [fetchFunction] at most [retries + 1] times; it
    never does so with a retry count above [options.retries], and it
    waits for a retry only when one is left. *)
Theorem fetchData_attempts_bounded (events : list (Event T)) (i : nat) :
  fetch_runs retries events initial i <= retries + 1 /\
  Forall (within_retries retries) (calls (run retries events initial)).
Proof.
  split.
  - pose proof (@fetch_runs_left events i initial) as H.
    unfold runs_left in H. cbn [initial calls] in H.
    destruct i; cbn [nth_error] in H; apply H; constructor.
  - apply run_within_retries. constructor.
Qed.

(** The bound is reached: with one retry, a call whose fetch is
    rejected runs [fetchFunction] a second time, and no more after a
    second rejection. *)
Example fetch_runs_with_one_retry (err : Thrown) :
  fetch_runs 1 [CallFetchData; FetchRejects 0 err; DelayElapses 0;
                FetchRejects 0 err; DelayElapses 0] (@initial T) 0 = 2.
Proof. reflexivity. Qed.

(** The commit of a result, for use in the proofs below. *)
Lemma success_commit_core (c : Config T) (i requestId retryCount : nat) (v : T) :
  nth_error (calls c) i = Some (AwaitingFetch requestId retryCount) ->
  requestId = requestIdRef (hook c) ->
  isMountedRef (hook c) = true ->
  state (hook (step retries c (FetchResolves i v))) =
    mkState (Some v) false None false /\
  nth_error (calls (step retries c (FetchResolves i v))) i =
    Some (Returned (Some v)).
Proof.
  intros Hcall Hid Hm. unfold step. rewrite Hcall.
  assert (on_result requestId v (hook c) =
          (set_state (fun prev => mkState (Some v) false None false) (hook c),
           Returned (Some v))) as Hres.
  { unfold on_result, still_latest. now rewrite Hid, Nat.eqb_refl, Hm. }
  rewrite Hres. split; [reflexivity|].
  unfold resume. cbn [calls snd]. eapply nth_error_set_nth_same; eauto.
Qed.

Lemma run_fetches (r : nat) :
  forall (c : Config T),
    let c' := run retries (repeat CallFetchData r) c in
    requestIdRef (hook c') = requestIdRef (hook c) + r /\
    isMountedRef (hook c') = isMountedRef (hook c) /\
    forall i call, nth_error (calls c) i = Some call ->
                   nth_error (calls c') i = Some call.
Proof.
  unfold run. induction r as [|r IH]; intros c; cbn [repeat fold_left].
  - cbn. rewrite Nat.add_0_r. auto.
  - destruct (IH (step retries c CallFetchData)) as (H1 & H2 & H3).
    cbn zeta in *. rewrite H1, H2. cbn. split; [lia|]. split; [reflexivity|].
    intros i call Hi. apply H3. cbn. rewrite nth_error_app1; [exact Hi|].
    apply nth_error_Some. congruence.
Qed.

(** X5: [reset()] rewinds the request counter but does not end the
    calls under way.  A call that was waiting with request id [r] when
    the hook was reset is again the latest request once [r] calls have
    been issued after the reset, and its result is then committed as if
    it were theirs. *)
Theorem reset_revives_pending_call
        (c : Config T) (i r retryCount : nat) (v : T) :
  nth_error (calls c) i = Some (AwaitingFetch r retryCount) ->
  isMountedRef (hook c) = true ->
  let c' := run retries
                (CallReset :: repeat CallFetchData r ++ [FetchResolves i v]) c in
  data (state (hook c')) = Some v /\
  loading (state (hook c')) = false /\
  nth_error (calls c') i = Some (Returned (Some v)).
Proof.
  intros Hcall Hm. cbn zeta. unfold run. cbn [fold_left].
  rewrite fold_left_app. cbn [fold_left].
  set (c0 := step retries c CallReset).
  fold (run retries (repeat CallFetchData r) c0).
  destruct (run_fetches r c0) as (Hid & Hmount & Hcalls). cbn zeta in *.
  set (c1 := run retries (repeat CallFetchData r) c0) in *.
  assert (nth_error (calls c1) i = Some (AwaitingFetch r retryCount)) as Hi
    by (apply Hcalls; exact Hcall).
  assert (r = requestIdRef (hook c1)) as Hr by (subst c0; cbn in Hid; lia).
  assert (isMountedRef (hook c1) = true) as Hm1
    by (subst c0; cbn in Hmount; congruence).
  destruct (@success_commit_core c1 i r retryCount v Hi Hr Hm1) as (H1 & H2).
  rewrite H1. cbn. auto.
Qed.
End UseFetchRuns.

Lemma reset_revives_pending_call_witness :
  let c := run 0 [CallFetchData] (@initial string) in
  let c' := run 0 (CallReset :: repeat CallFetchData 1 ++ [FetchResolves 0 "old"]) c in
  data (state (hook c')) = Some "old" /\
  loading (state (hook c')) = false /\
  nth_error (calls c') 0 = Some (Returned (Some "old")).
Proof.
  apply (@reset_revives_pending_call string 0 (run 0 [CallFetchData] initial)
           0 1 0 "old"); reflexivity.
Defined.

Section UseFetchUnmounted.
Variable T : Type.
Variable retries : nat.

Lemma step_unmounted (c : Config T) (ev : Event T) :
  isMountedRef (hook c) = false ->
  settles ev = true ->
  state (hook (step retries c ev)) = state (hook c) /\
  isMountedRef (hook (step retries c ev)) = false.
Proof.
  intros Hm Hev.
  assert (forall rid, still_latest rid (hook c) = false) as Hlatest.
  { intros rid. unfold still_latest. rewrite Hm. apply andb_false_r. }
  destruct ev as [|i v|i err|i| | |]; try discriminate; cbn [step].
  - destruct (nth_error (calls c) i) as [[rid rc|rc|r|e]|]; auto.
    unfold on_result. rewrite Hlatest. auto.
  - destruct (nth_error (calls c) i) as [[rid rc|rc|r|e]|]; auto.
    unfold on_error. rewrite Hlatest. destruct (rc <? retries); auto.
  - destruct (nth_error (calls c) i) as [[rid rc|rc|r|e]|]; auto.
    unfold enter_fetchData. rewrite Nat.add_1_r. cbn. auto.
Qed.

(** X6: once the screen is unmounted no fetch that resolves or fails
    and no retry that starts changes the state of the hook. *)
Theorem unmounted_hook_never_commits (c : Config T) (events : list (Event T)) :
  isMountedRef (hook c) = false ->
  forallb settles events = true ->
  state (hook (run retries events c)) = state (hook c).
Proof.
  unfold run. revert c. induction events as [|ev events IH]; intros c Hm Hev;
    cbn [fold_left]; [reflexivity|].
  cbn in Hev. apply andb_true_iff in Hev. destruct Hev as [Hev Hrest].
  destruct (step_unmounted c ev Hm Hev) as [Hs Hm'].
  rewrite IH; auto.
Qed.
End UseFetchUnmounted.

Lemma unmounted_hook_never_commits_witness :
  let c := run 0 [CallFetchData; Unmount] (@initial string) in
  state (hook (run 0 [FetchResolves 0 "A"] c)) = state (hook c).
Proof.
  apply (@unmounted_hook_never_commits string 0
           (run 0 [CallFetchData; Unmount] initial) [FetchResolves 0 "A"]);
    reflexivity.
Defined.

(** X7: the status helpers the hook returns are exclusive: while
    [loading] none of [isSuccess], [isError] and [isIdle] holds, and
    when not loading exactly one of them does; [isEmpty] and [isIdle]
    are the same flag. *)
Theorem status_helpers_exclusive (T : Type) (s : UseFetchState T) :
  isEmpty s = isIdle s /\
  Nat.b2n (isSuccess s) + Nat.b2n (isError s) + Nat.b2n (isIdle s) =
    (if loading s then 0 else 1).
Proof.
  unfold isEmpty, isIdle, isSuccess, isError, hasData, hasError.
  destruct s as [[d|] [|] [e|] st]; cbn; auto.
Qed.

(* ----------------------------------------------------------------- *)
(** ** The waits of the backoff executor *)

Section BackoffWaits.
Variables St T : Type.
Variable sleep : Z -> St -> St.
Variable operation : Async St T.
Variable retries : nat.
Variable operationName : string.

Let wloop := for_loop (waited_sleep sleep) (waited operation) retries operationName.
Let before := state_before sleep operation.

Lemma waited_loop_step (fuel i : nat) (s : St) (t : Z) :
  i < retries ->
  wloop (S fuel) i (s, t) =
    match operation s with
    | (Fulfilled v, s') => (Fulfilled v, (s', t))
    | (Rejected e, s') =>
        if i =? retries - 1 then (Rejected e, (s', t))
        else wloop fuel (S i)
               (sleep (1000 * 2 ^ Z.of_nat i)%Z s', (t + 1000 * 2 ^ Z.of_nat i)%Z)
    end.
Proof.
  intros Hi. subst wloop. cbn [for_loop].
  apply Nat.ltb_lt in Hi. rewrite Hi.
  unfold waited, waited_sleep. cbn [fst snd].
  destruct (operation s) as [[v|e] s']; reflexivity.
Qed.

Lemma pow2_succ (i : nat) : (2 ^ Z.of_nat (S i) = 2 * 2 ^ Z.of_nat i)%Z.
Proof. rewrite Nat2Z.inj_succ. apply Z.pow_succ_r. lia. Qed.

(** Up to the first fulfilled run, run number [k] from index [i], the
    loop has waited after each of the runs [i .. i + k - 1]. *)
Lemma waited_first_success (fuel : nat) :
  forall i s t k v,
    i + fuel = retries ->
    k < fuel ->
    (forall j, j < k -> exists e, fst (operation (before i j s)) = Rejected e) ->
    fst (operation (before i k s)) = Fulfilled v ->
    snd (snd (wloop fuel i (s, t))) =
      (t + 1000 * (2 ^ Z.of_nat (i + k) - 2 ^ Z.of_nat i))%Z.
Proof.
  induction fuel as [|fuel IH]; intros i s t k v Hi Hk Hfail Hok; [lia|].
  rewrite waited_loop_step by lia.
  destruct k as [|k].
  - subst before. cbn [state_before] in *.
    destruct (operation s) as [[v'|e] s']; cbn [fst snd] in *; [|discriminate].
    rewrite Nat.add_0_r. lia.
  - destruct (Hfail 0 ltac:(lia)) as [e He].
    subst before. cbn [state_before] in *.
    destruct (operation s) as [[v'|e'] s'] eqn:Hop; cbn [fst snd] in *; [discriminate|].
    assert (Hne : (i =? retries - 1) = false) by (apply Nat.eqb_neq; lia).
    rewrite Hne.
    rewrite (IH (S i) _ _ k v); try lia.
    + replace (i + S k) with (S i + k) by lia. rewrite pow2_succ. lia.
    + intros j Hj. destruct (Hfail (S j) ltac:(lia)) as [e2 He2].
      cbn [state_before] in He2. rewrite Hop in He2. eauto.
    + exact Hok.
Qed.

(** When every run is rejected the loop has waited after each run but
    the last. *)
Lemma waited_all_rejected (fuel : nat) :
  forall i s t,
    i + S fuel = retries ->
    (forall j, j <= fuel -> exists e, fst (operation (before i j s)) = Rejected e) ->
    snd (snd (wloop (S fuel) i (s, t))) =
      (t + 1000 * (2 ^ Z.of_nat (i + fuel) - 2 ^ Z.of_nat i))%Z.
Proof.
  induction fuel as [|fuel IH]; intros i s t Hi Hfail.
  - rewrite waited_loop_step by lia.
    destruct (Hfail 0 ltac:(lia)) as [e He].
    subst before. cbn [state_before] in *.
    destruct (operation s) as [[v'|e'] s']; cbn [fst snd] in *; [discriminate|].
    assert (Hl : (i =? retries - 1) = true) by (apply Nat.eqb_eq; lia).
    rewrite Hl. cbn [snd]. rewrite Nat.add_0_r. lia.
  - destruct (Hfail 0 ltac:(lia)) as [e0 He0].
    rewrite waited_loop_step by lia.
    subst before. cbn [state_before] in *.
    destruct (operation s) as [[v'|e'] s'] eqn:Hop; cbn [fst snd] in *; [discriminate|].
    assert (Hne : (i =? retries - 1) = false) by (apply Nat.eqb_neq; lia).
    rewrite Hne.
    rewrite (IH (S i)); try lia.
    + replace (i + S fuel) with (S i + fuel) by lia. rewrite pow2_succ. lia.
    + intros j Hj. destruct (Hfail (S j) ltac:(lia)) as [e2 He2].
      cbn [state_before] in He2. rewrite Hop in He2. eauto.
Qed.

(** X8: between attempts the executor waits 1000 ms, 2000 ms, 4000 ms
    and so on, and it does not wait after the attempt that ends the
    call: a call whose first fulfilled attempt is attempt number [k]
    has waited [1000 * (2 ^ (k - 1) - 1)] ms in all, and a call all of
    whose [retries] attempts are rejected has waited
    [1000 * (2 ^ (retries - 1) - 1)] ms. *)
Theorem retryWithBackoff_total_wait (s : St) :
  ((forall j, j < retries -> attempt_rejected sleep operation s j) ->
   retry_wait sleep operation retries operationName s =
     (1000 * (2 ^ Z.of_nat (retries - 1) - 1))%Z)
  /\
  (forall k v,
     1 <= k <= retries ->
     (forall j, j < k - 1 -> attempt_rejected sleep operation s j) ->
     fst (operation (state_before sleep operation 0 (k - 1) s)) = Fulfilled v ->
     retry_wait sleep operation retries operationName s =
       (1000 * (2 ^ Z.of_nat (k - 1) - 1))%Z).
Proof.
  unfold retry_wait, retryWithBackoff. split.
  - intros Hall.
    assert (Hcase : retries = 0 \/ exists fuel, retries = S fuel)
      by (destruct retries; eauto).
    destruct Hcase as [Hr | [fuel Hr]].
    + rewrite Hr. reflexivity.
    + pose proof (@waited_all_rejected fuel 0 s 0%Z) as L.
      rewrite <- Hr in L. subst wloop. rewrite L.
      * rewrite Hr. cbn [Nat.add Z.of_nat]. replace (S fuel - 1) with fuel by lia.
        cbn. lia.
      * reflexivity.
      * intros j Hj. apply Hall. lia.
  - intros k v Hk Hrej Hok.
    pose proof (@waited_first_success retries 0 s 0%Z (k - 1) v) as L.
    subst wloop. rewrite L; try lia.
    + cbn [Nat.add Z.of_nat]. cbn. lia.
    + exact Hrej.
    + exact Hok.
Qed.
End BackoffWaits.

Lemma retryWithBackoff_total_wait_witness :
  retry_wait no_sleep always_rejected 3 "Operation" [] = 3000%Z /\
  retry_wait no_sleep (scripted network_failure) 3 "Operation"
    second_time_lucky = 1000%Z.
Proof.
  split.
  - apply (proj1 (retryWithBackoff_total_wait no_sleep always_rejected 3
                    "Operation" [])).
    intros j _. apply always_rejected_attempt.
  - apply (proj2 (retryWithBackoff_total_wait no_sleep (scripted network_failure) 3
                    "Operation" second_time_lucky) 2 7).
    + lia.
    + intros j Hj. assert (j = 0) by lia. subst j.
      exists network_failure. reflexivity.
    + reflexivity.
Defined.

(* ----------------------------------------------------------------- *)
(** ** Further properties of the trend reader *)

Lemma getTrendingMovies_loop_documents (retries : nat) (name : string) (fuel : nat) :
  forall i w,
    documents (snd (for_loop sleep_world getTrendingMovies_operation
                             retries name fuel i w)) = documents w.
Proof.
  induction fuel as [|fuel IH]; intros i w; cbn [for_loop].
  - destruct (i <? retries); reflexivity.
  - destruct (i <? retries); [|reflexivity].
    destruct (getTrendingMovies_operation_spec w) as [Hdocs _].
    destruct (getTrendingMovies_operation w) as [[v|e] w']; cbn [fst snd] in *;
      [exact Hdocs|].
    destruct (i =? retries - 1); cbn [snd]; [exact Hdocs|].
    rewrite IH. cbn. exact Hdocs.
Qed.

(** X9: the trend reader only reads: whatever the remote side does,
    the collection is the same after the call as before. *)
Theorem getTrendingMovies_read_only (w : World) :
  documents (snd (getTrendingMovies w)) = documents w.
Proof.
  unfold getTrendingMovies, try_catch, retryWithBackoff.
  pose proof (getTrendingMovies_loop_documents 3 "GetTrendingMovies" 3 0 w) as H.
  destruct (for_loop sleep_world getTrendingMovies_operation 3
              "GetTrendingMovies" 3 0 w) as [[l|e] w']; exact H.
Qed.

Lemma ranked_insert (x : Document) (rows : list Document) :
  ranked rows ->
  ranked (insert_sorted (fun a b => (count b - count a)%Z) x rows).
Proof.
  induction rows as [|y rows IH]; cbn; [tauto|].
  intros [Hy Hrows]. destruct (count y - count x <=? 0)%Z eqn:Hc; cbn.
  - apply Z.leb_le in Hc. repeat split; auto.
    intros d [Hd | Hd]; [subst; lia|]. specialize (Hy d Hd). lia.
  - apply Z.leb_gt in Hc. split; [|auto].
    intros d Hd. apply (Permutation_in _ (insert_sorted_perm _ x rows)) in Hd.
    destruct Hd as [Hd | Hd]; [subst; lia | auto].
Qed.

Lemma ranked_sort (rows : list Document) :
  ranked (sort_by (fun a b => (count b - count a)%Z) rows).
Proof.
  induction rows as [|x rows IH]; cbn; [exact I | now apply ranked_insert].
Qed.

Lemma ranked_filter (keep : Document -> bool) (rows : list Document) :
  ranked rows -> ranked (filter keep rows).
Proof.
  induction rows as [|d rows IH]; cbn; [tauto|].
  intros [Hd Hrows]. destruct (keep d); cbn; [|auto].
  split; [|auto]. intros x Hx. apply filter_In in Hx. apply Hd. tauto.
Qed.

Lemma ranked_firstn (n : nat) (rows : list Document) :
  ranked rows -> ranked (firstn n rows).
Proof.
  revert rows. induction n as [|n IH]; intros [|d rows]; cbn; try tauto.
  intros [Hd Hrows]. split; [|auto].
  intros x Hx. apply Hd. eapply In_firstn; eauto.
Qed.

Lemma first_occurrences_In (rows : list Document) (d : Document) :
  In d (first_occurrences rows) -> In d rows.
Proof.
  induction rows as [|a rows IH]; cbn; [tauto|].
  intros [H | H]; [now left|]. apply filter_In in H. right. tauto.
Qed.

Lemma ranked_first_occurrences (rows : list Document) :
  ranked rows -> ranked (first_occurrences rows).
Proof.
  induction rows as [|d rows IH]; cbn; [tauto|].
  intros [Hd Hrows]. split.
  - intros x Hx. apply filter_In in Hx. apply Hd.
    apply first_occurrences_In. tauto.
  - apply ranked_filter. auto.
Qed.

Lemma trending_rows_ranked (docs : list Document) : ranked (trending_rows docs).
Proof.
  unfold trending_rows, select_documents, query_orders, query_limit.
  cbn [existsb fold_left orb]. apply ranked_firstn, ranked_sort.
Qed.

(** X10: the rows the trend reader returns are rows of the collection,
    in the order of their counts, highest first. *)
Theorem getTrendingMovies_ranked (w : World) :
  exists rows,
    fst (getTrendingMovies w) = Fulfilled rows /\
    ranked rows /\
    forall d, In d rows -> In d (documents w).
Proof.
  destruct (getTrendingMovies_fulfilled w) as (l & Hl & [Hnil | Hrows]).
  - exists l. subst l. repeat split; [exact Hl | contradiction].
  - exists l. split; [exact Hl|]. rewrite uniqueMovies_first_occurrences in Hrows.
    subst l. split.
    + apply ranked_firstn, ranked_first_occurrences, trending_rows_ranked.
    + intros d Hd. apply In_firstn, first_occurrences_In in Hd.
      unfold trending_rows, select_documents, query_orders, query_limit in Hd.
      cbn [existsb fold_left orb] in Hd.
      apply In_firstn in Hd.
      apply (Permutation_in _ (sort_by_perm _ _)) in Hd.
      apply filter_In in Hd. tauto.
Qed.

(** What the trend reader returns, for use in the proofs below. *)
Lemma trend_reader_result (w : World) :
  exists l,
    fst (getTrendingMovies w) = Fulfilled l /\
    l = if store_unreachable w then []
        else firstn 5 (first_occurrences (trending_rows (documents w))).
Proof.
  eexists. split; [|reflexivity].
  rewrite <- uniqueMovies_first_occurrences.
  unfold store_unreachable, getTrendingMovies, try_catch, retryWithBackoff,
    getTrendingMovies_operation, bind, listDocuments, remote, ret, trending_rows.
  destruct w as [docs t fs].
  destruct fs as [|[|] [|[|] [|[|] fs]]]; reflexivity.
Qed.

(** X11: the trend reader leaves no movie out for nothing: when an
    attempt reaches the store, either five rows come back or every
    movie among the rows the store answers with is in the result. *)
Theorem getTrendingMovies_covers_movies (w : World) :
  store_unreachable w = false ->
  exists rows,
    fst (getTrendingMovies w) = Fulfilled rows /\
    (List.length rows = 5 \/
     forall d, In d (trending_rows (documents w)) ->
               In (movie_id d) (map movie_id rows)).
Proof.
  intros Hreach.
  destruct (trend_reader_result w) as (l & Hl & Heq).
  rewrite Hreach in Heq. exists l. split; [exact Hl|]. subst l.
  destruct (Nat.le_gt_cases
              (List.length (first_occurrences (trending_rows (documents w)))) 5)
    as [Hle | Hgt].
  - right. rewrite firstn_all2 by exact Hle. apply first_occurrences_complete.
  - left. apply firstn_length_le. lia.
Qed.

Lemma getTrendingMovies_covers_movies_witness :
  exists rows,
    fst (getTrendingMovies batman_rows_failing) = Fulfilled rows /\
    (List.length rows = 5 \/
     forall d, In d (trending_rows (documents batman_rows_failing)) ->
               In (movie_id d) (map movie_id rows)).
Proof.
  apply (@getTrendingMovies_covers_movies batman_rows_failing). reflexivity.
Defined.

(* ----------------------------------------------------------------- *)
(** ** What the reconciler conserves *)

Lemma same_id_same_document (store : list Document) (a b : Document) :
  NoDup (map dollar_id store) ->
  In a store -> In b store -> dollar_id a = dollar_id b -> a = b.
Proof.
  induction store as [|x store IH]; cbn; [tauto|].
  intros Hnd Ha Hb Hid. inversion Hnd as [|? ? Hnotin Hnd'].
  destruct Ha as [Ha | Ha], Hb as [Hb | Hb].
  - congruence.
  - exfalso. apply Hnotin. rewrite Ha, Hid. now apply in_map.
  - exfalso. apply Hnotin. rewrite Hb, <- Hid. now apply in_map.
  - now apply IH.
Qed.

Lemma filter_respects_perm {A} (keep : A -> bool) (rows rows' : list A) :
  Permutation rows rows' -> Permutation (filter keep rows) (filter keep rows').
Proof.
  induction 1 as [|x l l' _ IH|x y l|l l' l'' _ IH1 _ IH2]; cbn.
  - constructor.
  - destruct (keep x); [now constructor | exact IH].
  - destruct (keep x), (keep y); try reflexivity. constructor.
  - now transitivity (filter keep l').
Qed.

Lemma filter_nothing {A} (keep : A -> bool) (rows : list A) :
  (forall x, In x rows -> keep x = false) -> filter keep rows = [].
Proof.
  induction rows as [|x rows IH]; cbn; [reflexivity|].
  intros H. rewrite (H x) by now left. apply IH. intros y Hy. apply H. now right.
Qed.

Lemma filter_map_untouched {A} (keep : A -> bool) (f : A -> A) (rows : list A) :
  (forall x, In x rows -> f x = x /\ keep x = true) ->
  filter keep (map f rows) = rows.
Proof.
  induction rows as [|x rows IH]; cbn; [reflexivity|].
  intros H. destruct (H x) as [Hf Hk]; [now left|].
  rewrite Hf, Hk. f_equal. apply IH. intros y Hy. apply H. now right.
Qed.

Lemma totalCount_perm (rows rows' : list Document) :
  Permutation rows rows' -> totalCount rows = totalCount rows'.
Proof.
  rewrite !totalCount_sum.
  induction 1 as [|x l l' _ IH|x y l|l l' l'' _ IH1 _ IH2]; cbn; lia.
Qed.

Lemma totalCount_app (rows rows' : list Document) :
  totalCount (rows ++ rows') = (totalCount rows + totalCount rows')%Z.
Proof.
  rewrite !totalCount_sum, map_app.
  induction (map count rows) as [|x l IH]; cbn; lia.
Qed.

Lemma totalCount_cons (d : Document) (rows : list Document) :
  totalCount (d :: rows) = (count d + totalCount rows)%Z.
Proof. rewrite !totalCount_sum. reflexivity. Qed.

Section MergedAccounts.
Variable docs : list Document.
Variable t : Z.
Variable keepDoc : Document.
Variable others : list Document.
Variable store : list Document.
Hypothesis Hsorted : sortedDocs docs = keepDoc :: others.
Hypothesis Hstore : NoDup (map dollar_id store).
Hypothesis Hdocs : NoDup (map dollar_id docs).
Hypothesis Hmembers : forall d, In d docs -> In d store.

Let merged (d : Document) : Document :=
  if has_id (dollar_id keepDoc) d then touch t (merge_update docs t d) else d.

Let stays (d : Document) : bool := negb (id_in others d).

Lemma docs_perm : Permutation docs (keepDoc :: others).
Proof using Hsorted. rewrite <- Hsorted. symmetry. apply sortedDocs_perm. Qed.

Lemma merged_keep : merged keepDoc = merged_document docs t keepDoc.
Proof using.
  unfold merged, merged_document, has_id. now rewrite String.eqb_refl.
Qed.

Lemma stays_merged (d : Document) : stays (merged d) = stays d.
Proof using.
  unfold stays, merged, id_in, has_id.
  now destruct (String.eqb (dollar_id d) (dollar_id keepDoc)).
Qed.

Lemma keep_stays : stays keepDoc = true.
Proof using Hsorted Hdocs.
  unfold stays. apply negb_true_iff.
  destruct (id_in others keepDoc) eqn:E; [|reflexivity].
  apply id_in_In in E.
  now destruct (@others_ids_NoDup docs keepDoc others Hsorted Hdocs).
Qed.

Lemma others_go (o : Document) : In o others -> stays o = false.
Proof using.
  intros Ho. unfold stays. apply negb_false_iff, id_in_In. now apply in_map.
Qed.

Lemma merged_group :
  Permutation (filter stays (map merged docs)) [merged_document docs t keepDoc].
Proof using Hsorted Hdocs.
  rewrite (filter_respects_perm stays (Permutation_map merged docs_perm)).
  cbn [map filter]. rewrite stays_merged, keep_stays, merged_keep.
  rewrite filter_nothing; [reflexivity|].
  intros x Hx. apply in_map_iff in Hx. destruct Hx as (o & Ho & Hin).
  rewrite <- Ho, stays_merged. now apply others_go.
Qed.

Lemma store_split : Permutation store (docs ++ outside docs store).
Proof using Hstore Hdocs Hmembers.
  apply NoDup_Permutation.
  - now apply NoDup_map_inv in Hstore.
  - apply NoDup_app.
    + now apply NoDup_map_inv in Hdocs.
    + apply NoDup_filter. now apply NoDup_map_inv in Hstore.
    + intros d Hd Hout. apply filter_In in Hout. destruct Hout as [_ Hout].
      apply negb_true_iff in Hout.
      assert (id_in docs d = true) as E by (apply id_in_In; now apply in_map).
      congruence.
  - intros d. rewrite in_app_iff. unfold outside. rewrite filter_In. split.
    + intros Hd. destruct (id_in docs d) eqn:E; [left | right; auto].
      apply id_in_In, in_map_iff in E. destruct E as (o & Hid & Ho).
      now rewrite <- (@same_id_same_document store o d Hstore (Hmembers o Ho) Hd Hid).
    + intros [Hd | [Hd _]]; auto.
Qed.

Lemma merged_outside :
  filter stays (map merged (outside docs store)) = outside docs store.
Proof using Hsorted.
  apply filter_map_untouched. intros x Hx. apply filter_In in Hx.
  destruct Hx as [_ Hx]. apply negb_true_iff in Hx.
  assert (~ In (dollar_id x) (map dollar_id docs)) as Hn.
  { intros H. apply id_in_In in H. congruence. }
  split.
  - unfold merged. destruct (has_id (dollar_id keepDoc) x) eqn:E; [|reflexivity].
    exfalso. apply Hn. apply String.eqb_eq in E. rewrite E.
    apply (@keep_in_docs docs keepDoc others Hsorted).
  - unfold stays. apply negb_true_iff.
    destruct (id_in others x) eqn:E; [|reflexivity].
    exfalso. apply Hn. apply id_in_In in E.
    now apply (@others_in_docs docs keepDoc others Hsorted).
Qed.

(** Merging a group leaves, in some order, the merged document and the
    documents outside the group. *)
Lemma merged_store_perm :
  Permutation (merged_store docs t store)
              (merged_document docs t keepDoc :: outside docs store).
Proof using Hsorted Hstore Hdocs Hmembers.
  rewrite (@merged_store_eq docs t keepDoc others Hsorted store).
  fold merged. fold stays.
  rewrite (filter_respects_perm stays (Permutation_map merged store_split)).
  rewrite map_app, filter_app, merged_outside.
  exact (Permutation_app_tail _ merged_group).
Qed.
End MergedAccounts.

Section ReconciledAccounts.
Variable t : Z.

Lemma duplicate_group_sorted (e : Z * list Document) :
  is_duplicate_group e = true ->
  exists keepDoc others, sortedDocs (snd e) = keepDoc :: others.
Proof.
  unfold is_duplicate_group. intros H. apply Nat.ltb_lt in H.
  apply sortedDocs_nonempty. intros Hnil. rewrite Hnil in H. cbn in H. lia.
Qed.

Lemma groups_of_store_head (e : Z * list Document) (entries : MovieGroups)
      (store : list Document) :
  groups_of_store (e :: entries) store ->
  NoDup (map dollar_id (snd e)) /\
  (forall d, In d (snd e) -> In d store /\ movie_id d = fst e).
Proof.
  intros [Hs Hg Hm]. split.
  - cbn [entry_ids flat_map] in Hg. now apply NoDup_app_remove_r in Hg.
  - intros d Hd. apply (Hm (fst e) (snd e)); [left; now destruct e | exact Hd].
Qed.

(** What one step of the pass leaves, when the group holds duplicates. *)
Lemma merge_entry_perm (e : Z * list Document) (entries : MovieGroups)
      (store : list Document) :
  groups_of_store (e :: entries) store ->
  is_duplicate_group e = true ->
  exists keepDoc others,
    sortedDocs (snd e) = keepDoc :: others /\
    Permutation store (snd e ++ outside (snd e) store) /\
    Permutation (merge_entry t store e)
                (merged_document (snd e) t keepDoc :: outside (snd e) store).
Proof.
  intros G Hdup.
  destruct (duplicate_group_sorted e Hdup) as (keepDoc & others & Hs).
  destruct (groups_of_store_head G) as [Hnd Hin].
  exists keepDoc, others. split; [exact Hs|]. split.
  - apply store_split; [apply (store_ids G) | exact Hnd | apply Hin].
  - unfold merge_entry. rewrite Hdup.
    apply (@merged_store_perm (snd e) t keepDoc others store Hs
             (store_ids G) Hnd).
    apply Hin.
Qed.

Lemma groups_of_store_step (e : Z * list Document) (entries : MovieGroups)
      (store : list Document) :
  groups_of_store (e :: entries) store ->
  groups_of_store entries (merge_entry t store e).
Proof.
  intros G. destruct G as [Hs Hg Hm]. split.
  - now apply merge_entry_NoDup.
  - cbn [entry_ids flat_map] in Hg. now apply NoDup_app_remove_l in Hg.
  - intros k ds d Hin Hd.
    destruct (Hm k ds d (or_intror Hin) Hd) as [Hstore Hk].
    split; [|exact Hk].
    assert (~ In (dollar_id d) (map dollar_id (snd e))) as Hn.
    { intros H. cbn [entry_ids flat_map] in Hg.
      apply (NoDup_app_disjoint _ _ _ Hg H).
      apply in_flat_map. exists (k, ds). split; [exact Hin|].
      cbn [snd]. now apply in_map. }
    assert (In d (filter (has_id (dollar_id d)) (merge_entry t store e))) as H.
    { rewrite merge_entry_other by exact Hn.
      apply filter_In. split; [exact Hstore|].
      unfold has_id. apply String.eqb_refl. }
    apply filter_In in H. tauto.
Qed.

(** The documents a fault-free pass removes are the documents the
    collection loses. *)
Lemma reconciled_length_eq (entries : MovieGroups) :
  forall store,
    groups_of_store entries store ->
    List.length (reconciled t entries store) + count_removals entries =
    List.length store.
Proof.
  unfold reconciled, count_removals.
  induction entries as [|e entries IH]; intros store G;
    cbn [fold_left fold_right]; [lia|].
  rewrite Nat.add_comm, <- Nat.add_assoc,
    (Nat.add_comm _ (List.length _)), (IH _ (groups_of_store_step G)).
  destruct (is_duplicate_group e) eqn:Hdup.
  - destruct (merge_entry_perm G Hdup) as (keepDoc & others & Hs & Hp & Hq).
    apply Permutation_length in Hp, Hq. rewrite length_app in Hp.
    cbn [List.length] in Hq.
    pose proof (Permutation_length (sortedDocs_perm (snd e))) as Hl.
    rewrite Hs in Hl. cbn [List.length] in Hl. lia.
  - unfold merge_entry. rewrite Hdup. lia.
Qed.

(** A fault-free pass leaves the sum of the counts as it was. *)
Lemma reconciled_total (entries : MovieGroups) :
  forall store,
    groups_of_store entries store ->
    totalCount (reconciled t entries store) = totalCount store.
Proof.
  unfold reconciled.
  induction entries as [|e entries IH]; intros store G; cbn [fold_left];
    [reflexivity|].
  rewrite (IH _ (groups_of_store_step G)).
  destruct (is_duplicate_group e) eqn:Hdup.
  - destruct (merge_entry_perm G Hdup) as (keepDoc & others & Hs & Hp & Hq).
    rewrite (totalCount_perm Hq), (totalCount_perm Hp).
    rewrite totalCount_cons, totalCount_app. reflexivity.
  - unfold merge_entry. now rewrite Hdup.
Qed.

(** A fault-free pass leaves every movie a document. *)
Lemma reconciled_movies (entries : MovieGroups) :
  forall store d,
    groups_of_store entries store ->
    In d store ->
    exists d', In d' (reconciled t entries store) /\ movie_id d' = movie_id d.
Proof.
  unfold reconciled.
  induction entries as [|e entries IH]; intros store d G Hd; cbn [fold_left];
    [eauto|].
  assert (exists d1, In d1 (merge_entry t store e) /\ movie_id d1 = movie_id d)
    as (d1 & Hd1 & Hm1).
  { destruct (is_duplicate_group e) eqn:Hdup.
    - destruct (merge_entry_perm G Hdup) as (keepDoc & others & Hs & Hp & Hq).
      destruct (groups_of_store_head G) as [_ Hin].
      apply (Permutation_in _ Hp) in Hd. apply in_app_or in Hd.
      destruct Hd as [Hd | Hd].
      + exists (merged_document (snd e) t keepDoc). split.
        * apply (Permutation_in _ (Permutation_sym Hq)). now left.
        * cbn. destruct (Hin d Hd) as [_ ->].
          now destruct (Hin keepDoc (proj1 (sortedDocs_keep _ Hs))) as [_ ->].
      + exists d. split; [|reflexivity].
        apply (Permutation_in _ (Permutation_sym Hq)). now right.
    - unfold merge_entry. rewrite Hdup. eauto. }
  destruct (IH _ d1 (groups_of_store_step G) Hd1) as (d' & Hd' & Hm').
  exists d'. split; [exact Hd' | congruence].
Qed.
End ReconciledAccounts.

Lemma loaded_entries_groups (store : list Document) :
  NoDup (map dollar_id store) ->
  groups_of_store (loaded_entries store) store.
Proof.
  intros Hnd. split.
  - exact Hnd.
  - now apply loaded_entries_ids_NoDup.
  - intros k ds d Hin Hd.
    destruct (loaded_entries_In _ _ _ Hin) as [Heq _]. subst ds.
    apply group_of_In in Hd. destruct Hd as [Hd Hk].
    split; [now apply loaded_In | exact Hk].
Qed.

(** X12: when no remote call fails on a collection with distinct
    identifiers, the reconciler reports as removed exactly the documents
    the collection has lost. *)
Theorem cleanupDuplicateMovies_removed_count (w : World) :
  faults w = [] ->
  NoDup (map dollar_id (documents w)) ->
  exists result,
    fst (cleanupDuplicateMovies w) = Fulfilled result /\
    result_error result = None /\
    List.length (documents (snd (cleanupDuplicateMovies w))) +
    result_duplicatesRemoved result = List.length (documents w).
Proof.
  intros Hf Hnd. rewrite (cleanupDuplicateMovies_ok w Hf Hnd).
  eexists. split; [reflexivity|]. split; [reflexivity|].
  cbn [snd documents set_documents result_duplicatesRemoved].
  apply reconciled_length_eq. now apply loaded_entries_groups.
Qed.

Lemma cleanupDuplicateMovies_removed_count_witness :
  exists result,
    fst (cleanupDuplicateMovies batman_rows) = Fulfilled result /\
    result_error result = None /\
    List.length (documents (snd (cleanupDuplicateMovies batman_rows))) +
    result_duplicatesRemoved result = List.length (documents batman_rows).
Proof.
  apply (@cleanupDuplicateMovies_removed_count batman_rows).
  - reflexivity.
  - apply distinct_NoDup. vm_compute. reflexivity.
Defined.

(** X13: when no remote call fails on a collection with distinct
    identifiers, the reconciler leaves the sum of all counts as it
    was: no search is lost in a merge and none is counted twice. *)
Theorem cleanupDuplicateMovies_conserves_counts (w : World) :
  faults w = [] ->
  NoDup (map dollar_id (documents w)) ->
  totalCount (documents (snd (cleanupDuplicateMovies w))) =
  totalCount (documents w).
Proof.
  intros Hf Hnd. rewrite (cleanupDuplicateMovies_ok w Hf Hnd).
  cbn [snd documents set_documents].
  apply reconciled_total. now apply loaded_entries_groups.
Qed.

Lemma cleanupDuplicateMovies_conserves_counts_witness :
  totalCount (documents (snd (cleanupDuplicateMovies batman_rows))) =
  totalCount (documents batman_rows).
Proof.
  apply (@cleanupDuplicateMovies_conserves_counts batman_rows).
  - reflexivity.
  - apply distinct_NoDup. vm_compute. reflexivity.
Defined.

(** X14: when no remote call fails on a collection with distinct
    identifiers, the movies of the collection are the same after the
    reconciler as before: no movie loses all its documents. *)
Theorem cleanupDuplicateMovies_keeps_movies (w : World) (k : Z) :
  faults w = [] ->
  NoDup (map dollar_id (documents w)) ->
  In k (map movie_id (documents w)) <->
  In k (map movie_id (documents (snd (cleanupDuplicateMovies w)))).
Proof.
  intros Hf Hnd. rewrite (cleanupDuplicateMovies_ok w Hf Hnd).
  cbn [snd documents set_documents]. rewrite !in_map_iff. split.
  - intros (d & Hk & Hd).
    destruct (@reconciled_movies (now w) _ _ d
                (@loaded_entries_groups (documents w) Hnd) Hd)
      as (d' & Hd' & Hm).
    exists d'. split; [congruence | exact Hd'].
  - intros (d & Hk & Hd). apply reconciled_descends in Hd.
    destruct Hd as (d0 & Hd0 & _ & Hm). exists d0. split; [congruence | exact Hd0].
Qed.

Lemma cleanupDuplicateMovies_keeps_movies_witness :
  In 42%Z (map movie_id (documents batman_rows)) <->
  In 42%Z (map movie_id (documents (snd (cleanupDuplicateMovies batman_rows)))).
Proof.
  apply (@cleanupDuplicateMovies_keeps_movies batman_rows 42%Z).
  - reflexivity.
  - apply distinct_NoDup. vm_compute. reflexivity.
Defined.

(* ----------------------------------------------------------------- *)
(** ** The reconciler whatever the remote side does *)

Lemma shrinks_refl (docs : list Document) : shrinks docs docs.
Proof. split; [eauto | split; [lia | auto]]. Qed.

Lemma shrinks_trans (a b c : list Document) :
  shrinks a b -> shrinks b c -> shrinks a c.
Proof.
  intros (Hab & Lab & Nab) (Hbc & Lbc & Nbc). split; [|split; [lia | auto]].
  intros d Hd. destruct (Hab d Hd) as (d1 & H1 & Hi1 & Hm1).
  destruct (Hbc d1 H1) as (d0 & H0 & Hi0 & Hm0).
  exists d0. repeat split; congruence.
Qed.

Lemma remote_shrinks {A} (call : Async World A) (w : World) :
  (forall w0, shrinks (documents (snd (call w0))) (documents w0)) ->
  shrinks (documents (snd (remote call w))) (documents w).
Proof.
  intros H. destruct (remote_cases call w) as [[fs E] | [fs E]]; rewrite E.
  - apply shrinks_refl.
  - apply (H (set_faults fs w)).
Qed.

Lemma updateDocument_shrinks (id : string) (data : Document -> Document)
      (w : World) :
  (forall d, dollar_id (data d) = dollar_id d /\ movie_id (data d) = movie_id d) ->
  shrinks (documents (snd (updateDocument id data w))) (documents w).
Proof.
  intros Hdata. unfold updateDocument. apply remote_shrinks. intros w0.
  destruct (existsb (has_id id) (documents w0)); [|apply shrinks_refl].
  cbn [snd documents set_documents]. split; [|split].
  - intros d Hd. apply in_map_iff in Hd. destruct Hd as (d0 & Hd0 & Hin).
    exists d0. split; [exact Hin|]. subst d.
    destruct (has_id id d0); [|auto]. cbn. destruct (Hdata d0). auto.
  - now rewrite length_map.
  - intros Hnd. rewrite map_map. erewrite map_ext; [exact Hnd|].
    intros d. cbn beta. destruct (has_id id d); [|reflexivity].
    cbn. apply Hdata.
Qed.

Lemma deleteDocument_shrinks (id : string) (w : World) :
  shrinks (documents (snd (deleteDocument id w))) (documents w).
Proof.
  unfold deleteDocument. apply remote_shrinks. intros w0.
  destruct (existsb (has_id id) (documents w0)); [|apply shrinks_refl].
  cbn [snd documents set_documents]. split; [|split].
  - intros d Hd. apply filter_In in Hd. exists d. tauto.
  - apply filter_length_le.
  - apply filter_keys_NoDup.
Qed.

Lemma delete_loop_shrinks (others : list Document) :
  forall c w,
    shrinks (documents (snd (delete_loop others c w))) (documents w).
Proof.
  induction others as [|o others IH]; intros c w; cbn [delete_loop].
  - apply shrinks_refl.
  - pose proof (deleteDocument_shrinks (dollar_id o) w) as H.
    destruct (deleteDocument (dollar_id o) w) as [[u|e] w']; cbn [snd] in *.
    + eapply shrinks_trans; [apply IH | exact H].
    + exact H.
Qed.

Lemma process_group_shrinks (docs : list Document) (c : Counters) (w : World) :
  shrinks (documents (snd (process_group docs c w))) (documents w).
Proof.
  unfold process_group. destruct (1 <? List.length docs); [|apply shrinks_refl].
  destruct (sortedDocs docs) as [|keepDoc others]; [apply shrinks_refl|].
  pose proof (@updateDocument_shrinks (dollar_id keepDoc)
                (merge_update docs (now w)) w) as H.
  destruct (updateDocument (dollar_id keepDoc) (merge_update docs (now w)) w)
    as [[u|e] w']; cbn [snd] in *.
  - eapply shrinks_trans; [apply delete_loop_shrinks | apply H]. now intros d.
  - apply H. now intros d.
Qed.

Lemma groups_loop_shrinks (entries : MovieGroups) :
  forall c w,
    shrinks (documents (snd (groups_loop entries c w))) (documents w).
Proof.
  induction entries as [|[k docs] entries IH]; intros c w; cbn [groups_loop].
  - apply shrinks_refl.
  - pose proof (process_group_shrinks docs c w) as H.
    destruct (process_group docs c w) as [[[u|e] c'] w']; cbn [snd] in *.
    + eapply shrinks_trans; [apply IH | exact H].
    + exact H.
Qed.

(** X15: whatever the remote side does, the reconciler makes no
    document and moves none to another movie: every document of the
    collection after the call comes from a document that was there,
    with the same identifier and the same movie, the collection has
    not grown, and its identifiers are distinct when they were. *)
Theorem cleanupDuplicateMovies_adds_nothing (w : World) :
  shrinks (documents (snd (cleanupDuplicateMovies w))) (documents w).
Proof.
  assert (shrinks (documents (snd (cleanup_try w))) (documents w)) as H.
  { unfold cleanup_try.
    destruct (listDocuments_cases [Query_limit 100] w) as [[fs E] | [fs E]];
      rewrite E; [apply shrinks_refl|].
    apply (groups_loop_shrinks _ _ (set_faults fs w)). }
  unfold cleanupDuplicateMovies.
  destruct (cleanup_try w) as [[[u|e] c] w']; exact H.
Qed.

(* ----------------------------------------------------------------- *)
(** ** What a recorded search does to the whole collection *)

Lemma createDocument_unique_fresh (data : Document) (w : World) :
  (exists fs, createDocument "unique()" data w =
                (Rejected network_error, set_faults fs w)) \/
  (exists fs stored,
      createDocument "unique()" data w =
        (Fulfilled tt, set_documents (documents w ++ [stored]) (set_faults fs w)) /\
      movie_id stored = movie_id data /\
      ~ In (dollar_id stored) (map dollar_id (documents w))).
Proof.
  assert (~ In (fresh_id (documents w)) (map dollar_id (documents w))) as Hfresh.
  { intros H. apply has_id_In in H. rewrite fresh_id_fresh in H. discriminate. }
  unfold createDocument, remote.
  destruct (faults w) as [|[|] fs] eqn:Hf.
  - right. exists []. eexists. cbn [String.eqb Ascii.eqb Bool.eqb andb].
    rewrite fresh_id_fresh. rewrite <- Hf, set_faults_same.
    split; [reflexivity|]. cbn. auto.
  - left. eauto.
  - right. exists fs. eexists. cbn [String.eqb Ascii.eqb Bool.eqb andb].
    cbn [documents set_faults now]. rewrite fresh_id_fresh.
    split; [reflexivity|]. cbn. auto.
Qed.

Lemma overwrite_absent (i : string) (f : Document -> Document)
      (store : list Document) :
  ~ In i (map dollar_id store) ->
  map (fun d => if has_id i d then f d else d) store = store.
Proof.
  induction store as [|a store IH]; cbn; [reflexivity|].
  intros H. rewrite IH by tauto.
  destruct (has_id i a) eqn:E; [|reflexivity].
  apply String.eqb_eq in E. tauto.
Qed.

Lemma overwrite_total (x : Document) (f : Document -> Document)
      (store : list Document) :
  NoDup (map dollar_id store) ->
  In x store ->
  totalCount (map (fun d => if has_id (dollar_id x) d then f d else d) store) =
  (totalCount store - count x + count (f x))%Z.
Proof.
  induction store as [|a store IH]; cbn [map In]; [tauto|].
  intros Hnd Hx. inversion Hnd as [|? ? Hnotin Hnd'].
  rewrite !totalCount_cons. destruct Hx as [Hx | Hx].
  - rewrite Hx in *. unfold has_id at 1. rewrite String.eqb_refl.
    rewrite overwrite_absent by exact Hnotin. lia.
  - assert (has_id (dollar_id x) a = false) as E.
    { apply String.eqb_neq. intros Heq. apply Hnotin. rewrite Heq.
      now apply in_map. }
    rewrite E, IH by assumption. lia.
Qed.

(** Overwriting documents that are not of movie [m] and do not become
    documents of [m] leaves the documents of [m] as they are. *)
Lemma overwrite_other_movies (i : string) (f : Document -> Document) (m : Z)
      (store : list Document) :
  (forall d, In d store -> has_id i d = true ->
             movie_id d <> m /\ movie_id (f d) <> m) ->
  group_of m (map (fun d => if has_id i d then f d else d) store) =
  group_of m store.
Proof.
  unfold group_of.
  induction store as [|a store IH]; cbn [map filter]; [reflexivity|].
  intros H. rewrite IH by (intros d Hd; apply H; now right).
  destruct (has_id i a) eqn:E; [|reflexivity].
  destruct (H a (or_introl eq_refl) E) as [H1 H2].
  apply Z.eqb_neq in H1, H2. now rewrite H1, H2.
Qed.

Section SearchTotals.
Variable query : string.
Variable movie : Movie.t.

(** One run of the operation leaves the documents of the other movies
    as they are. *)
Lemma updateSearchCount_operation_frame (m : Z) (w : World) :
  NoDup (map dollar_id (documents w)) ->
  m <> Movie.id movie ->
  group_of m (documents (snd (updateSearchCount_operation query movie w))) =
  group_of m (documents w) /\
  NoDup (map dollar_id
           (documents (snd (updateSearchCount_operation query movie w)))).
Proof.
  intros Hnd Hm. unfold updateSearchCount_operation, bind.
  destruct (listDocuments_cases [Query_equal_movie_id (Movie.id movie)] w)
    as [[fs Hr] | [fs Hr]]; rewrite Hr; [auto|].
  pose proof (select_equal_head (Movie.id movie) (documents w)) as Hhead.
  destruct (select_documents _ (documents w)) as [|existingDoc rest].
  - unfold new_Date.
    destruct (createDocument_unique_fresh
                (search_create query movie (now (set_faults fs w)))
                (set_faults fs w))
      as [[fs' Hc] | (fs' & stored & Hc & Hmovie & Hfresh)]; rewrite Hc;
      [auto|].
    cbn [snd documents set_faults set_documents] in *. split.
    + unfold group_of. rewrite filter_app. cbn [filter].
      rewrite Hmovie. cbn [movie_id search_create].
      assert ((Movie.id movie =? m)%Z = false) as E
        by (apply Z.eqb_neq; congruence).
      rewrite E. apply app_nil_r.
    + rewrite map_app. apply NoDup_app; [exact Hnd | | ].
      * cbn. constructor; [tauto | constructor].
      * intros i Hi [Hs | []]. apply Hfresh. now rewrite Hs.
  - apply find_In_movie in Hhead. destruct Hhead as [Hin Hmovie].
    unfold new_Date.
    destruct (@updateDocument_cases (dollar_id existingDoc)
                (search_update existingDoc query movie (now (set_faults fs w)))
                (set_faults fs w))
      as [[fs' Hc] | [fs' Hc]]; [now apply in_map | |]; rewrite Hc;
      [auto|].
    cbn [snd documents set_faults set_documents now]. split.
    + apply overwrite_other_movies. intros d Hd Hid.
      apply String.eqb_eq in Hid.
      rewrite (@same_id_same_document (documents w) d existingDoc Hnd Hd Hin Hid).
      cbn. split; congruence.
    + rewrite map_map. erewrite map_ext; [exact Hnd|].
      intros d. cbn beta. now destruct (has_id (dollar_id existingDoc) d).
Qed.

Lemma updateSearchCount_loop_frame (m : Z) (retries : nat) (name : string)
      (fuel : nat) :
  m <> Movie.id movie ->
  forall i w,
    NoDup (map dollar_id (documents w)) ->
    group_of m
      (documents (snd (for_loop sleep_world
                         (updateSearchCount_operation query movie)
                         retries name fuel i w))) =
    group_of m (documents w).
Proof.
  intros Hm.
  induction fuel as [|fuel IH]; intros i w Hnd; cbn [for_loop].
  - destruct (i <? retries); reflexivity.
  - destruct (i <? retries); [|reflexivity].
    destruct (updateSearchCount_operation_frame w Hnd Hm) as [Hop Hnd'].
    destruct (updateSearchCount_operation query movie w) as [[v|e] w'];
      cbn [snd] in *; [exact Hop|].
    destruct (i =? retries - 1); cbn [snd]; [exact Hop|].
    rewrite IH; [exact Hop | exact Hnd'].
Qed.

(** X16: recording a search for a movie leaves the documents of every
    other movie as they are, in their order, on a collection with
    distinct identifiers: whether the call is fulfilled or rejected,
    and after however many attempts, all it has written is a document
    of the movie searched for. *)
Theorem updateSearchCount_other_movies_untouched (m : Z) (w : World) :
  NoDup (map dollar_id (documents w)) ->
  m <> Movie.id movie ->
  group_of m (documents (snd (updateSearchCount query movie w))) =
  group_of m (documents w).
Proof.
  intros Hnd Hm. unfold updateSearchCount, retryWithBackoff.
  now apply updateSearchCount_loop_frame.
Qed.

(** One run of the operation in which no remote call fails raises
    the sum of all counts by one. *)
Lemma updateSearchCount_operation_total (w : World) :
  faults w = [] ->
  NoDup (map dollar_id (documents w)) ->
  totalCount (documents (snd (updateSearchCount_operation query movie w))) =
  (totalCount (documents w) + 1)%Z.
Proof.
  intros Hf Hnd. unfold updateSearchCount_operation, bind, listDocuments.
  rewrite remote_no_faults by exact Hf.
  pose proof (select_equal_head (Movie.id movie) (documents w)) as Hhead.
  destruct (select_documents _ (documents w)) as [|existingDoc rest].
  - unfold new_Date, createDocument. rewrite remote_no_faults by exact Hf.
    cbn [String.eqb Ascii.eqb Bool.eqb andb]. rewrite fresh_id_fresh.
    cbn [snd documents set_documents].
    rewrite totalCount_app, totalCount_cons. cbn. lia.
  - apply find_In_movie in Hhead. destruct Hhead as [Hin _].
    unfold new_Date. rewrite updateDocument_ok; [| exact Hf | now apply in_map].
    cbn [snd documents set_documents].
    rewrite (@overwrite_total existingDoc
               (fun d => touch (now w)
                           (search_update existingDoc query movie (now w) d)))
      by assumption.
    cbn. lia.
Qed.

(** X17: on a collection with distinct identifiers, a call in which
    no remote call fails is fulfilled and raises the sum of all
    counts by exactly one, whether it updates a document or creates
    one. *)
Theorem updateSearchCount_adds_one (w : World) :
  NoDup (map dollar_id (documents w)) ->
  faults w = [] ->
  fst (updateSearchCount query movie w) = Fulfilled tt /\
  totalCount (documents (snd (updateSearchCount query movie w))) =
  (totalCount (documents w) + 1)%Z.
Proof.
  intros Hnd Hf.
  destruct (@updateSearchCount_first_attempt query movie w Hf Hnd) as [Heq Hok].
  split; [exact Hok|]. rewrite Heq.
  now apply updateSearchCount_operation_total.
Qed.
End SearchTotals.

Lemma updateSearchCount_other_movies_untouched_witness :
  group_of 1001
    (documents (snd (updateSearchCount "batman" batman_movie
                       (set_faults [true; false; true] late_duplicate_store)))) =
  group_of 1001 (documents (set_faults [true; false; true] late_duplicate_store)).
Proof.
  apply (@updateSearchCount_other_movies_untouched "batman" batman_movie 1001%Z
           (set_faults [true; false; true] late_duplicate_store)).
  - apply distinct_NoDup. vm_compute. reflexivity.
  - discriminate.
Defined.

Lemma updateSearchCount_adds_one_witness :
  fst (updateSearchCount "batman" batman_movie batman_rows) = Fulfilled tt /\
  totalCount (documents (snd (updateSearchCount "batman" batman_movie
                                                batman_rows))) =
  (totalCount (documents batman_rows) + 1)%Z.
Proof.
  apply (@updateSearchCount_adds_one "batman" batman_movie batman_rows).
  - apply distinct_NoDup. vm_compute. reflexivity.
  - reflexivity.
Defined.

(* ----------------------------------------------------------------- *)
(** ** The movie catalog *)

Section CatalogFacts.
Variable encodeURIComponent : string -> string.
Variable query : string.

Let operation := fetchMovies_operation encodeURIComponent query.
Let endpoint := endpoint_of encodeURIComponent query.

(** An attempt sends one request and takes the next answer of the
    network. *)
Lemma fetchMovies_operation_sends (n : Network) :
  let n' := snd (operation n) in
  requests n' = requests n ++ [endpoint] /\
  responses n' = tl (responses n) /\
  waited_ms n' = waited_ms n /\
  fst (operation n) =
    attempt_outcome (hd (Rejected network_failure) (responses n)).
Proof.
  subst operation endpoint.
  unfold attempt_outcome, fetchMovies_operation, bind, fetch, await, throw, ret.
  destruct n as [key rs log ms]. cbn [responses requests api_key waited_ms].
  destruct rs as [|[response|e] rs]; cbn [hd tl]; [auto | | auto].
  destruct (negb (Response.ok response)).
  - destruct (Response.text response); cbn; auto.
  - destruct (Response.json response) as [[|[results|]]|e]; cbn; auto.
Qed.

Lemma fetchMovies_loop_requests (fuel : nat) :
  forall i n,
    exists k,
      k <= fuel /\
      (i < 3 -> 0 < fuel -> 1 <= k) /\
      requests (snd (for_loop sleep_network operation 3 "FetchMovies" fuel i n)) =
      requests n ++ repeat endpoint k.
Proof.
  induction fuel as [|fuel IH]; intros i n; cbn [for_loop].
  - exists 0. split; [lia|]. split; [lia|]. cbn [repeat]. rewrite app_nil_r.
    now destruct (i <? 3).
  - destruct (i <? 3) eqn:Hi.
    2:{ apply Nat.ltb_ge in Hi. exists 0. split; [lia|]. split; [lia|].
        cbn [repeat]. now rewrite app_nil_r. }
    destruct (fetchMovies_operation_sends n) as (Hreq & _ & _ & _).
    destruct (operation n) as [[v|e] n']; cbn [snd] in *.
    + exists 1. split; [lia|]. split; [lia | exact Hreq].
    + destruct (i =? 3 - 1); cbn [snd].
      * exists 1. split; [lia|]. split; [lia | exact Hreq].
      * destruct (IH (S i) (sleep_network (1000 * 2 ^ Z.of_nat i) n'))
          as (k & Hk & _ & Hl).
        exists (S k). split; [lia|]. split; [lia|].
        rewrite Hl. cbn [sleep_network requests].
        rewrite Hreq, <- app_assoc. reflexivity.
Qed.

(** X18: a call of [fetchMovies] sends no request when the API key is
    missing or empty, and otherwise between one and three requests,
    all to the same endpoint, whatever the network answers. *)
Theorem fetchMovies_requests (n : Network) :
  exists k,
    k <= 3 /\
    (k = 0 <-> truthy_string (api_key n) = None) /\
    requests (snd (fetchMovies encodeURIComponent query n)) =
    requests n ++ repeat endpoint k.
Proof.
  unfold fetchMovies, try_catch.
  destruct (truthy_string (api_key n)) as [key|] eqn:Hkey.
  - destruct (fetchMovies_loop_requests 3 0 n) as (k & Hk & Hpos & Hl).
    fold operation. unfold retryWithBackoff.
    exists k. split; [lia|]. split; [split; [lia | discriminate]|].
    destruct (for_loop sleep_network operation 3 "FetchMovies" 3 0 n)
      as [[v|e] n']; cbn [snd] in *; [exact Hl|].
    destruct (is_AbortError e); exact Hl.
  - exists 0. split; [lia|]. split; [tauto|].
    cbn. now rewrite app_nil_r.
Qed.


End CatalogFacts.



(* ----------------------------------------------------------------- *)
(** ** The home screen *)

Lemma cleanupDuplicateMovies_fulfilled (w : World) :
  exists result, fst (cleanupDuplicateMovies w) = Fulfilled result.
Proof.
  unfold cleanupDuplicateMovies.
  destruct (cleanup_try w) as [[[u|e] c] w']; cbn [fst]; eauto.
Qed.

Lemma cleanupDuplicateMovies_unreachable (w : World) (fs : list bool) :
  faults w = true :: fs ->
  cleanupDuplicateMovies w =
    (Fulfilled (mkCleanupResult 0 0 (Some (thrown_message network_error))),
     set_faults fs w).
Proof.
  intros Hf. unfold cleanupDuplicateMovies, cleanup_try, listDocuments, remote.
  now rewrite Hf.
Qed.

(** X21: [runCleanup] never shows its error alert: whatever the remote
    side does, the call is fulfilled, the screen marks the cleanup as
    completed, and the only alert it may add is the one that reports
    duplicates. *)
Theorem runCleanup_never_reports_failure (app : App) :
  fst (runCleanup app) = Fulfilled tt /\
  cleanupCompleted (snd (runCleanup app)) = true /\
  (alerts (snd (runCleanup app)) = alerts app \/
   exists message,
     alerts (snd (runCleanup app)) =
     alerts app ++ [("Cleanup Completed!", message)]).
Proof.
  unfold runCleanup, try_catch, bind, on_world.
  destruct (cleanupDuplicateMovies_fulfilled (world app)) as [result Hr].
  destruct (cleanupDuplicateMovies (world app)) as [r w']. cbn [fst] in Hr.
  subst r. destruct (0 <? result_duplicatesFound result); cbn; eauto.
Qed.

(** X22: a cleanup that cannot reach the store leaves no trace on the
    screen: no alert is shown and the cleanup is marked as completed,
    as after a run that found no duplicates. *)
Theorem runCleanup_silent_failure (app : App) (fs : list bool) :
  faults (world app) = true :: fs ->
  snd (runCleanup app) =
    {| network := network app; world := set_faults fs (world app);
       alerts := alerts app;
       connectivityTested := connectivityTested app;
       cleanupCompleted := true |}.
Proof.
  intros Hf. unfold runCleanup, try_catch, bind, on_world.
  rewrite (cleanupDuplicateMovies_unreachable _ Hf). reflexivity.
Qed.

Lemma testTMDBConnection_result (n : Network) :
  fst (testTMDBConnection n) = Fulfilled (tmdb_reachable n).
Proof.
  unfold testTMDBConnection, tmdb_reachable, try_catch, bind, fetch, await, ret.
  destruct (responses n) as [|[response|e] rest]; cbn; try reflexivity.
  destruct (Response.ok response) eqn:E; cbn; [reflexivity|].
  destruct (Response.text response); cbn; now rewrite ?E.
Qed.

Lemma testAppwriteConnection_result (w : World) :
  fst (testAppwriteConnection w) = Fulfilled (appwrite_reachable w) /\
  documents (snd (testAppwriteConnection w)) = documents w.
Proof.
  unfold testAppwriteConnection, appwrite_reachable, try_catch, bind,
    listDocuments, remote, ret.
  destruct (faults w) as [|[|] rest]; cbn; auto.
Qed.

(** X23: the initial setup runs the reconciler only when both
    connectivity tests pass.  When one of them fails the call is
    fulfilled, the collection is as before, the cleanup flag is as
    before, and exactly one alert is added, which names what could not
    be reached. *)
Theorem runInitialSetup_guards_cleanup (app : App) :
  tmdb_reachable (network app) && appwrite_reachable (world app) = false ->
  let app' := snd (runInitialSetup app) in
  fst (runInitialSetup app) = Fulfilled tt /\
  documents (world app') = documents (world app) /\
  connectivityTested app' = true /\
  cleanupCompleted app' = cleanupCompleted app /\
  exists message,
    alerts app' =
    alerts app ++ [(connectivity_alert (tmdb_reachable (network app))
                                       (appwrite_reachable (world app)),
                    message)].
Proof.
  intros Hfail. unfold runInitialSetup, testConnectivity, try_catch, bind,
    on_network, on_world.
  pose proof (testTMDBConnection_result (network app)) as Ht.
  destruct (testAppwriteConnection_result (world app)) as [Ha Hdocs].
  destruct (testTMDBConnection (network app)) as [rt n'].
  cbn [fst] in Ht. subst rt.
  cbn [world network alerts connectivityTested cleanupCompleted].
  destruct (testAppwriteConnection (world app)) as [ra w'].
  cbn [fst snd] in Ha, Hdocs. subst ra.
  cbn [world network alerts connectivityTested cleanupCompleted ret
       setConnectivityTested fst snd].
  unfold connectivity_alert.
  destruct (tmdb_reachable (network app)), (appwrite_reachable (world app));
    try discriminate; cbn; eauto 10.
Qed.

Lemma runCleanup_silent_failure_witness :
  snd (runCleanup (mkApp (network example_app) batman_rows_unreachable
                         [] true false)) =
    {| network := network example_app;
       world := set_faults [true; true] batman_rows_unreachable;
       alerts := [];
       connectivityTested := true;
       cleanupCompleted := true |}.
Proof.
  apply (@runCleanup_silent_failure
           (mkApp (network example_app) batman_rows_unreachable [] true false)
           [true; true]).
  reflexivity.
Defined.

Lemma runInitialSetup_guards_cleanup_witness :
  let app := mkApp (mkNetwork (Some "eyJ") [Fulfilled unauthorized] [] 0)
                   batman_rows [] false false in
  let app' := snd (runInitialSetup app) in
  fst (runInitialSetup app) = Fulfilled tt /\
  documents (world app') = documents (world app) /\
  connectivityTested app' = true /\
  cleanupCompleted app' = cleanupCompleted app /\
  exists message,
    alerts app' =
    alerts app ++ [(connectivity_alert (tmdb_reachable (network app))
                                       (appwrite_reachable (world app)),
                    message)].
Proof.
  apply (@runInitialSetup_guards_cleanup
           (mkApp (mkNetwork (Some "eyJ") [Fulfilled unauthorized] [] 0)
                  batman_rows [] false false)).
  reflexivity.
Defined.

(* ----------------------------------------------------------------- *)
(** ** The search screen *)

Section SearchScreenFacts.
Variable trim : string -> string.

(** X24: the effect of the search screen never fails, whatever
    becomes of the call that records the search.  It makes no remote
    call at all when the trimmed query is empty, the screen is
    loading, or there is no first movie; otherwise, on a collection
    with distinct identifiers and when no remote call fails, it
    raises the sum of all counts by exactly one. *)
Theorem trackSearch_guarded (debouncedQuery : string)
        (movies : option (list Movie.t)) (loading : bool) (w : World) :
  let outcome := trackSearch trim debouncedQuery movies loading w in
  fst outcome = Fulfilled tt /\
  (trim debouncedQuery = "" \/ loading = true \/
   movies = None \/ movies = Some [] -> snd outcome = w) /\
  (trim debouncedQuery <> "" -> loading = false ->
   (exists first rest, movies = Some (first :: rest)) ->
   NoDup (map dollar_id (documents w)) -> faults w = [] ->
   totalCount (documents (snd outcome)) = (totalCount (documents w) + 1)%Z).
Proof.
  cbn zeta. unfold trackSearch.
  destruct (trim debouncedQuery) as [|c s] eqn:Htrim.
  { cbn. split; [reflexivity|]. split; [reflexivity|]. congruence. }
  destruct movies as [[|first rest]|].
  - cbn. split; [reflexivity|]. split; [reflexivity|].
    intros _ _ (f & r & H). discriminate.
  - destruct loading.
    + cbn. split; [reflexivity|]. split; [reflexivity|]. discriminate.
    + split; [|split].
      * unfold try_catch.
        destruct (updateSearchCount debouncedQuery first w) as [[[]|e] w'];
          reflexivity.
      * intros [H | [H | [H | H]]]; discriminate.
      * intros _ _ _ Hnd Hf.
        destruct (@updateSearchCount_first_attempt debouncedQuery first w Hf Hnd)
          as [Heq Hok].
        pose proof (@updateSearchCount_operation_total debouncedQuery first w
                      Hf Hnd) as Htotal.
        unfold try_catch. rewrite <- Heq in Htotal.
        destruct (updateSearchCount debouncedQuery first w) as [[[]|e] w'];
          cbn [fst snd] in *; [exact Htotal | discriminate].
  - cbn. split; [reflexivity|]. split; [reflexivity|].
    intros _ _ (f & r & H). discriminate.
Qed.
End SearchScreenFacts.

Lemma trackSearch_guarded_witness :
  totalCount
    (documents (snd (trackSearch (fun s => s) "batman" (Some [batman_movie])
                                 false batman_rows))) =
  (totalCount (documents batman_rows) + 1)%Z.
Proof.
  apply (proj2 (proj2 (@trackSearch_guarded (fun s => s) "batman"
                         (Some [batman_movie]) false batman_rows))).
  - discriminate.
  - reflexivity.
  - eauto.
  - apply distinct_NoDup. vm_compute. reflexivity.
  - reflexivity.
Defined.
